(** * Fill-in-the-blank exercises: [useBlanks], [InlineBlanks] and [Hint]

    A shallow embedding of the hook [useBlanks] (bracket parser, per-blank
    state, tree walker) with its helpers [getTextFromChildren] and
    [isMarkdownContent], of the component [InlineBlanks] (table detection,
    picker options, placeholder markup, completion effect, [renderBlank] and
    the content across renders) and of the component [Hint], followed by the
    properties proved about them.

    Conventions of the embedding.
    - A JavaScript string is a [string] whose characters are its UTF-16 code
      units: the character [ascii_of_nat n] is the code unit [n], so the
      model covers the text whose code units are below 256 (U+0000 to
      U+00FF). On this text the primitives are those of ECMAScript: the
      white space of [trim] and of the class [\s] is tab, line feed,
      vertical tab, form feed, carriage return, space and the no-break space
      U+00A0 ([Js.chr 160]); [toLowerCase] folds [A-Z] and the letters
      U+00C0 to U+00DE (all but the sign U+00D7); the line terminators are
      line feed and carriage return. A character is never a byte of UTF-8:
      U+00A0 is the one character [Js.chr 160].
    - A JavaScript array is a list of slots ([Hole], [Undef], [Val v]): an
      assignment past the end leaves holes, a spread turns holes into
      [undefined], and [every] skips holes.
    - Regular expressions are values of [regex], run by a backtracking
      matcher in continuation-passing style, the way ECMAScript defines
      pattern matching.
    - Array identity (needed for the dependency lists of [useCallback]) is an
      allocation stamp carried beside the elements.
    - An instance is followed through its own events, each with the render
      after it; the props stay what they were at the mount. A render whose
      body throws ends the instance: [life] is the run that stops there,
      while [runHook] and [run] give the state and the functions held after
      the events, whether or not the renders returned. *)

From Stdlib Require Import List Bool Arith Lia ZArith String Ascii Sorted Permutation.
From Stdlib Require Import DecimalString DecimalNat.
Import ListNotations.
Local Open Scope string_scope.
Local Open Scope nat_scope.
Local Open Scope list_scope.

Set Implicit Arguments.

(* ================================================================= *)
(** ** JavaScript strings *)

Module Js.

Definition chr (n : nat) : ascii := ascii_of_nat n.

Definition LF : ascii := chr 10.
Definition CR : ascii := chr 13.

(** White space as [String.prototype.trim] and the class [\s] see it: the
    code units 9 to 13, the space and U+00A0. *)
Definition isWhiteSpace (c : ascii) : bool :=
  let n := nat_of_ascii c in
  ((9 <=? n) && (n <=? 13)) || (n =? 32) || (n =? 160).

(** Line terminators: what [.] does not match. *)
Definition isLineTerminator (c : ascii) : bool :=
  let n := nat_of_ascii c in
  (n =? 10) || (n =? 13).

(** The lower case of a code unit: [A-Z] and the capital letters U+00C0 to
    U+00DE, which do not include the multiplication sign U+00D7, lie 32
    below their small letters; every other code unit below 256 is its own
    lower case. *)
Definition lowerChar (c : ascii) : ascii :=
  let n := nat_of_ascii c in
  if ((65 <=? n) && (n <=? 90))
     || ((192 <=? n) && (n <=? 222) && negb (n =? 215))
  then ascii_of_nat (n + 32) else c.

(** [s.toLowerCase()] *)
Fixpoint toLowerCase (s : string) : string :=
  match s with
  | EmptyString => EmptyString
  | String c s' => String (lowerChar c) (toLowerCase s')
  end.

Fixpoint trimStart (s : string) : string :=
  match s with
  | EmptyString => EmptyString
  | String c s' => if isWhiteSpace c then trimStart s' else s
  end.

(** Drops the white space at the end: a character stays when it is not white
    space or when something stays after it. *)
Fixpoint trimEnd (s : string) : string :=
  match s with
  | EmptyString => EmptyString
  | String c s' =>
      match trimEnd s' with
      | EmptyString => if isWhiteSpace c then EmptyString else String c EmptyString
      | t => String c t
      end
  end.

(** [s.trim()] *)
Definition trim (s : string) : string := trimEnd (trimStart s).

(** [s.startsWith(p)] *)
Definition startsWith (s p : string) : bool := String.prefix p s.

Fixpoint drop (n : nat) (s : string) : string :=
  match n, s with
  | 0, _ => s
  | S n', String _ s' => drop n' s'
  | S _, EmptyString => EmptyString
  end.

(** [s.endsWith(p)] *)
Definition endsWith (s p : string) : bool :=
  (String.length p <=? String.length s)
  && String.eqb (drop (String.length s - String.length p) s) p.

(** [s.includes(p)] *)
Fixpoint includes (s p : string) : bool :=
  String.prefix p s
  || match s with
     | EmptyString => false
     | String _ s' => includes s' p
     end.

(** A relative index of [slice] resolved against the length. *)
Definition relIndex (len : nat) (i : Z) : nat :=
  if (i <? 0)%Z then Z.to_nat (Z.max (Z.of_nat len + i) 0)
  else Nat.min (Z.to_nat i) len.

(** [s.slice(from, to)] *)
Definition slice (s : string) (from to : Z) : string :=
  let len := String.length s in
  let a := relIndex len from in
  let b := relIndex len to in
  String.substring a (b - a) s.

(** [s.slice(n)] and [s.substring(n)] for a natural [n]. *)
Definition sliceFrom (s : string) (n : nat) : string := drop n s.

(** [s.split(c)] for a one-character separator: never empty. *)
Fixpoint split (sep : ascii) (s : string) : list string :=
  match s with
  | EmptyString => [EmptyString]
  | String c s' =>
      if Ascii.eqb c sep then EmptyString :: split sep s'
      else match split sep s' with
           | [] => [String c EmptyString]
           | p :: ps => String c p :: ps
           end
  end.

(** [l.join(sep)] *)
Definition join (sep : string) (l : list string) : string := String.concat sep l.

(** The decimal text of a natural number, as a template literal or
    [toString] writes it. *)
Definition natToString (n : nat) : string :=
  DecimalString.NilEmpty.string_of_uint (Nat.to_uint n).

Definition intToString (z : Z) : string :=
  if (z <? 0)%Z then String "-" (natToString (Z.to_nat (- z)))
  else natToString (Z.to_nat z).

Definition digitValue (c : ascii) : option nat :=
  let n := nat_of_ascii c in
  if (48 <=? n) && (n <=? 57) then Some (n - 48) else None.

Fixpoint parseDigits (s : string) (acc : option nat) : option nat :=
  match s with
  | EmptyString => acc
  | String c s' =>
      match digitValue c with
      | Some d => parseDigits s' (Some (10 * match acc with Some a => a | None => 0 end + d))
      | None => acc
      end
  end.

Definition hexValue (c : ascii) : option nat :=
  let n := nat_of_ascii c in
  if (48 <=? n) && (n <=? 57) then Some (n - 48)
  else if (97 <=? n) && (n <=? 102) then Some (n - 87)
  else if (65 <=? n) && (n <=? 70) then Some (n - 55)
  else None.

Fixpoint parseHexDigits (s : string) (acc : option nat) : option nat :=
  match s with
  | EmptyString => acc
  | String c s' =>
      match hexValue c with
      | Some d =>
          parseHexDigits s' (Some (16 * match acc with Some a => a | None => 0 end + d))
      | None => acc
      end
  end.

(** The digits of [parseInt] after the sign: in base 16 after [0x] or [0X],
    in base 10 otherwise. *)
Definition parseMagnitude (s : string) : option nat :=
  match s with
  | String "0" (String "x" t) => parseHexDigits t None
  | String "0" (String "X" t) => parseHexDigits t None
  | _ => parseDigits s None
  end.

(** [parseInt(s)]: leading white space, an optional sign, the longest run of
    digits; [None] is [NaN]. *)
Definition parseInt (s : string) : option Z :=
  match trimStart s with
  | String "-" t => option_map (fun n => (- Z.of_nat n)%Z) (parseMagnitude t)
  | String "+" t => option_map Z.of_nat (parseMagnitude t)
  | t => option_map Z.of_nat (parseMagnitude t)
  end.

End Js.

(* ================================================================= *)
(** ** Regular expressions *)

Module Re.

Inductive regex : Type :=
| Bol                                   (* ^ *)
| Eol                                   (* $ *)
| Chr (c : ascii)                       (* a literal character *)
| Class (p : ascii -> bool)             (* a character class, [.] included *)
| Seq (r1 r2 : regex)
| Star (greedy : bool) (r : regex).     (* r* and r*? *)

Definition Plus (r : regex) : regex := Seq r (Star true r).

Section Matcher.
Variable R : Type.

(** The iterations of a star: [step] matches the body once. An iteration that
    consumed nothing is given up, as ECMAScript's RepeatMatcher does; a
    greedy star tries one more iteration before the continuation, a lazy one
    the continuation first. [fuel] bounds the iterations by the number of
    characters left. *)
Fixpoint starLoop (step : nat -> list ascii -> (nat -> list ascii -> option R) -> option R)
         (greedy : bool) (k : nat -> list ascii -> option R)
         (fuel pos : nat) (s : list ascii) {struct fuel} : option R :=
  match fuel with
  | 0 => k pos s
  | S fuel' =>
      let more :=
        step pos s
             (fun pos' s' =>
                if pos' =? pos then None else starLoop step greedy k fuel' pos' s') in
      if greedy
      then match more with Some x => Some x | None => k pos s end
      else match k pos s with Some x => Some x | None => more end
  end.

(** [run r pos s k]: match [r] at index [pos], [s] being the input from
    there on, then call the continuation on the state reached. *)
Fixpoint run (r : regex) (pos : nat) (s : list ascii)
         (k : nat -> list ascii -> option R) {struct r} : option R :=
  match r with
  | Bol => if pos =? 0 then k pos s else None
  | Eol => match s with [] => k pos s | _ :: _ => None end
  | Chr c =>
      match s with
      | x :: s' => if Ascii.eqb x c then k (S pos) s' else None
      | [] => None
      end
  | Class p =>
      match s with
      | x :: s' => if p x then k (S pos) s' else None
      | [] => None
      end
  | Seq r1 r2 => run r1 pos s (fun pos' s' => run r2 pos' s' k)
  | Star greedy r1 => starLoop (run r1) greedy k (List.length s) pos s
  end.

End Matcher.

(** A sticky match at [pos]: the input left after the match. *)
Definition execAt (r : regex) (pos : nat) (s : list ascii) : option (list ascii) :=
  run r pos s (fun _ rest => Some rest).

(** [r.test(s)] without flags: the first start index with a match. *)
Fixpoint testFrom (r : regex) (pos : nat) (s : list ascii) : bool :=
  match execAt r pos s with
  | Some _ => true
  | None => match s with
            | [] => false
            | _ :: s' => testFrom r (S pos) s'
            end
  end.

Definition test (r : regex) (s : string) : bool :=
  testFrom r 0 (list_ascii_of_string s).

(** [s.split(/(r)/g)], the pattern being one capturing group: the pieces
    between the matches and the matches themselves, alternating. [cur] holds,
    reversed, the characters since the last split point. A match that is
    empty at the split point only advances. *)
Fixpoint splitLoop (r : regex) (fuel pos : nat) (s cur : list ascii)
  : list (list ascii) :=
  match fuel with
  | 0 => [rev cur ++ s]
  | S fuel' =>
      match s with
      | [] => [rev cur]
      | c :: s' =>
          match execAt r pos s with
          | None => splitLoop r fuel' (S pos) s' (c :: cur)
          | Some rest =>
              let n := List.length s - List.length rest in
              match n, cur with
              | 0, [] => splitLoop r fuel' (S pos) s' (c :: cur)
              | _, _ => rev cur :: firstn n s :: splitLoop r fuel' (pos + n) rest []
              end
          end
      end
  end.

Definition splitCapture (r : regex) (s : string) : list string :=
  let l := list_ascii_of_string s in
  match l with
  | [] => match execAt r 0 [] with Some _ => [] | None => [EmptyString] end
  | _ => map string_of_list_ascii (splitLoop r (2 * List.length l + 1) 0 l [])
  end.

(** What a pattern matches, as a relation between the state before and the
    state after. *)
Inductive ms : regex -> nat -> list ascii -> nat -> list ascii -> Prop :=
| MBol s : ms Bol 0 s 0 s
| MEol pos : ms Eol pos [] pos []
| MChr c pos s : ms (Chr c) pos (c :: s) (S pos) s
| MClass p c pos s : p c = true -> ms (Class p) pos (c :: s) (S pos) s
| MSeq r1 r2 p0 s0 p1 s1 p2 s2 :
    ms r1 p0 s0 p1 s1 -> ms r2 p1 s1 p2 s2 -> ms (Seq r1 r2) p0 s0 p2 s2
| MStar0 g r pos s : ms (Star g r) pos s pos s
| MStarS g r p0 s0 p1 s1 p2 s2 :
    ms r p0 s0 p1 s1 -> p1 <> p0 -> ms (Star g r) p1 s1 p2 s2 ->
    ms (Star g r) p0 s0 p2 s2.

End Re.

(* ================================================================= *)
(** ** JavaScript arrays *)

Module Arr.

Inductive slot (A : Type) : Type :=
| Hole                 (* an index never assigned *)
| Undef                (* the value [undefined] *)
| Val (v : A).

Arguments Hole {A}.
Arguments Undef {A}.

(** [l[i]]: [None] is [undefined]. *)
Definition get {A} (l : list (slot A)) (i : nat) : option A :=
  match nth_error l i with
  | Some (Val v) => Some v
  | _ => None
  end.

(** [[...l]]: the iterator reads a hole as [undefined]. *)
Definition spread {A} (l : list (slot A)) : list (slot A) :=
  map (fun x => match x with Hole => Undef | _ => x end) l.

Fixpoint replace {A} (i : nat) (x : slot A) (l : list (slot A)) : list (slot A) :=
  match l, i with
  | [], _ => []
  | _ :: r, 0 => x :: r
  | y :: r, S i' => y :: replace i' x r
  end.

(** [l[i] = v]: in place inside the array, and growing it with holes past
    its end. *)
Definition set {A} (i : nat) (v : A) (l : list (slot A)) : list (slot A) :=
  if i <? List.length l then replace i (Val v) l
  else l ++ repeat Hole (i - List.length l) ++ [Val v].

(** [new Array(n).fill(v)] *)
Definition fill {A} (n : nat) (v : A) : list (slot A) := repeat (Val v) n.

(** An array with its identity: two arrays are the same object when their
    stamps are equal. *)
Record t (A : Type) : Type := mk { ref : nat; elems : list (slot A) }.

End Arr.

(** What a computation that may throw returns. *)
Inductive Result (A : Type) : Type :=
| Ok (a : A)
| TypeError.

Arguments TypeError {A}.

(* ================================================================= *)
(** ** The hook [useBlanks] *)

Module UseBlanks.

(** A React node: text, a number, an array of nodes, an element with its
    [props.children], [null] or [undefined], a boolean. *)
#[warnings="-register-all"]
Inductive Node : Type :=
| NStr (s : string)
| NNum (n : Z)
| NArr (items : list Node)
| NElem (type : string) (children : Node)
| NNull
| NBool (b : bool).

(** The truth value of [props.children] in a condition. *)
Definition truthy (n : Node) : bool :=
  match n with
  | NStr s => negb (String.eqb s "")
  | NNum z => negb (Z.eqb z 0)
  | NArr _ | NElem _ _ => true
  | NNull => false
  | NBool b => b
  end.

Definition nl : string := String Js.LF EmptyString.

Definition isArrayBlock (type : string) : bool :=
  String.eqb type "p" || String.eqb type "div" || String.eqb type "li"
  || String.eqb type "br".

Definition isTrailingBlock (type : string) : bool :=
  String.eqb type "p" || String.eqb type "div".

(** [getTextFromChildren] *)
Fixpoint getTextFromChildren (node : Node) : string :=
  match node with
  | NStr s => s
  | NNum n => Js.intToString n
  | NArr items =>
      (fix each (l : list Node) : string :=
         match l with
         | [] => EmptyString
         | child :: rest =>
             let text := getTextFromChildren child in
             let piece :=
               match child with
               | NElem type _ =>
                   if isArrayBlock type
                   then (text ++ (match rest with [] => EmptyString | _ :: _ => nl end))%string
                   else text
               | _ => text
               end in
             (piece ++ each rest)%string
         end) items
  | NElem type children =>
      if String.eqb type "br" then nl
      else if truthy children then
             let content := getTextFromChildren children in
             if isTrailingBlock type then (content ++ nl)%string else content
           else EmptyString
  | NNull | NBool _ => EmptyString
  end.

Record BlankData : Type := mkBlank {
  answer : string;
  localOptions : list string;
  hint : option string
}.

(** [.] without the [s] flag *)
Definition dot (c : ascii) : bool := negb (Js.isLineTerminator c).

(** The pattern [\[.*?\]] (its capturing group spans the whole match). *)
Definition blankRe : Re.regex :=
  Re.Seq (Re.Chr "[") (Re.Seq (Re.Star false (Re.Class dot)) (Re.Chr "]")).

(** [text.split(/(\[.*?\])/g)] *)
Definition splitBlanks (text : string) : list string := Re.splitCapture blankRe text.

(** [p.startsWith('[') && p.endsWith(']')] *)
Definition isBlankToken (p : string) : bool :=
  Js.startsWith p "[" && Js.endsWith p "]".

(** One turn of the loop over [items[1..]]. *)
Definition classify (acc : option string * list string) (item : string)
  : option string * list string :=
  let (h, opts) := acc in
  if Js.startsWith item "hint:" then (Some (Js.sliceFrom item 5), opts)
  else (h, opts ++ [item]).

(** The body of the [map] over the bracket tokens. *)
Definition parseBlank (p : string) : BlankData :=
  let content := Js.slice p 1 (-1) in
  let items := Js.split "|" content in
  let answer := hd EmptyString items in
  let (hint, localOptions) := fold_left classify (tl items) (None, []) in
  mkBlank answer localOptions hint.

(** [blanksData], from the text of the children. *)
Definition parseBlanks (text : string) : list BlankData :=
  map parseBlank (filter isBlankToken (splitBlanks text)).

Definition blanksDataOf (children : Node) : list BlankData :=
  parseBlanks (getTextFromChildren children).

Definition answersOf (blanksData : list BlankData) : list string :=
  map answer blanksData.

(** *** State *)

Record State : Type := mkState {
  inputs : Arr.t string;
  touched : Arr.t bool;
  blurred : Arr.t bool;
  submitted : bool;
  showAnswers : bool;
  showHintFor : Arr.t bool;
  nextRef : nat          (* the stamp of the next array allocated *)
}.

(** The initial state: four arrays of [answers.length] entries. *)
Definition initialState (n : nat) : State :=
  mkState (Arr.mk 0 (Arr.fill n EmptyString))
          (Arr.mk 1 (Arr.fill n false))
          (Arr.mk 2 (Arr.fill n false))
          false false
          (Arr.mk 3 (Arr.fill n false))
          4.

Definition handleInputChange (index : nat) (value : string) (st : State) : State :=
  let r := nextRef st in
  mkState (Arr.mk r (Arr.set index value (Arr.spread (Arr.elems (inputs st)))))
          (Arr.mk (r + 1) (Arr.set index true (Arr.spread (Arr.elems (touched st)))))
          (Arr.mk (r + 2) (Arr.set index false (Arr.spread (Arr.elems (blurred st)))))
          (submitted st) (showAnswers st) (showHintFor st) (r + 3).

Definition handleBlur (index : nat) (st : State) : State :=
  let r := nextRef st in
  mkState (inputs st) (touched st)
          (Arr.mk r (Arr.set index true (Arr.spread (Arr.elems (blurred st)))))
          (submitted st) (showAnswers st) (showHintFor st) (r + 1).

Definition checkAnswers (st : State) : State :=
  mkState (inputs st) (touched st) (blurred st) true false (showHintFor st) (nextRef st).

(** [reset], [n] being [answers.length]. *)
Definition reset (n : nat) (st : State) : State :=
  let r := nextRef st in
  mkState (Arr.mk r (Arr.fill n EmptyString))
          (Arr.mk (r + 1) (Arr.fill n false))
          (blurred st) false false (showHintFor st) (r + 2).

(** [!next[index]]: [undefined] negates to [true]. *)
Definition notAt (l : list (Arr.slot bool)) (index : nat) : bool :=
  match Arr.get l index with
  | Some b => negb b
  | None => true
  end.

Definition toggleHint (index : nat) (st : State) : State :=
  let r := nextRef st in
  let next := Arr.spread (Arr.elems (showHintFor st)) in
  mkState (inputs st) (touched st) (blurred st) (submitted st) (showAnswers st)
          (Arr.mk r (Arr.set index (notAt next index) next)) (r + 1).

Definition showAllAnswers (answers : list string) (st : State) : State :=
  let r := nextRef st in
  mkState (Arr.mk r (map (@Arr.Val string) answers))
          (touched st) (blurred st) true true (showHintFor st) (r + 1).

(** [val.trim().toLowerCase() === answer.toLowerCase()] *)
Definition matchesAnswer (val ans : string) : bool :=
  String.eqb (Js.toLowerCase (Js.trim val)) (Js.toLowerCase ans).

(** [inputs.every((val, idx) => ...)]: a hole is skipped, [undefined] has no
    [trim], a missing answer has no [toLowerCase], and the first [false]
    ends the loop. *)
Fixpoint everyCorrect (answers : list string) (idx : nat)
         (l : list (Arr.slot string)) : Result bool :=
  match l with
  | [] => Ok true
  | Arr.Hole :: rest => everyCorrect answers (S idx) rest
  | Arr.Undef :: _ => TypeError
  | Arr.Val v :: rest =>
      match nth_error answers idx with
      | None => TypeError
      | Some a =>
          if matchesAnswer v a then everyCorrect answers (S idx) rest
          else Ok false
      end
  end.

Definition allCorrect (answers : list string) (st : State) : Result bool :=
  everyCorrect answers 0 (Arr.elems (inputs st)).

(** *** Derived status and the tree walker *)

Module Status.
Record t : Type := mk {
  value : string;
  isCorrect : bool;
  isWrong : bool;
  touched : bool;
  showValidation : bool
}.
End Status.

(** The variables a [renderContent] function closes over. *)
Record Closure : Type := mkClosure {
  c_blanksData : list BlankData;
  c_inputs : Arr.t string;
  c_submitted : bool;
  c_touched : Arr.t bool;
  c_blurred : Arr.t bool
}.

(** [a[i]] read as a condition: [undefined] is falsy. *)
Definition flag (a : Arr.t bool) (i : nat) : bool :=
  match Arr.get (Arr.elems a) i with
  | Some b => b
  | None => false
  end.

(** [inputs[index] || ''] *)
Definition valueAt (a : Arr.t string) (i : nat) : string :=
  match Arr.get (Arr.elems a) i with
  | Some v => v
  | None => EmptyString
  end.

(** The status object built for the blank [index]; conditions are kept as
    their truth values. *)
Definition deriveStatus (env : Closure) (data : BlankData) (index : nat) : Status.t :=
  let value := valueAt (c_inputs env) index in
  let isCorrect := matchesAnswer value (answer data) in
  let showValidation :=
    c_submitted env
    || (flag (c_touched env) index && negb (String.eqb (Js.trim value) "")) in
  let isPartialMatch :=
    (0 <? String.length (Js.trim value))
    && Js.startsWith (Js.toLowerCase (answer data)) (Js.toLowerCase (Js.trim value)) in
  Status.mk value isCorrect
            (showValidation && negb isCorrect
             && (c_submitted env || (negb isPartialMatch || flag (c_blurred env) index)))
            (flag (c_touched env) index)
            showValidation.

(** What [processNode] returns: text, a number, the result of [renderBlank]
    (recorded by its arguments), a cloned element with processed children, an
    element returned as it is. *)
#[warnings="-register-all"]
Inductive Out : Type :=
| OText (s : string)
| ONumber (n : Z)
| OBlank (index : nat) (data : BlankData) (status : Status.t)
| OClone (type : string) (children : list Out)
| OSame (n : Node).

(** The [map] over the parts of one string child; [counter] is
    [blankIndexCounter]. *)
Fixpoint processParts (env : Closure) (parts : list string) (counter : nat)
  : Result (list Out * nat) :=
  match parts with
  | [] => Ok ([], counter)
  | part :: rest =>
      if isBlankToken part then
        if List.length (c_blanksData env) <=? counter then
          match processParts env rest counter with
          | Ok (os, c') => Ok (OText part :: os, c')
          | TypeError => TypeError
          end
        else
          match nth_error (c_blanksData env) counter with
          | None => TypeError          (* [data.answer] of [undefined] *)
          | Some data =>
              match processParts env rest (S counter) with
              | Ok (os, c') => Ok (OBlank counter data (deriveStatus env data counter) :: os, c')
              | TypeError => TypeError
              end
          end
      else
        match processParts env rest counter with
        | Ok (os, c') => Ok (OText part :: os, c')
        | TypeError => TypeError
        end
  end.

(** [processNode]: [React.Children.map] flattens arrays and drops the empty
    results. *)
Fixpoint processNode (env : Closure) (node : Node) (counter : nat)
  : Result (list Out * nat) :=
  match node with
  | NStr s => processParts env (splitBlanks s) counter
  | NNum n => Ok ([ONumber n], counter)
  | NArr items =>
      (fix each (l : list Node) (counter : nat) : Result (list Out * nat) :=
         match l with
         | [] => Ok ([], counter)
         | child :: rest =>
             match processNode env child counter with
             | Ok (o1, c1) =>
                 match each rest c1 with
                 | Ok (o2, c2) => Ok (o1 ++ o2, c2)
                 | TypeError => TypeError
                 end
             | TypeError => TypeError
             end
         end) items counter
  | NElem type children =>
      if truthy children then
        match processNode env children counter with
        | Ok (cs, c') => Ok ([OClone type cs], c')
        | TypeError => TypeError
        end
      else Ok ([OSame node], counter)
  | NNull | NBool _ => Ok ([], counter)
  end.

(** [renderContent(renderBlank)], run with the variables of [env]. *)
Definition renderContent (env : Closure) (children : Node) : Result (list Out) :=
  match processNode env children 0 with
  | Ok (os, _) => Ok os
  | TypeError => TypeError
  end.

(** *** The hook across renders *)

(** One instance of the hook for fixed [children]: its state, and the
    [renderContent] function [useCallback] holds. *)
Record Instance : Type := mkInstance {
  state : State;
  memo : Closure
}.

Definition closureOf (blanksData : list BlankData) (st : State) : Closure :=
  mkClosure blanksData (inputs st) (submitted st) (touched st) (blurred st).

(** The dependency list [[children, blanksData, inputs, submitted, touched]]
    compared with [Object.is]; [children] and [blanksData] do not change
    within an instance. *)
Definition sameDeps (old : Closure) (st : State) : bool :=
  (Arr.ref (c_inputs old) =? Arr.ref (inputs st))
  && Bool.eqb (c_submitted old) (submitted st)
  && (Arr.ref (c_touched old) =? Arr.ref (touched st)).

(** A render after the state became [st]: [useCallback] keeps the function
    it holds unless a dependency changed. *)
Definition rerender (blanksData : list BlankData) (old : Closure) (st : State) : Instance :=
  mkInstance st (if sameDeps old st then old else closureOf blanksData st).

Definition mount (children : Node) : Instance :=
  let data := blanksDataOf children in
  let st := initialState (List.length (answersOf data)) in
  mkInstance st (closureOf data st).

Inductive Event : Type :=
| Change (index : nat) (value : string)
| Blur (index : nat)
| CheckAnswers
| Reset
| ToggleHint (index : nat)
| RevealAll.

Definition dispatch (children : Node) (e : Event) (st : State) : State :=
  let answers := answersOf (blanksDataOf children) in
  match e with
  | Change i v => handleInputChange i v st
  | Blur i => handleBlur i st
  | CheckAnswers => checkAnswers st
  | Reset => reset (List.length answers) st
  | ToggleHint i => toggleHint i st
  | RevealAll => showAllAnswers answers st
  end.

(** The state an event leaves and the function [useCallback] holds in the
    render that follows it. That render runs the whole body of the hook and
    may throw: see [throws] and [next]. *)
Definition step (children : Node) (inst : Instance) (e : Event) : Instance :=
  rerender (blanksDataOf children) (memo inst) (dispatch children e (state inst)).

(** Whether the body of the hook throws in the render with the state of
    [inst]: every render computes [allCorrect], whose callback throws a
    [TypeError] on an [undefined] value and on a value without answer. *)
Definition throws (children : Node) (inst : Instance) : bool :=
  match allCorrect (answersOf (blanksDataOf children)) (state inst) with
  | Ok _ => false
  | TypeError => true
  end.

(** The content the instance renders: nothing but the error when the body
    of the hook throws, and else what [renderContent] returns. *)
Definition rendered (children : Node) (inst : Instance) : Result (list Out) :=
  if throws children inst then TypeError else renderContent (memo inst) children.

(** A render of the instance: the instance itself, or the error that ends
    it. *)
Definition render (children : Node) (inst : Instance) : Result Instance :=
  if throws children inst then TypeError else Ok inst.

(** An event and the render that follows it. After a render that threw
    there is no component left, and no event. *)
Definition next (children : Node) (r : Result Instance) (e : Event) : Result Instance :=
  match r with
  | Ok inst => render children (step children inst e)
  | TypeError => TypeError
  end.

(** The mount and a list of events, each followed by its render. *)
Definition life (children : Node) (es : list Event) : Result Instance :=
  fold_left (next children) es (render children (mount children)).

Fixpoint findIn (index : nat) (o : Out) : option Status.t :=
  match o with
  | OBlank i _ s => if i =? index then Some s else None
  | OClone _ cs =>
      (fix each (l : list Out) : option Status.t :=
         match l with
         | [] => None
         | c :: rest =>
             match findIn index c with
             | Some s => Some s
             | None => each rest
             end
         end) cs
  | _ => None
  end.

Fixpoint findBlank (index : nat) (os : list Out) : option Status.t :=
  match os with
  | [] => None
  | o :: rest =>
      match findIn index o with
      | Some s => Some s
      | None => findBlank index rest
      end
  end.

(** The status handed to [renderBlank] for the blank [index]. *)
Definition renderedStatus (children : Node) (inst : Instance) (index : nat)
  : option Status.t :=
  match rendered children inst with
  | Ok os => findBlank index os
  | TypeError => None
  end.

End UseBlanks.

(* ================================================================= *)
(** ** The component [InlineBlanks] *)

Module InlineBlanks.
Import UseBlanks.

(** The class [\s] *)
Definition ws : Re.regex := Re.Class Js.isWhiteSpace.

(** The class [[\s\-:|]] *)
Definition sepCell (c : ascii) : bool :=
  Js.isWhiteSpace c || Ascii.eqb c "-" || Ascii.eqb c ":" || Ascii.eqb c "|".

(** The pattern [^\s*\|[\s\-:|]+\|\s*$] of a separator row. *)
Definition sepRe : Re.regex :=
  Re.Seq Re.Bol
    (Re.Seq (Re.Star true ws)
       (Re.Seq (Re.Chr "|")
          (Re.Seq (Re.Plus (Re.Class sepCell))
             (Re.Seq (Re.Chr "|")
                (Re.Seq (Re.Star true ws) Re.Eol))))).

(** The pattern [^\s*] *)
Definition indentRe : Re.regex := Re.Seq Re.Bol (Re.Star true ws).

Definition lines (text : string) : list string := Js.split Js.LF text.

Definition hasPipes (ls : list string) : bool :=
  existsb (fun line => Js.includes line "|") ls.

Definition hasSeparator (ls : list string) : bool :=
  existsb (fun line => Re.test sepRe line) ls.

Definition tableDetected (text : string) : bool :=
  hasPipes (lines text) && hasSeparator (lines text).

(** [line.match(/^\s*/)?.[0].length || 0] *)
Definition indentOf (line : string) : nat :=
  let l := list_ascii_of_string line in
  match Re.execAt indentRe 0 l with
  | Some rest => List.length l - List.length rest
  | None => 0
  end.

(** The callback of the [reduce]; [None] is [Infinity]. *)
Definition minStep (min : option nat) (line : string) : option nat :=
  if String.length (Js.trim line) =? 0 then min
  else match min with
       | None => Some (indentOf line)
       | Some m => Some (Nat.min m (indentOf line))
       end.

Definition minIndent (ls : list string) : option nat := fold_left minStep ls None.

Definition dedentLine (n : nat) (line : string) : string :=
  if n <=? String.length line then Js.sliceFrom line n else line.

(** The memo [{ rawText, isTable }] computed from the text of the children. *)
Definition preprocess (text : string) : string * bool :=
  let ls := lines text in
  let detected := hasPipes ls && hasSeparator ls in
  if detected || Js.includes text nl then
    match minIndent ls with
    | Some (S n) => (Js.join nl (map (dedentLine (S n)) ls), detected)
    | _ => (text, detected)
    end
  else (text, false).

Definition rawText (children : Node) : string :=
  fst (preprocess (getTextFromChildren children)).

Definition isTable (children : Node) : bool :=
  snd (preprocess (getTextFromChildren children)).

(** *** [renderBlank]: the choices of the picker *)

Inductive Mode : Type := TypeMode | Picker.

(** [Array.from(new Set(l))]: the first occurrence of each value, in order. *)
Fixpoint fromSet (seen l : list string) : list string :=
  match l with
  | [] => []
  | x :: rest =>
      if existsb (String.eqb x) seen then fromSet seen rest
      else x :: fromSet (x :: seen) rest
  end.

Fixpoint insert (x : string) (l : list string) : list string :=
  match l with
  | [] => [x]
  | y :: rest => if String.leb x y then x :: l else y :: insert x rest
  end.

(** [l.sort()]: by code units. *)
Definition sort (l : list string) : list string := fold_right insert [] l.

Definition currentOptions (options : list string) (data : BlankData) : list string :=
  if 0 <? List.length (localOptions data) then localOptions data else options.

Definition dropdownOptions (options : list string) (data : BlankData) : list string :=
  sort (fromSet [] (currentOptions options data ++ [answer data])).

(** The [<option>]s a blank offers after the disabled placeholder: none for
    a text field. *)
Definition choices (mode : Mode) (options : list string) (data : BlankData)
  : option (list string) :=
  match mode with
  | Picker => Some (dropdownOptions options data)
  | TypeMode => None
  end.

(** *** The table path *)

Definition quote : string := String (Js.chr 34) EmptyString.

(** The placeholder element written for the blank [index]. *)
Definition placeholder (index : nat) : string :=
  ("<span data-blank=" ++ quote ++ Js.natToString index ++ quote ++ "></span>")%string.

(** The [map] over the parts of [rawText]; [blankIndex] counts the tokens. *)
Fixpoint markup (parts : list string) (blankIndex : nat) : list string :=
  match parts with
  | [] => []
  | part :: rest =>
      if isBlankToken part then placeholder blankIndex :: markup rest (S blankIndex)
      else part :: markup rest blankIndex
  end.

Definition processedMarkdown (isTable : bool) (rawText : string) : string :=
  if negb isTable then EmptyString
  else Js.join EmptyString (markup (splitBlanks rawText) 0).

(** The context the table path shares with its markers. *)
Record Context : Type := mkContext {
  ctx_blanksData : list BlankData;
  ctx_inputs : Arr.t string;
  ctx_touched : Arr.t bool;
  ctx_blurred : Arr.t bool
}.

(** [blanksData[index]], [index] being the result of [parseInt]: [NaN] and
    negative numbers index nothing. *)
Definition lookupData (blanksData : list BlankData) (index : option Z) : option BlankData :=
  match index with
  | Some z => if (z <? 0)%Z then None else nth_error blanksData (Z.to_nat z)
  | None => None
  end.

(** [InlineMarkdownBlank]: the arguments [renderBlank] is called with, or
    [None] when the component renders nothing. *)
Definition InlineMarkdownBlank (ctx : Context) (indexStr : string)
  : option (nat * BlankData * Status.t) :=
  let index := Js.parseInt indexStr in
  match lookupData (ctx_blanksData ctx) index with
  | None => None
  | Some data =>
      let i := match index with Some z => Z.to_nat z | None => 0 end in
      let value := valueAt (ctx_inputs ctx) i in
      let isCorrect := matchesAnswer value (answer data) in
      let showValidation :=
        flag (ctx_touched ctx) i && flag (ctx_blurred ctx) i
        && negb (String.eqb (Js.trim value) "") in
      Some (i, data,
            Status.mk value isCorrect (showValidation && negb isCorrect)
                      (flag (ctx_touched ctx) i) showValidation)
  end.

(** *** The completion effect *)

(** What the component keeps between renders: the state [isCompleted], the
    ref [exerciseIdRef], the dependencies the completion effect last ran
    with; [calls] logs the invocations of [markExerciseComplete], newest
    first. *)
Record Bridge : Type := mkBridge {
  isCompleted : bool;
  exerciseIdRef : string;
  lastDeps : option (bool * bool);
  calls : list (string * string)
}.

(** One render as the two effects see it: the value of [allCorrect]; whether
    the identifier effect runs (a dependency of it changed) and what
    [isExerciseComplete] answers then; whether [markExerciseComplete] or the
    path changed. *)
Record Render : Type := mkRender {
  allCorrectNow : bool;
  idEffect : option bool;
  callbackChanged : bool
}.

Definition unmounted : Bridge := mkBridge false EmptyString None [].

Definition depsChanged (last : option (bool * bool)) (now : bool * bool) : bool :=
  match last with
  | None => true
  | Some (a, c) => negb (Bool.eqb a (fst now) && Bool.eqb c (snd now))
  end.

(** A render and the effects of its commit, in their order; both effects
    read the [isCompleted] of the render, and the state updates they queue
    are applied after them. [pathname] and [exerciseId] are the location and
    the identifier generated for it and the text of the children. *)
Definition commit (pathname exerciseId : string) (b : Bridge) (r : Render) : Bridge :=
  let seen := isCompleted b in
  let ref1 := match idEffect r with
              | Some _ => exerciseId
              | None => exerciseIdRef b
              end in
  let runs := callbackChanged r || depsChanged (lastDeps b) (allCorrectNow r, seen) in
  let fires := runs && allCorrectNow r && negb (String.eqb ref1 "") && negb seen in
  mkBridge
    (if fires then true
     else match idEffect r with
          | Some complete => complete
          | None => seen
          end)
    ref1
    (if runs then Some (allCorrectNow r, seen) else lastDeps b)
    (if fires then (ref1, pathname) :: calls b else calls b).

(** The first render: every effect runs. *)
Definition mountBridge (pathname exerciseId : string) (complete allCorrect : bool) : Bridge :=
  commit pathname exerciseId unmounted (mkRender allCorrect (Some complete) true).

Definition renders (pathname exerciseId : string) (b : Bridge) (rs : list Render) : Bridge :=
  fold_left (commit pathname exerciseId) rs b.

End InlineBlanks.

(* ================================================================= *)
(** ** The component [Hint] *)

Module HintComponent.
Import UseBlanks.

(** The props; [None] is a prop left out. *)
Record Props : Type := mkProps {
  title : option string;
  children : Node;
  defaultOpen : option bool
}.

(** The defaults of the destructuring: [title = "Hint"],
    [defaultOpen = false]. *)
Definition titleOf (p : Props) : string :=
  match title p with Some t => t | None => "Hint" end.

Definition initial (p : Props) : bool :=
  match defaultOpen p with Some b => b | None => false end.

(** What a render shows: the text of the button, whether it has the style
    and the chevron of the open state, and the children when they are
    rendered. *)
Record View : Type := mkView {
  button : string;
  opened : bool;
  body : option Node
}.

(** The render with the state [isOpen]. *)
Definition Hint (p : Props) (isOpen : bool) : View :=
  mkView ((if isOpen then "Hide" else "Show") ++ ": " ++ titleOf p)%string
         isOpen
         (if isOpen then Some (children p) else None).

(** [onClick], followed by its render: [setIsOpen(!isOpen)]. *)
Definition click (isOpen : bool) : bool := negb isOpen.

Fixpoint clicks (n : nat) (isOpen : bool) : bool :=
  match n with
  | 0 => isOpen
  | S n' => clicks n' (click isOpen)
  end.

End HintComponent.

(* ================================================================= *)
(** ** [isMarkdownContent] *)

Module Markdown.
Import UseBlanks InlineBlanks.

Definition isStar (c : ascii) : bool := Ascii.eqb c "*".

(** Whether the character beside an index, if there is one, is an
    asterisk. *)
Definition starAt (c : option ascii) : bool :=
  match c with Some x => isStar x | None => false end.

(** The [test] of the pattern of [hasItalic], an asterisk between a negative
    lookbehind and a negative lookahead for an asterisk: the start indices
    from left to right, [prev] being the character before the index
    tried. *)
Fixpoint loneStarFrom (prev : option ascii) (s : list ascii) : bool :=
  match s with
  | [] => false
  | c :: s' =>
      (negb (starAt prev) && isStar c && negb (starAt (hd_error s')))
      || loneStarFrom (Some c) s'
  end.

(** The class [[-*]] *)
Definition bullet (c : ascii) : bool := Ascii.eqb c "-" || Ascii.eqb c "*".

(** The class [\d] *)
Definition digit (c : ascii) : bool :=
  let n := nat_of_ascii c in (48 <=? n) && (n <=? 57).

(** [\s*[-*]\s+] and [\s*\d+\.\s+]: what follows the [^] of the two list
    patterns. *)
Definition bulletRe : Re.regex :=
  Re.Seq (Re.Star true ws) (Re.Seq (Re.Class bullet) (Re.Plus ws)).

Definition numberedRe : Re.regex :=
  Re.Seq (Re.Star true ws)
    (Re.Seq (Re.Plus (Re.Class digit)) (Re.Seq (Re.Chr ".") (Re.Plus ws))).

(** [/^body/m.test]: with the flag [m] the [^] holds at index 0 and after a
    line terminator; [lineStart] tells whether it holds at the index
    tried. *)
Fixpoint testLineStarts (body : Re.regex) (lineStart : bool) (pos : nat)
         (s : list ascii) : bool :=
  (lineStart && match Re.execAt body pos s with Some _ => true | None => false end)
  || match s with
     | [] => false
     | c :: s' => testLineStarts body (Js.isLineTerminator c) (S pos) s'
     end.

Definition testMultiline (body : Re.regex) (text : string) : bool :=
  testLineStarts body true 0 (list_ascii_of_string text).

Definition hasBold (text : string) : bool := Js.includes text "**".

Definition hasItalic (text : string) : bool :=
  loneStarFrom None (list_ascii_of_string text).

Definition hasMultipleLines (text : string) : bool := Js.includes text nl.

Definition hasList (text : string) : bool :=
  testMultiline bulletRe text || testMultiline numberedRe text.

Definition isMarkdownContent (text : string) : bool :=
  let ls := Js.split Js.LF text in
  let isTable := hasPipes ls && hasSeparator ls in
  isTable || hasBold text || hasItalic text || hasMultipleLines text || hasList text.

End Markdown.

(* ================================================================= *)
(** ** Notions the statements use *)

Module Notions.
Import Re UseBlanks InlineBlanks.

(** *** The matcher *)

Definition stepSound (R : Type) (r : regex)
           (step : nat -> list ascii -> (nat -> list ascii -> option R) -> option R) : Prop :=
  forall pos s k x, step pos s k = Some x ->
    exists pos' s', ms r pos s pos' s' /\ k pos' s' = Some x.

Definition stepComplete (R : Type) (r : regex)
           (step : nat -> list ascii -> (nat -> list ascii -> option R) -> option R) : Prop :=
  forall pos s pos' s' k, ms r pos s pos' s' -> k pos' s' <> None ->
    step pos s k <> None.

(** *** The parser *)

Definition isHint (item : string) : bool := Js.startsWith item "hint:".

(** *** The picker *)

Definition lexLe (a b : string) : Prop := String.leb a b = true.

(** *** The completion effect *)

(** The progress store remembers: when the identifier effect runs again
    after the callback was invoked, [isExerciseComplete] does not answer
    [false]. *)
Fixpoint remembers (pathname exerciseId : string) (b : Bridge) (rs : list Render)
  : Prop :=
  match rs with
  | [] => True
  | r :: rs' =>
      (calls b <> [] -> idEffect r <> Some false)
      /\ remembers pathname exerciseId (commit pathname exerciseId b r) rs'
  end.

(** Once notified, the flag is set, and there was one notification. *)
Definition notifiedOnce (b : Bridge) : Prop :=
  (calls b <> [] -> isCompleted b = true) /\ List.length (calls b) <= 1.

(** With a resolved identifier and no re-run of the identifier effect: the
    flag is set exactly when the callback was invoked, once, and an unset
    flag has not yet seen [allCorrect]. *)
Definition tracked (pathname exerciseId : string) (b : Bridge) : Prop :=
  exerciseIdRef b = exerciseId
  /\ (if isCompleted b then calls b = [(exerciseId, pathname)]
      else calls b = [] /\ lastDeps b <> Some (true, false)).

(** *** The tree walker *)

(** What the walker writes for a node once no specification is left: every
    part of every string as text, bracket tokens included. *)
Fixpoint literal (node : Node) : list Out :=
  match node with
  | NStr s => map OText (splitBlanks s)
  | NNum n => [ONumber n]
  | NArr items => flat_map literal items
  | NElem type children =>
      if truthy children then [OClone type (literal children)] else [OSame node]
  | NNull | NBool _ => []
  end.

(** *** The table path *)

(** The indices of the placeholders [markup] writes, in the order of the
    text. *)
Fixpoint markers (parts : list string) (blankIndex : nat) : list nat :=
  match parts with
  | [] => []
  | part :: rest =>
      if isBlankToken part then blankIndex :: markers rest (S blankIndex)
      else markers rest blankIndex
  end.

(** The parts with each bracket token replaced, in order, by the next of
    [marks]. *)
Fixpoint weave (parts marks : list string) : list string :=
  match parts with
  | [] => []
  | part :: rest =>
      if isBlankToken part then
        match marks with
        | m :: marks' => m :: weave rest marks'
        | [] => weave rest []
        end
      else part :: weave rest marks
  end.

(** A table as it stands in nested content, every line indented. *)
Definition tableText : string :=
  ("  | city | country |" ++ nl ++ "  |---|---|" ++ nl
   ++ "  | [Paris] | [France|Spain] |")%string.

(** *** Table detection *)

Definition white (c : ascii) : Prop := Js.isWhiteSpace c = true.

(** A separator row, in words: white space, a pipe, one or more characters
    that are [-], [:], white space or a pipe, a pipe, white space. *)
Definition sepRow (l : list ascii) : Prop :=
  exists a m b,
    l = a ++ "|"%char :: m ++ "|"%char :: b
    /\ Forall white a /\ m <> [] /\ Forall (fun c => sepCell c = true) m
    /\ Forall white b.

(** White space that stays inside a line. *)
Definition isIndent (c : ascii) : bool :=
  Js.isWhiteSpace c && negb (Ascii.eqb c Js.LF).

(** The text with [w] written before every line. *)
Definition indentText (w text : string) : string :=
  Js.join nl (map (String.append w) (lines text)).

Fixpoint occurs (c : ascii) (s : string) : bool :=
  match s with
  | EmptyString => false
  | String x s' => Ascii.eqb x c || occurs c s'
  end.

(** *** Splitting a text and its dedented form *)

(** After an opening bracket: the input after the first closing bracket,
    when no line terminator comes before it. *)
Fixpoint scanClose (s : list ascii) : option (list ascii) :=
  match s with
  | [] => None
  | c :: s' =>
      if Ascii.eqb c "]" then Some s'
      else if dot c then scanClose s' else None
  end.

(** What the pattern of a blank matches at the head of [s]. *)
Definition scanOpen (s : list ascii) : option (list ascii) :=
  match s with
  | c :: s' => if Ascii.eqb c "[" then scanClose s' else None
  | [] => None
  end.

(** The split of a text on the pattern of a blank, as a relation: [cur]
    holds, reversed, the piece being read. *)
Inductive Split : list ascii -> list ascii -> list (list ascii) -> Prop :=
| SplitEnd cur : Split [] cur [rev cur]
| SplitSkip c s cur out :
    scanOpen (c :: s) = None -> Split s (c :: cur) out -> Split (c :: s) cur out
| SplitMatch c s cur rest out :
    scanOpen (c :: s) = Some rest -> Split rest [] out ->
    Split (c :: s) cur
          (rev cur :: firstn (List.length (c :: s) - List.length rest) (c :: s) :: out).

Definition firstIs (c : ascii) (p : list ascii) : bool :=
  match p with
  | x :: _ => Ascii.eqb x c
  | [] => false
  end.

(** A part that starts with [[] and ends with []]. *)
Definition tokL (p : list ascii) : bool := firstIs "[" p && firstIs "]" (rev p).

Definition countTokens (out : list (list ascii)) : nat := List.length (filter tokL out).

(** [Ded b s s']: [s'] is [s] without some indentation at the start of some
    of its lines; [b] tells whether [s] starts at the start of a line. *)
Inductive Ded : bool -> list ascii -> list ascii -> Prop :=
| DNil b : Ded b [] []
| DSkip c s s' : isIndent c = true -> Ded true s s' -> Ded true (c :: s) s'
| DKeep b c s s' : c <> Js.LF -> Ded false s s' -> Ded b (c :: s) (c :: s')
| DLine b s s' : Ded true s s' -> Ded b (Js.LF :: s) (Js.LF :: s').

(** What the pieces being read from a text and from its dedented form have
    in common. *)
Definition aligned (b : bool) (cur cur' s s' : list ascii) : Prop :=
  firstIs "[" (rev cur) = firstIs "[" (rev cur')
  /\ firstIs "]" cur = firstIs "]" cur'
  /\ (b = true -> firstIs "]" cur' = false)
  /\ (cur = [] -> cur' = [])
  /\ (cur' = [] -> cur <> [] ->
      firstIs "[" s' = false /\ firstIs "[" (rev cur) = false)
  /\ (cur' = [] -> cur = [] -> b = true ->
      firstIs "[" s' = false \/ firstIs "[" s = true).

(** Evaluates the value of a literal digit. *)
Ltac digit_value :=
  match goal with
  | |- context [nat_of_ascii ?c - 48] =>
      let v := eval vm_compute in (nat_of_ascii c - 48) in
      change (nat_of_ascii c - 48) with v
  end.

End Notions.

(* ================================================================= *)
(** ** [renderBlank] and the content of [InlineBlanks] across renders *)

Module Component.
Import UseBlanks InlineBlanks Notions.

(** The props [mode] and [options] and the setting [showHints], fixed within
    an instance. [s_options] is [None] when the prop is left out: the
    default [options = []] then makes a new array in every render. A prop
    that is passed is the same array in every render of the instance. *)
Record Settings : Type := mkSettings {
  s_mode : Mode;
  s_options : option (list string);
  s_showHints : bool
}.

Definition optionsOf (cfg : Settings) : list string :=
  match s_options cfg with Some l => l | None => [] end.

(** Whether [options] is the same object in two renders. *)
Definition stableOptions (cfg : Settings) : bool :=
  match s_options cfg with Some _ => true | None => false end.

(** The three styles of the field: green, red, grey. *)
Inductive Validity : Type := Right | Wrong | Neutral.

(** What [renderBlank] returns: the [<select>] with its choices or the
    [<input>] with its width in pixels, the value shown, the style, the hint
    button (with whether the hint is on) and the hint text, when they are
    rendered. *)
Record Control : Type := mkControl {
  ctl_index : nat;
  ctl_choices : option (list string);
  ctl_value : string;
  ctl_validity : Validity;
  ctl_width : option nat;
  ctl_hintButton : option bool;
  ctl_hintText : option string
}.

(** The variables a [renderBlank] function closes over and that change
    between renders; [b_inputs] is a dependency only. *)
Record BlankClosure : Type := mkBlankClosure {
  b_inputs : Arr.t string;
  b_showHintFor : Arr.t bool;
  b_touched : Arr.t bool;
  b_blurred : Arr.t bool
}.

(** [data.hint] as a condition: [undefined] and the empty string are
    falsy. *)
Definition hintOf (data : BlankData) : option string :=
  match hint data with
  | Some h => if String.eqb h "" then None else Some h
  | None => None
  end.

(** [renderBlank(index, data, status)], run with the variables of [env]. *)
Definition renderBlank (cfg : Settings) (env : BlankClosure)
           (index : nat) (data : BlankData) (status : Status.t) : Control :=
  let value := Status.value status in
  let isCorrectRaw := matchesAnswer value (answer data) in
  let shouldShowValidation :=
    flag (b_touched env) index && flag (b_blurred env) index
    && negb (String.eqb (Js.trim value) "") in
  let isRight := shouldShowValidation && isCorrectRaw in
  let isWrongVal := shouldShowValidation && negb isCorrectRaw in
  mkControl index
            (choices (s_mode cfg) (optionsOf cfg) data)
            value
            (if isRight then Right else if isWrongVal then Wrong else Neutral)
            (match s_mode cfg with
             | Picker => None
             | TypeMode => Some (Nat.max (String.length (answer data) * 10 + 10) 40)
             end)
            (if s_showHints cfg
             then match hintOf data with
                  | Some _ => Some (flag (b_showHintFor env) index)
                  | None => None
                  end
             else None)
            (match hintOf data with
             | Some h => if flag (b_showHintFor env) index then Some h else None
             | None => None
             end).

(** The calls of [renderBlank] in a processed tree, in the order of the
    tree. *)
Fixpoint blanksOf (o : Out) : list (nat * BlankData * Status.t) :=
  match o with
  | OBlank i d s => [(i, d, s)]
  | OClone _ cs => flat_map blanksOf cs
  | _ => []
  end.

Definition blanksIn (os : list Out) : list (nat * BlankData * Status.t) :=
  flat_map blanksOf os.

(** One instance of the component: the instance of the hook and the
    [renderBlank] function [useCallback] holds. *)
Record Instance : Type := mkInstance {
  hook : UseBlanks.Instance;
  blank : BlankClosure
}.

Definition blankClosureOf (st : State) : BlankClosure :=
  mkBlankClosure (inputs st) (showHintFor st) (touched st) (blurred st).

(** The dependency list [[mode, inputs, handleInputChange, handleBlur,
    options, showHints, showHintFor, toggleHint]] compared with [Object.is]:
    the three functions come from [useCallback] with no dependency, [mode]
    and [showHints] are fixed, so [options], [inputs] and [showHintFor]
    decide. *)
Definition sameBlankDeps (cfg : Settings) (old : BlankClosure) (st : State) : bool :=
  stableOptions cfg
  && (Arr.ref (b_inputs old) =? Arr.ref (inputs st))
  && (Arr.ref (b_showHintFor old) =? Arr.ref (showHintFor st)).

Definition mount (children : Node) : Instance :=
  let h := UseBlanks.mount children in
  mkInstance h (blankClosureOf (state h)).

(** The state an event leaves and the functions held in the render that
    follows it, a render that may throw in the body of the hook. *)
Definition step (cfg : Settings) (children : Node) (inst : Instance) (e : Event)
  : Instance :=
  let h := UseBlanks.step children (hook inst) e in
  mkInstance h (if sameBlankDeps cfg (blank inst) (state h) then blank inst
                else blankClosureOf (state h)).

Definition run (cfg : Settings) (children : Node) (es : list Event) : Instance :=
  fold_left (step cfg children) es (mount children).

(** A render of the component: [useBlanks] is called first, and what it
    throws ends the component. *)
Definition render (children : Node) (inst : Instance) : Result Instance :=
  if throws children (hook inst) then TypeError else Ok inst.

(** An event and the render that follows it; after a render that threw
    there is no component left, and no event. *)
Definition next (cfg : Settings) (children : Node) (r : Result Instance) (e : Event)
  : Result Instance :=
  match r with
  | Ok inst => render children (step cfg children inst e)
  | TypeError => TypeError
  end.

(** The mount and a list of events, each followed by its render. *)
Definition life (cfg : Settings) (children : Node) (es : list Event) : Result Instance :=
  fold_left (next cfg children) es (render children (mount children)).

Definition call (cfg : Settings) (inst : Instance)
           (b : nat * BlankData * Status.t) : Control :=
  renderBlank cfg (blank inst) (fst (fst b)) (snd (fst b)) (snd b).

(** [renderContent(renderBlank)]: the fields of the content, in order, when
    the body of the hook did not throw. *)
Definition treeControls (cfg : Settings) (children : Node) (inst : Instance)
  : Result (list Control) :=
  match rendered children (hook inst) with
  | Ok os => Ok (map (call cfg inst) (blanksIn os))
  | TypeError => TypeError
  end.

(** The context value of the render. *)
Definition contextOf (children : Node) (inst : Instance) : Context :=
  let st := state (hook inst) in
  mkContext (blanksDataOf children) (inputs st) (touched st) (blurred st).

(** What the [span] of [inlineMarkdownComponents] renders for the attribute
    [data-blank]: the field of [InlineMarkdownBlank], or nothing. *)
Definition markerControl (cfg : Settings) (children : Node) (inst : Instance)
           (indexStr : string) : option Control :=
  option_map (call cfg inst) (InlineMarkdownBlank (contextOf children inst) indexStr).

(** [content]: for a table, the markup handed to the markdown renderer and
    the function its [span]s are rendered with; otherwise the fields of the
    processed tree. *)
Inductive Content : Type :=
| Table (markdown : string) (marker : string -> option Control)
| Tree (fields : list Control).

(** The content of a render, or the error of the body of the hook, which is
    called before any content is built. *)
Definition content (cfg : Settings) (children : Node) (inst : Instance)
  : Result Content :=
  if throws children (hook inst) then TypeError
  else if isTable children
       then Ok (Table (processedMarkdown true (rawText children))
                      (markerControl cfg children inst))
       else match treeControls cfg children inst with
            | Ok cs => Ok (Tree cs)
            | TypeError => TypeError
            end.

(** A field the content shows: one of the fields of the tree, or what a
    [span] with some attribute [data-blank] renders. A render that threw
    shows nothing. *)
Definition shows (c : Result Content) (ctl : Control) : Prop :=
  match c with
  | Ok (Table _ marker) => exists indexStr, marker indexStr = Some ctl
  | Ok (Tree cs) => In ctl cs
  | TypeError => False
  end.

(** The first render and its commit: the value of [allCorrect] the
    completion effect sees. *)
Definition firstCommit (pathname exerciseId : string) (complete : bool)
           (children : Node) : Result Bridge :=
  match allCorrect (answersOf (blanksDataOf children))
                   (state (UseBlanks.mount children)) with
  | Ok b => Ok (mountBridge pathname exerciseId complete b)
  | TypeError => TypeError
  end.

End Component.

(* ================================================================= *)
(** ** Notions of the further statements *)

Module Reach.
Import UseBlanks InlineBlanks Notions Component.

(** The instance of the hook after a mount and a list of events, each
    followed by its render. *)
Definition runHook (children : Node) (es : list Event) : UseBlanks.Instance :=
  fold_left (UseBlanks.step children) es (UseBlanks.mount children).

(** Every array of the state was allocated before the next stamp. *)
Definition boundedRefs (st : State) : Prop :=
  Arr.ref (inputs st) < nextRef st
  /\ Arr.ref (touched st) < nextRef st
  /\ Arr.ref (blurred st) < nextRef st
  /\ Arr.ref (showHintFor st) < nextRef st.

(** The function [renderContent] held closes over the present values of its
    dependencies. *)
Definition current (children : Node) (inst : UseBlanks.Instance) : Prop :=
  c_blanksData (memo inst) = blanksDataOf children
  /\ c_inputs (memo inst) = inputs (state inst)
  /\ c_submitted (memo inst) = submitted (state inst)
  /\ c_touched (memo inst) = touched (state inst).

(** The same for the [renderBlank] held. *)
Definition currentBlank (inst : Component.Instance) : Prop :=
  b_inputs (blank inst) = inputs (state (hook inst))
  /\ b_showHintFor (blank inst) = showHintFor (state (hook inst)).

(** An array of [n] entries, none of them a hole or [undefined]. *)
Definition dense (A : Type) (n : nat) (a : Arr.t A) : Prop :=
  List.length (Arr.elems a) = n
  /\ Forall (fun x => exists v, x = Arr.Val v) (Arr.elems a).

Definition wellFormed (n : nat) (st : State) : Prop :=
  dense n (inputs st) /\ dense n (touched st) /\ dense n (blurred st)
  /\ dense n (showHintFor st).

(** The index of the event is the index of a blank. *)
Definition inRange (n : nat) (e : Event) : bool :=
  match e with
  | Change i _ | Blur i | ToggleHint i => i <? n
  | CheckAnswers | Reset | RevealAll => true
  end.

(** *** The walker *)

Definition tokenCount (parts : list string) : nat :=
  List.length (filter isBlankToken parts).

(** The bracket tokens the walker meets in a node. *)
Fixpoint tokensIn (node : Node) : nat :=
  match node with
  | NStr s => tokenCount (splitBlanks s)
  | NArr items => list_sum (map tokensIn items)
  | NElem _ children => if truthy children then tokensIn children else 0
  | NNum _ | NNull | NBool _ => 0
  end.

(** The bracket tokens left as text in a processed tree. *)
Fixpoint literalTokens (o : Out) : nat :=
  match o with
  | OText s => if isBlankToken s then 1 else 0
  | OClone _ cs => list_sum (map literalTokens cs)
  | _ => 0
  end.

Definition literalIn (os : list Out) : nat := list_sum (map literalTokens os).

Definition indexOf (b : nat * BlankData * Status.t) : nat := fst (fst b).
Definition dataOf (b : nat * BlankData * Status.t) : BlankData := snd (fst b).
Definition statusOf (b : nat * BlankData * Status.t) : Status.t := snd b.

(** A call of [renderBlank] made with the data of its index and the status
    derived for it. *)
Definition derived (env : Closure) (b : nat * BlankData * Status.t) : Prop :=
  nth_error (c_blanksData env) (indexOf b) = Some (dataOf b)
  /\ statusOf b = deriveStatus env (dataOf b) (indexOf b).

(** What a walk started with the counter [c] over [tokens] bracket tokens
    returns: the first tokens become the blanks [c], [c+1], ... as long as
    there are data, the others stay text. *)
Definition taken (env : Closure) (tokens c : nat) : nat :=
  Nat.min (List.length (c_blanksData env) - c) tokens.

Definition accounted (env : Closure) (tokens c : nat)
           (r : Result (list Out * nat)) : Prop :=
  exists os,
    r = Ok (os, c + taken env tokens c)
    /\ map indexOf (blanksIn os) = seq c (taken env tokens c)
    /\ Forall (derived env) (blanksIn os)
    /\ literalIn os = tokens - taken env tokens c.

(** A field of the content: [renderBlank] called by the present function
    with an index, the data of that index and a status whose value is the
    present input of that index. *)
Definition fieldOf (cfg : Settings) (children : Node) (inst : Component.Instance)
           (c : Control) : Prop :=
  exists k d s,
    c = renderBlank cfg (blank inst) k d s
    /\ nth_error (blanksDataOf children) k = Some d
    /\ Status.value s = valueAt (inputs (state (hook inst))) k.

(** A number that is the one child of an element and is falsy: React
    renders it, while [props.children] fails as a condition. *)
Definition zeroChild (children : Node) : bool :=
  match children with
  | NNum z => Z.eqb z 0
  | _ => false
  end.

(** Content without block elements (no [p], [div], [li] or [br]) and
    without a zero that is the one child of an element. *)
Fixpoint inline (node : Node) : bool :=
  match node with
  | NArr items => forallb inline items
  | NElem type children =>
      negb (isArrayBlock type) && negb (zeroChild children) && inline children
  | NStr _ | NNum _ | NNull | NBool _ => true
  end.

(** The text a processed tree reads as once rendered, a field reading as
    nothing; an element returned as it is has a falsy child, which shows
    only when it is a number. *)
Fixpoint outText (o : Out) : string :=
  match o with
  | OText s => s
  | ONumber n => Js.intToString n
  | OClone _ cs => String.concat EmptyString (map outText cs)
  | OSame (NElem _ (NNum z)) => Js.intToString z
  | OBlank _ _ _ | OSame _ => EmptyString
  end.

Definition textOf (os : list Out) : string :=
  String.concat EmptyString (map outText os).

(** *** Values *)

Fixpoint allWhite (s : string) : bool :=
  match s with
  | EmptyString => true
  | String c s' => Js.isWhiteSpace c && allWhite s'
  end.

Definition isEmpty (s : string) : bool := String.eqb s "".

(** The style a value earns against an answer once it is validated. *)
Definition verdict (value ans : string) : Validity :=
  if String.eqb (Js.trim value) "" then Neutral
  else if matchesAnswer value ans then Right else Wrong.

End Reach.

(* ================================================================= *)
(** ** Arrays: reads after writes *)

Module ArrFacts.
Import Arr.

Lemma get_spread A (l : list (slot A)) (j : nat) : get (spread l) j = get l j.
Proof.
  unfold get, spread. rewrite nth_error_map.
  destruct (nth_error l j) as [[| |v]|]; reflexivity.
Qed.

Lemma spread_length A (l : list (slot A)) : List.length (spread l) = List.length l.
Proof. apply length_map. Qed.

Lemma nth_error_replace_same A (l : list (slot A)) (i : nat) (x : slot A) :
  i < List.length l -> nth_error (replace i x l) i = Some x.
Proof.
  revert i; induction l as [|y l IH]; intros [|i] H; simpl in *; try lia.
  - reflexivity.
  - apply IH; lia.
Qed.

Lemma nth_error_replace_other A (l : list (slot A)) (i j : nat) (x : slot A) :
  j <> i -> nth_error (replace i x l) j = nth_error l j.
Proof.
  revert i j; induction l as [|y l IH]; intros [|i] [|j] H; simpl; try reflexivity.
  - contradiction.
  - apply IH; lia.
Qed.

(** The entry written is the entry read back, inside the array or past its
    end. *)
Lemma get_set_same A (l : list (slot A)) (i : nat) (v : A) :
  get (set i v l) i = Some v.
Proof.
  unfold get, set. destruct (Nat.ltb_spec i (List.length l)) as [H|H].
  - rewrite nth_error_replace_same by assumption. reflexivity.
  - rewrite nth_error_app2 by lia.
    rewrite nth_error_app2 by (rewrite repeat_length; lia).
    rewrite repeat_length.
    replace (i - List.length l - (i - List.length l)) with 0 by lia. reflexivity.
Qed.

(** Every other index reads what it read before. *)
Lemma get_set_other A (l : list (slot A)) (i j : nat) (v : A) :
  j <> i -> get (set i v l) j = get l j.
Proof.
  intros Hj. unfold get, set. destruct (Nat.ltb_spec i (List.length l)) as [H|H].
  - rewrite nth_error_replace_other by assumption. reflexivity.
  - destruct (Nat.lt_ge_cases j (List.length l)) as [Hlt|Hge].
    + rewrite nth_error_app1 by assumption. reflexivity.
    + rewrite nth_error_app2 by assumption.
      replace (nth_error l j) with (@None (slot A))
        by (symmetry; apply nth_error_None; assumption).
      destruct (Nat.lt_ge_cases j i) as [Hji|Hji].
      * rewrite nth_error_app1 by (rewrite repeat_length; lia).
        rewrite nth_error_repeat by lia. reflexivity.
      * rewrite nth_error_app2 by (rewrite repeat_length; lia).
        rewrite repeat_length.
        destruct (j - List.length l - (i - List.length l)) as [|[|k]] eqn:E;
          simpl; try reflexivity. lia.
Qed.

Lemma get_set_spread_other A (l : list (slot A)) (i j : nat) (v : A) :
  j <> i -> get (set i v (spread l)) j = get l j.
Proof. intros H. rewrite get_set_other by assumption. apply get_spread. Qed.

Lemma get_fill A (n i : nat) (v : A) : i < n -> get (fill n v) i = Some v.
Proof.
  intros H. unfold get, fill. rewrite nth_error_repeat by assumption. reflexivity.
Qed.

End ArrFacts.

(* ================================================================= *)
(** ** State operations *)

Module StateFacts.
Import UseBlanks.

(** C8. [reset] clears [submitted], makes every value the empty string and
    every [touched] flag [false] (two fresh arrays of [answers.length]
    entries), and leaves the array [blurred] as it was. *)
Theorem reset_keeps_blurred (children : Node) (st : State) :
  let n := List.length (answersOf (blanksDataOf children)) in
  let st' := dispatch children Reset st in
  submitted st' = false
  /\ Arr.elems (inputs st') = repeat (Arr.Val EmptyString) n
  /\ Arr.elems (touched st') = repeat (Arr.Val false) n
  /\ Forall (fun x => x = Arr.Val EmptyString) (Arr.elems (inputs st'))
  /\ Forall (fun x => x = Arr.Val false) (Arr.elems (touched st'))
  /\ blurred st' = blurred st
  /\ showHintFor st' = showHintFor st.
Proof.
  simpl. repeat split; try reflexivity.
  - apply Forall_forall. intros x Hx. apply repeat_spec in Hx. assumption.
  - apply Forall_forall. intros x Hx. apply repeat_spec in Hx. assumption.
Qed.

(** C9. The per-blank operations touch one index: [handleInputChange] writes
    [inputs[i]], [touched[i]] and [blurred[i]], [handleBlur] writes
    [blurred[i]], [toggleHint] flips [showHintFor[i]]; every other index of
    every array reads as before, and [submitted] is unchanged. *)
Theorem per_blank_operations_are_local (st : State) (i j : nat) (v : string) :
  j <> i ->
  (let st' := handleInputChange i v st in
   Arr.get (Arr.elems (inputs st')) i = Some v
   /\ Arr.get (Arr.elems (touched st')) i = Some true
   /\ Arr.get (Arr.elems (blurred st')) i = Some false
   /\ Arr.get (Arr.elems (inputs st')) j = Arr.get (Arr.elems (inputs st)) j
   /\ Arr.get (Arr.elems (touched st')) j = Arr.get (Arr.elems (touched st)) j
   /\ Arr.get (Arr.elems (blurred st')) j = Arr.get (Arr.elems (blurred st)) j
   /\ showHintFor st' = showHintFor st
   /\ submitted st' = submitted st)
  /\ (let st' := handleBlur i st in
      Arr.get (Arr.elems (blurred st')) i = Some true
      /\ Arr.get (Arr.elems (blurred st')) j = Arr.get (Arr.elems (blurred st)) j
      /\ inputs st' = inputs st
      /\ touched st' = touched st
      /\ showHintFor st' = showHintFor st
      /\ submitted st' = submitted st)
  /\ (let st' := toggleHint i st in
      Arr.get (Arr.elems (showHintFor st')) i
        = Some (negb (flag (showHintFor st) i))
      /\ Arr.get (Arr.elems (showHintFor st')) j = Arr.get (Arr.elems (showHintFor st)) j
      /\ inputs st' = inputs st
      /\ touched st' = touched st
      /\ blurred st' = blurred st
      /\ submitted st' = submitted st).
Proof.
  intros Hj. simpl.
  repeat split;
    try reflexivity;
    try apply ArrFacts.get_set_same;
    try (apply ArrFacts.get_set_spread_other; assumption).
  rewrite ArrFacts.get_set_same. unfold notAt, flag.
  rewrite ArrFacts.get_spread.
  destruct (Arr.get (Arr.elems (showHintFor st)) i) as [b|]; reflexivity.
Qed.

Lemma per_blank_operations_are_local_witness :
  let st := initialState 3 in
  Arr.get (Arr.elems (inputs (handleInputChange 1 "x" st))) 2 = Some EmptyString
  /\ Arr.get (Arr.elems (blurred (handleBlur 1 st))) 2 = Some false
  /\ Arr.get (Arr.elems (showHintFor (toggleHint 1 st))) 2 = Some false.
Proof.
  assert (H : 2 <> 1) by lia.
  destruct (per_blank_operations_are_local (initialState 3) "x" H) as [A [B C]].
  destruct A as (_ & _ & _ & A & _).
  destruct B as (_ & B & _).
  destruct C as (_ & C & _).
  split; [|split].
  - rewrite A. reflexivity.
  - rewrite B. reflexivity.
  - rewrite C. reflexivity.
Defined.

End StateFacts.

(* ================================================================= *)
(** ** Revealing the answers *)

Module RevealFacts.
Import UseBlanks.

Lemma matchesAnswer_self (a : string) : Js.trim a = a -> matchesAnswer a a = true.
Proof. intros H. unfold matchesAnswer. rewrite H. apply String.eqb_refl. Qed.

Lemma everyCorrect_revealed (suf pre : list string) :
  Forall (fun a => Js.trim a = a) suf ->
  everyCorrect (pre ++ suf) (List.length pre) (map (@Arr.Val string) suf) = Ok true.
Proof.
  revert pre. induction suf as [|a suf IH]; intros pre H; simpl.
  - reflexivity.
  - inversion H as [|? ? Ha Hsuf]; subst.
    rewrite nth_error_app2 by lia. rewrite Nat.sub_diag. simpl.
    rewrite (matchesAnswer_self Ha).
    specialize (IH (pre ++ [a]) Hsuf).
    rewrite <- app_assoc in IH. simpl in IH.
    rewrite length_app in IH. simpl in IH.
    rewrite Nat.add_1_r in IH. exact IH.
Qed.

(** C7. After [showAllAnswers], [submitted] is set, every value is the answer
    of its blank and [allCorrect] is true, for every list of answers none of
    which starts or ends with white space (an answer [trim] would change can
    never equal a trimmed value). *)
Theorem reveal_all_makes_all_correct (answers : list string) (st : State) :
  Forall (fun a => Js.trim a = a) answers ->
  let st' := showAllAnswers answers st in
  allCorrect answers st' = Ok true
  /\ submitted st' = true
  /\ Arr.elems (inputs st') = map (@Arr.Val string) answers.
Proof.
  intros H. simpl. split; [|split; reflexivity].
  unfold allCorrect. simpl. exact (everyCorrect_revealed [] H).
Qed.

Lemma reveal_all_makes_all_correct_witness :
  let kids := NStr "[Paris] is the capital of [France|Spain|hint:a country]" in
  let answers := answersOf (blanksDataOf kids) in
  answers = ["Paris"; "France"]
  /\ allCorrect answers (dispatch kids RevealAll (state (mount kids))) = Ok true.
Proof.
  split; [vm_compute; reflexivity|].
  apply (@reveal_all_makes_all_correct
           (answersOf (blanksDataOf (NStr "[Paris] is the capital of [France|Spain|hint:a country]")))
           (state (mount (NStr "[Paris] is the capital of [France|Spain|hint:a country]")))).
  vm_compute. repeat constructor.
Defined.

(** *** The condition is the weakest one *)

Lemma toLowerCase_length s : String.length (Js.toLowerCase s) = String.length s.
Proof. induction s as [|c s IH]; simpl; [reflexivity|]. rewrite IH. reflexivity. Qed.

Lemma trimStart_length s : String.length (Js.trimStart s) <= String.length s.
Proof.
  induction s as [|c s IH]; simpl; [lia|].
  destruct (Js.isWhiteSpace c); simpl; lia.
Qed.

Lemma trimStart_same_length s :
  String.length (Js.trimStart s) = String.length s -> Js.trimStart s = s.
Proof.
  destruct s as [|c s]; simpl; [reflexivity|].
  destruct (Js.isWhiteSpace c); [|reflexivity].
  pose proof (trimStart_length s) as L. intros H. lia.
Qed.

Lemma trimEnd_length s : String.length (Js.trimEnd s) <= String.length s.
Proof.
  induction s as [|c s IH]; simpl; [lia|].
  destruct (Js.trimEnd s); [destruct (Js.isWhiteSpace c)|]; simpl in *; lia.
Qed.

Lemma trimEnd_same_length s :
  String.length (Js.trimEnd s) = String.length s -> Js.trimEnd s = s.
Proof.
  induction s as [|c s IH]; simpl; [reflexivity|].
  pose proof (trimEnd_length s) as L.
  destruct (Js.trimEnd s) as [|x t] eqn:E.
  - destruct (Js.isWhiteSpace c); simpl in *; intros H.
    + lia.
    + destruct s; [reflexivity|simpl in H; lia].
  - simpl in *. intros H. rewrite IH by lia. reflexivity.
Qed.

Lemma matchesAnswer_self_inv (a : string) : matchesAnswer a a = true -> Js.trim a = a.
Proof.
  unfold matchesAnswer. intros H. apply String.eqb_eq in H.
  apply (f_equal String.length) in H. rewrite !toLowerCase_length in H.
  unfold Js.trim in *.
  pose proof (trimStart_length a). pose proof (trimEnd_length (Js.trimStart a)).
  assert (E : Js.trimStart a = a) by (apply trimStart_same_length; lia).
  rewrite E in *. apply trimEnd_same_length. assumption.
Qed.

Lemma everyCorrect_revealed_inv (suf pre : list string) :
  everyCorrect (pre ++ suf) (List.length pre) (map (@Arr.Val string) suf) = Ok true ->
  Forall (fun a => Js.trim a = a) suf.
Proof.
  revert pre. induction suf as [|a suf IH]; intros pre H; [constructor|].
  simpl in H. rewrite nth_error_app2 in H by lia. rewrite Nat.sub_diag in H. simpl in H.
  destruct (matchesAnswer a a) eqn:E; [|discriminate].
  constructor; [apply matchesAnswer_self_inv; assumption|].
  apply (IH (pre ++ [a])).
  rewrite <- app_assoc, length_app. simpl. rewrite Nat.add_1_r. exact H.
Qed.

(** X2. After [showAllAnswers], [allCorrect] is true exactly when no answer
    starts or ends with white space. *)
Lemma reveal_all_correct_iff (answers : list string) (st : State) :
  allCorrect answers (showAllAnswers answers st) = Ok true
  <-> Forall (fun a => Js.trim a = a) answers.
Proof.
  split.
  - intros H. exact (everyCorrect_revealed_inv answers [] H).
  - intros H. exact (everyCorrect_revealed [] H).
Qed.

(** An answer written with white space around it is never matched, not even
    by itself. *)
Example padded_answer_is_never_correct :
  let kids := NStr "[ Paris ]" in
  let answers := answersOf (blanksDataOf kids) in
  allCorrect answers (dispatch kids RevealAll (state (mount kids))) = Ok false.
Proof. vm_compute. reflexivity. Qed.

(** The no-break space U+00A0 is white space to [trim], and the capital
    letters U+00C0 to U+00DE have their small letters: a value typed with
    no-break spaces around it and in small letters matches the answer
    written in capitals with an accent, and an answer that starts with a
    no-break space is not correct after the reveal. *)
Example no_break_space_and_accented_letters :
  let nbsp := String (Js.chr 160) EmptyString in
  let capitals := ("CAF" ++ String (Js.chr 201) EmptyString)%string in
  let small := ("caf" ++ String (Js.chr 233) EmptyString)%string in
  Js.trim (nbsp ++ "Paris" ++ nbsp) = "Paris"%string
  /\ Js.toLowerCase capitals = small
  /\ Js.toLowerCase (String (Js.chr 215) EmptyString) = String (Js.chr 215) EmptyString
  /\ matchesAnswer (nbsp ++ small ++ nbsp) capitals = true
  /\ (let kids := NStr ("[" ++ nbsp ++ "Paris]") in
      allCorrect (answersOf (blanksDataOf kids))
                 (dispatch kids RevealAll (state (mount kids))) = Ok false).
Proof. vm_compute. repeat split; reflexivity. Qed.

End RevealFacts.

(* ================================================================= *)
(** ** The bracket parser *)

Module ParserFacts.
Import UseBlanks Notions.

Lemma last_cons_default A (l : list A) :
  forall x d : A, last (x :: l) d = last l x.
Proof.
  induction l as [|y l IH]; intros x d; [reflexivity|].
  change (last (x :: y :: l) d) with (last (y :: l) d).
  rewrite (IH y d), (IH y x). reflexivity.
Qed.

(** The loop over the segments, as a fold: the hint is the last segment with
    the prefix, the options are the others in order. *)
Lemma fold_classify (l : list string) (h : option string) (o : list string) :
  fold_left classify l (h, o)
  = (last (map (fun x => Some (Js.sliceFrom x 5)) (filter isHint l)) h,
     o ++ filter (fun x => negb (isHint x)) l).
Proof.
  revert h o. induction l as [|a l IH]; intros h o.
  - simpl. rewrite app_nil_r. reflexivity.
  - cbn [fold_left filter].
    change (classify (h, o) a)
      with (if isHint a then (Some (Js.sliceFrom a 5), o) else (h, o ++ [a])).
    destruct (isHint a) eqn:E; cbn [negb map]; rewrite IH.
    + rewrite last_cons_default. reflexivity.
    + rewrite <- app_assoc. reflexivity.
Qed.

Lemma length_append (a b : string) :
  String.length (a ++ b) = String.length a + String.length b.
Proof. induction a as [|c a IH]; simpl; [reflexivity|]. rewrite IH. reflexivity. Qed.

Lemma substring_prefix (a b : string) :
  String.substring 0 (String.length a) (a ++ b) = a.
Proof.
  induction a as [|c a IH]; simpl.
  - destruct b; reflexivity.
  - rewrite IH. reflexivity.
Qed.

(** [slice(1, -1)] of a bracketed text is what the brackets enclose. *)
Lemma slice_brackets (interior : string) :
  Js.slice ("[" ++ interior ++ "]") 1 (-1) = interior.
Proof.
  unfold Js.slice, Js.relIndex.
  change ("[" ++ interior ++ "]")%string with (String "[" (interior ++ "]")).
  cbn [String.length]. rewrite length_append. cbn [String.length].
  replace (1 <? 0)%Z with false by reflexivity.
  replace (-1 <? 0)%Z with true by reflexivity.
  replace (Nat.min (Z.to_nat 1) (S (String.length interior + 1))) with 1 by lia.
  replace (Z.to_nat (Z.max (Z.of_nat (S (String.length interior + 1)) + -1) 0))
    with (S (String.length interior)) by lia.
  replace (S (String.length interior) - 1) with (String.length interior) by lia.
  cbn [String.substring]. apply substring_prefix.
Qed.

(** C4. A bracket token is parsed from the text between its brackets, split
    on [|]: segment 0 is the answer, the last later segment starting with
    [hint:] gives the hint (prefix removed), and the other later segments
    are the local options in order; [blanksData] is this for every bracket
    token of the text, and [[cat|dog|hint:a pet]] gives the one blank
    [{answer: cat, localOptions: [dog], hint: a pet}]. *)
Theorem parse_bracket_token :
  (forall p : string,
     let segs := Js.split "|" (Js.slice p 1 (-1)) in
     parseBlank p
     = mkBlank (hd EmptyString segs)
               (filter (fun x => negb (Js.startsWith x "hint:")) (tl segs))
               (last (map (fun x => Some (Js.sliceFrom x 5))
                          (filter (fun x => Js.startsWith x "hint:") (tl segs)))
                     None))
  /\ (forall interior : string, Js.slice ("[" ++ interior ++ "]") 1 (-1) = interior)
  /\ (forall text : string,
        parseBlanks text = map parseBlank (filter isBlankToken (splitBlanks text)))
  /\ parseBlanks "[cat|dog|hint:a pet]" = [mkBlank "cat" ["dog"] (Some "a pet")].
Proof.
  split; [|split; [|split]].
  - intros p. simpl. unfold parseBlank.
    rewrite fold_classify. reflexivity.
  - exact slice_brackets.
  - reflexivity.
  - vm_compute. reflexivity.
Qed.

(** When several segments carry the prefix, the last one is the hint. *)
Example last_hint_wins :
  parseBlanks "[cat|hint:first|dog|hint:second|cow]"
  = [mkBlank "cat" ["dog"; "cow"] (Some "second")].
Proof. vm_compute. reflexivity. Qed.

End ParserFacts.

(* ================================================================= *)
(** ** The choices of the picker *)

Module PickerFacts.
Import UseBlanks InlineBlanks Notions.

Lemma insert_In (a x : string) (l : list string) :
  In x (insert a l) <-> x = a \/ In x l.
Proof.
  induction l as [|y l IH]; simpl.
  - intuition congruence.
  - destruct (String.leb a y); simpl; [intuition congruence|].
    rewrite IH. intuition congruence.
Qed.

Lemma sort_In (x : string) (l : list string) : In x (sort l) <-> In x l.
Proof.
  induction l as [|a l IH]; simpl; [reflexivity|].
  rewrite insert_In, IH. intuition congruence.
Qed.

Lemma insert_HdRel (a b : string) (l : list string) :
  lexLe b a -> HdRel lexLe b l -> HdRel lexLe b (insert a l).
Proof.
  intros Hba H. destruct l as [|y l]; simpl.
  - constructor. assumption.
  - destruct (String.leb a y); constructor; [assumption|].
    inversion H; assumption.
Qed.

Lemma insert_Sorted (a : string) (l : list string) :
  Sorted lexLe l -> Sorted lexLe (insert a l).
Proof.
  induction l as [|y l IH]; intros H; simpl.
  - repeat constructor.
  - destruct (String.leb a y) eqn:E.
    + constructor; [assumption|]. constructor. exact E.
    + inversion H as [|? ? Hs Hh]; subst.
      constructor; [apply IH; assumption|].
      apply insert_HdRel; [|assumption].
      destruct (String.leb_total a y) as [T|T]; [congruence|exact T].
Qed.

Lemma sort_Sorted (l : list string) : Sorted lexLe (sort l).
Proof.
  induction l as [|a l IH]; simpl; [constructor|].
  apply insert_Sorted. assumption.
Qed.

Lemma insert_NoDup (a : string) (l : list string) :
  ~ In a l -> NoDup l -> NoDup (insert a l).
Proof.
  induction l as [|y l IH]; intros Ha H; simpl.
  - repeat constructor. intros [].
  - destruct (String.leb a y).
    + constructor; assumption.
    + inversion H as [|? ? Hy Hl]; subst.
      constructor.
      * rewrite insert_In. simpl in Ha. intuition congruence.
      * apply IH; [|assumption]. simpl in Ha. tauto.
Qed.

Lemma sort_NoDup (l : list string) : NoDup l -> NoDup (sort l).
Proof.
  induction l as [|a l IH]; intros H; simpl; [constructor|].
  inversion H as [|? ? Ha Hl]; subst.
  apply insert_NoDup; [|auto].
  rewrite sort_In. assumption.
Qed.

Lemma seen_spec (x : string) (seen : list string) :
  existsb (String.eqb x) seen = true <-> In x seen.
Proof.
  rewrite existsb_exists. split.
  - intros [y [Hy E]]. apply String.eqb_eq in E. subst. assumption.
  - intros H. exists x. split; [assumption|apply String.eqb_refl].
Qed.

Lemma fromSet_In (x : string) (l seen : list string) :
  In x (fromSet seen l) <-> In x l /\ ~ In x seen.
Proof.
  revert seen. induction l as [|a l IH]; intros seen; simpl.
  - tauto.
  - destruct (existsb (String.eqb a) seen) eqn:E.
    + apply seen_spec in E. rewrite IH. intuition congruence.
    + assert (Ha : ~ In a seen).
      { intros H. apply seen_spec in H. congruence. }
      simpl. rewrite IH. simpl.
      destruct (string_dec a x) as [->|N]; intuition congruence.
Qed.

Lemma fromSet_NoDup (l seen : list string) : NoDup (fromSet seen l).
Proof.
  revert seen. induction l as [|a l IH]; intros seen; simpl.
  - constructor.
  - destruct (existsb (String.eqb a) seen); [apply IH|].
    constructor; [|apply IH].
    rewrite fromSet_In. simpl. tauto.
Qed.

(** C3, as the code has it. In picker mode the choices of a blank are its
    answer together with its own [localOptions] when it has some, and with
    the global [options] only when it has none; they are without duplicates
    and sorted by code units. *)
Theorem picker_choices (options : list string) (data : BlankData) :
  choices Picker options data = Some (dropdownOptions options data)
  /\ (forall x : string,
        In x (dropdownOptions options data)
        <-> x = answer data
            \/ In x (match localOptions data with
                     | [] => options
                     | _ :: _ => localOptions data
                     end))
  /\ NoDup (dropdownOptions options data)
  /\ Sorted (fun a b => String.leb a b = true) (dropdownOptions options data).
Proof.
  split; [reflexivity|]. unfold dropdownOptions. split; [|split].
  - intros x. rewrite sort_In, fromSet_In, in_app_iff. simpl.
    unfold currentOptions. destruct (localOptions data); simpl; intuition congruence.
  - apply sort_NoDup, fromSet_NoDup.
  - apply sort_Sorted.
Qed.

(** A blank with local options does not offer the global ones: the choices
    are not the union of the three sources. *)
Lemma picker_local_options_replace_global :
  let data := mkBlank "cat" ["dog"] None in
  choices Picker ["bird"] data = Some ["cat"; "dog"]
  /\ ~ (forall x : string,
          In x (dropdownOptions ["bird"] data)
          <-> In x (localOptions data) \/ In x ["bird"] \/ x = answer data).
Proof.
  split; [vm_compute; reflexivity|].
  intros H. specialize (H "bird"). destruct H as [_ H].
  assert (B : In "bird" (dropdownOptions ["bird"] (mkBlank "cat" ["dog"] None))).
  { apply H. right. left. simpl. left. reflexivity. }
  vm_compute in B. destruct B as [B|[B|[]]]; discriminate.
Qed.

End PickerFacts.

(* ================================================================= *)
(** ** The completion effect *)

Module CompletionFacts.
Import InlineBlanks Notions.

Section OneMount.
Variables pathname exerciseId : string.

Local Abbreviation commit := (commit pathname exerciseId).
Local Abbreviation renders := (renders pathname exerciseId).
Local Abbreviation remembers := (remembers pathname exerciseId).
Local Abbreviation tracked := (tracked pathname exerciseId).

Lemma commit_notifiedOnce (b : Bridge) (r : Render) :
  (calls b <> [] -> idEffect r <> Some false) ->
  notifiedOnce b -> notifiedOnce (commit b r).
Proof.
  intros Hr [Hc Hl]. unfold notifiedOnce, InlineBlanks.commit. simpl.
  destruct (isCompleted b) eqn:Eseen.
  - rewrite !andb_false_r. simpl. split; [|assumption].
    intros Hne. specialize (Hr Hne).
    destruct (idEffect r) as [[|]|]; congruence.
  - assert (Hnil : calls b = []).
    { destruct (calls b) eqn:E; [reflexivity|].
      assert (false = true) by (apply Hc; discriminate). discriminate. }
    rewrite Hnil in *.
    match goal with |- context [if ?c then true else _] => destruct c end; simpl.
    + split; [reflexivity|lia].
    + split; [intros H; contradiction|lia].
Qed.

Lemma renders_notifiedOnce (rs : list Render) (b : Bridge) :
  remembers b rs -> notifiedOnce b -> notifiedOnce (renders b rs).
Proof.
  revert b. induction rs as [|r rs IH]; intros b Hrem Hb; simpl; [assumption|].
  destruct Hrem as [Hr Hrem].
  apply IH; [assumption|]. apply commit_notifiedOnce; assumption.
Qed.

Lemma mount_notifiedOnce (complete allCorrect : bool) :
  notifiedOnce (mountBridge pathname exerciseId complete allCorrect).
Proof.
  unfold notifiedOnce, mountBridge, InlineBlanks.commit. simpl.
  destruct (allCorrect && negb (String.eqb exerciseId "") && true); simpl.
  - split; [reflexivity|lia].
  - split; [intros H; contradiction|lia].
Qed.

Lemma commit_tracked (b : Bridge) (r : Render) :
  exerciseId <> EmptyString -> idEffect r = None ->
  tracked b ->
  tracked (commit b r)
  /\ (isCompleted b = true \/ allCorrectNow r = true -> isCompleted (commit b r) = true).
Proof.
  intros Hid Hr [Href Hb]. apply String.eqb_neq in Hid.
  unfold Notions.tracked, InlineBlanks.commit. rewrite Hr, Href. simpl.
  rewrite Hid. simpl.
  destruct (isCompleted b) eqn:Eseen.
  - rewrite !andb_false_r. simpl. rewrite Hb. auto.
  - destruct Hb as [Hnil Hdeps]. rewrite Hnil.
    rewrite !andb_true_r.
    destruct (allCorrectNow r) eqn:Eac.
    + assert (Hch : depsChanged (lastDeps b) (true, false) = true).
      { unfold depsChanged. destruct (lastDeps b) as [[[|] [|]]|]; simpl; congruence. }
      rewrite Hch, orb_true_r. simpl. auto.
    + rewrite andb_false_r. simpl. split.
      * split; [reflexivity|]. split; [reflexivity|].
        destruct (callbackChanged r || depsChanged (lastDeps b) (false, false));
          [discriminate|assumption].
      * intros [H|H]; discriminate.
Qed.

Lemma renders_tracked (rs : list Render) (b : Bridge) :
  exerciseId <> EmptyString ->
  Forall (fun r => idEffect r = None) rs ->
  tracked b ->
  isCompleted b || existsb allCorrectNow rs = true ->
  calls (renders b rs) = [(exerciseId, pathname)].
Proof.
  intros Hid. revert b. induction rs as [|r rs IH]; intros b Hrs Hb Hex; simpl in *.
  - rewrite orb_false_r in Hex. destruct Hb as [_ Hb]. rewrite Hex in Hb. exact Hb.
  - inversion Hrs as [|? ? Hr Hrs']; subst.
    destruct (@commit_tracked b r Hid Hr Hb) as [Hb' Hset].
    apply IH; [assumption|assumption|].
    destruct (isCompleted b) eqn:E1; simpl in Hex.
    + rewrite Hset by auto. reflexivity.
    + destruct (allCorrectNow r) eqn:E2; simpl in Hex.
      * rewrite Hset by auto. reflexivity.
      * rewrite Hex. apply orb_true_r.
Qed.

Lemma mount_tracked (allCorrect : bool) :
  exerciseId <> EmptyString ->
  tracked (mountBridge pathname exerciseId false allCorrect)
  /\ isCompleted (mountBridge pathname exerciseId false allCorrect) = allCorrect.
Proof.
  intros Hid. apply String.eqb_neq in Hid.
  unfold Notions.tracked, mountBridge, InlineBlanks.commit. simpl. rewrite Hid. simpl.
  destruct allCorrect; simpl; repeat split; discriminate.
Qed.

Lemma commit_stays_completed (b : Bridge) (r : Render) :
  idEffect r <> Some false ->
  isCompleted b = true /\ calls b = [] ->
  isCompleted (commit b r) = true /\ calls (commit b r) = [].
Proof.
  intros Hr [Hc Hn]. unfold InlineBlanks.commit. rewrite Hc, Hn.
  cbn [negb]. rewrite !andb_false_r. cbn [isCompleted calls].
  split; [|reflexivity].
  destruct (idEffect r) as [[|]|]; [reflexivity|contradiction|reflexivity].
Qed.

Lemma renders_stays_completed (rs : list Render) (b : Bridge) :
  Forall (fun r => idEffect r <> Some false) rs ->
  isCompleted b = true /\ calls b = [] ->
  isCompleted (renders b rs) = true /\ calls (renders b rs) = [].
Proof.
  revert b. induction rs as [|r rs IH]; intros b Hrs Hb; [exact Hb|].
  inversion Hrs as [|? ? Hr Hrs']; subst.
  apply (IH (commit b r) Hrs'). apply commit_stays_completed; assumption.
Qed.

Lemma mount_completed :
  isCompleted (mountBridge pathname exerciseId true false) = true
  /\ calls (mountBridge pathname exerciseId true false) = [].
Proof.
  unfold mountBridge, InlineBlanks.commit. cbn. split; reflexivity.
Qed.


End OneMount.



(** The flag is re-read from the store when the identifier effect runs
    again: a store that answers [false] after the notification clears it,
    and the callback is invoked a second time. *)
Example forgetful_store_is_notified_twice :
  calls (renders "/lesson/1" "ex-1" (mountBridge "/lesson/1" "ex-1" false false)
                 [mkRender true None false; mkRender true (Some false) false;
                  mkRender true None false])
  = [("ex-1", "/lesson/1"); ("ex-1", "/lesson/1")].
Proof. vm_compute. reflexivity. Qed.

(** An exercise the store reported complete at the mount is notified after
    all when the store answers that it is incomplete at a later run of the
    identifier effect: the condition on the store is needed for the last
    part of the theorem. *)
Example completed_then_forgotten_is_notified :
  remembers "/lesson/1" "ex-1" (mountBridge "/lesson/1" "ex-1" true false)
            [mkRender true (Some false) false; mkRender true None false]
  /\ calls (renders "/lesson/1" "ex-1" (mountBridge "/lesson/1" "ex-1" true false)
                    [mkRender true (Some false) false; mkRender true None false])
     = [("ex-1", "/lesson/1")].
Proof.
  split; [|vm_compute; reflexivity].
  cbn. repeat split; intros H; try discriminate; exfalso; apply H; reflexivity.
Qed.

End CompletionFacts.

(* ================================================================= *)
(** ** The matcher against the matching relation *)

Module ReFacts.
Import Re Notions.

(** A match consumes a prefix of the input and advances the index by its
    length. *)
Lemma ms_consumes r p s p' s' :
  ms r p s p' s' -> exists a, s = a ++ s' /\ p' = p + List.length a.
Proof.
  induction 1.
  - exists []. split; [reflexivity|simpl; lia].
  - exists []. split; [reflexivity|simpl; lia].
  - exists [c]. split; [reflexivity|simpl; lia].
  - exists [c]. split; [reflexivity|simpl; lia].
  - destruct IHms1 as [a [-> ->]]. destruct IHms2 as [b [-> ->]].
    exists (a ++ b). rewrite <- app_assoc, length_app. split; [reflexivity|lia].
  - exists []. split; [reflexivity|simpl; lia].
  - destruct IHms1 as [a [-> ->]]. destruct IHms2 as [b [-> ->]].
    exists (a ++ b). rewrite <- app_assoc, length_app. split; [reflexivity|lia].
Qed.

Section Correct.
Variable R : Type.

Lemma starLoop_sound r
      (step : nat -> list ascii -> (nat -> list ascii -> option R) -> option R) g k :
  stepSound r step ->
  forall fuel pos s x, starLoop step g k fuel pos s = Some x ->
    exists pos' s', ms (Star g r) pos s pos' s' /\ k pos' s' = Some x.
Proof.
  intros Hstep. induction fuel as [|fuel IH]; intros pos s x H; simpl in H.
  - exists pos, s. split; [constructor|assumption].
  - assert (Hmore : forall y,
               step pos s (fun pos' s' =>
                             if pos' =? pos then None
                             else starLoop step g k fuel pos' s') = Some y ->
               exists pos' s', ms (Star g r) pos s pos' s' /\ k pos' s' = Some y).
    { intros y Hy. apply Hstep in Hy. destruct Hy as (p1 & s1 & Hm & Hk).
      destruct (Nat.eqb_spec p1 pos) as [|Hne]; [discriminate|].
      apply IH in Hk. destruct Hk as (p2 & s2 & Hm2 & Hk2).
      exists p2, s2. split; [|assumption].
      eapply MStarS; eassumption. }
    destruct g.
    + destruct (step pos s _) as [y|] eqn:E.
      * inversion H; subst. apply Hmore. reflexivity.
      * exists pos, s. split; [constructor|assumption].
    + destruct (k pos s) as [y|] eqn:E.
      * inversion H; subst. exists pos, s. split; [constructor|assumption].
      * apply Hmore. assumption.
Qed.

Lemma run_sound r : stepSound r (run (R:=R) r).
Proof.
  induction r as [| |c|p|r1 IH1 r2 IH2|g r IH]; intros pos s k x H; simpl in H.
  - destruct (Nat.eqb_spec pos 0) as [->|]; [|discriminate].
    exists 0, s. split; [constructor|assumption].
  - destruct s; [|discriminate]. exists pos, []. split; [constructor|assumption].
  - destruct s as [|y s]; [discriminate|].
    destruct (Ascii.eqb_spec y c) as [->|]; [|discriminate].
    exists (S pos), s. split; [constructor|assumption].
  - destruct s as [|y s]; [discriminate|].
    destruct (p y) eqn:E; [|discriminate].
    exists (S pos), s. split; [constructor; assumption|assumption].
  - apply IH1 in H. destruct H as (p1 & s1 & Hm1 & H).
    apply IH2 in H. destruct H as (p2 & s2 & Hm2 & H).
    exists p2, s2. split; [econstructor; eassumption|assumption].
  - eapply starLoop_sound; eassumption.
Qed.

Lemma starLoop_complete r
      (step : nat -> list ascii -> (nat -> list ascii -> option R) -> option R) g k :
  stepComplete r step ->
  forall pos s pos' s', ms (Star g r) pos s pos' s' ->
  forall fuel, List.length s <= fuel -> k pos' s' <> None ->
    starLoop step g k fuel pos s <> None.
Proof.
  intros Hstep pos s pos' s' Hm.
  remember (Star g r) as sr eqn:Esr.
  induction Hm as [| | | | |g0 r0 p0 s0|g0 r0 p0 s0 p1 s1 p2 s2 Hbody _ Hne Hrest IH];
    try discriminate; inversion Esr; subst; intros fuel Hfuel Hk.
  - destruct fuel as [|fuel]; simpl; [assumption|].
    destruct g.
    + destruct (step p0 s0 _); [discriminate|assumption].
    + destruct (k p0 s0); [discriminate|contradiction].
  - destruct (ms_consumes Hbody) as [a [-> ->]].
    assert (Ha : 0 < List.length a) by (destruct a; simpl in *; lia).
    rewrite length_app in Hfuel.
    destruct fuel as [|fuel]; [lia|]. simpl.
    assert (Hmore : step p0 (a ++ s1)
                      (fun pos' s' =>
                         if pos' =? p0 then None
                         else starLoop step g k fuel pos' s') <> None).
    { eapply Hstep; [eassumption|].
      destruct (Nat.eqb_spec (p0 + List.length a) p0) as [|_]; [lia|].
      apply IH; [reflexivity|lia|assumption]. }
    destruct g.
    + destruct (step p0 (a ++ s1) _); [discriminate|contradiction].
    + destruct (k p0 (a ++ s1)); [discriminate|assumption].
Qed.

Lemma run_complete r : stepComplete r (run (R:=R) r).
Proof.
  induction r as [| |c|p|r1 IH1 r2 IH2|g r IH];
    intros pos s pos' s' k Hm Hk; inversion Hm; subst; simpl.
  - assumption.
  - assumption.
  - rewrite Ascii.eqb_refl. assumption.
  - match goal with H : p _ = true |- _ => rewrite H end. assumption.
  - eapply IH1; [eassumption|]. eapply IH2; eassumption.
  - apply (@starLoop_complete r (run r) g k IH pos' s' pos' s');
      [constructor|lia|assumption].
  - apply (@starLoop_complete r (run r) g k IH pos s pos' s');
      [|lia|assumption].
    eapply MStarS; eassumption.
Qed.

End Correct.

(** A sticky match leaves a suffix of the input. *)
Lemma execAt_suffix r pos s rest :
  execAt r pos s = Some rest -> exists a, s = a ++ rest.
Proof.
  unfold execAt. intros H. apply run_sound in H.
  destruct H as (p' & s' & Hm & Hk). inversion Hk; subst.
  destruct (ms_consumes Hm) as [a [-> _]]. exists a. reflexivity.
Qed.

Lemma execAt_matches r pos s :
  execAt r pos s <> None <-> exists pos' s', ms r pos s pos' s'.
Proof.
  unfold execAt. split.
  - destruct (run r pos s _) as [x|] eqn:E; [|congruence]. intros _.
    apply run_sound in E. destruct E as (p' & s' & Hm & _). eauto.
  - intros (p' & s' & Hm). eapply run_complete; [eassumption|discriminate].
Qed.

(** A pattern that starts with [^] is tried with success at index 0 only. *)
Lemma testFrom_anchored r s pos :
  0 < pos -> testFrom (Seq Bol r) pos s = false.
Proof.
  revert pos. induction s as [|c s IH]; intros pos Hpos; simpl;
    unfold execAt; simpl; destruct (Nat.eqb_spec pos 0); try lia; auto.
Qed.

Lemma test_anchored r s :
  test (Seq Bol r) s = true
  <-> exists pos' s', ms r 0 (list_ascii_of_string s) pos' s'.
Proof.
  unfold test.
  assert (E : testFrom (Seq Bol r) 0 (list_ascii_of_string s) = true
              <-> execAt (Seq Bol r) 0 (list_ascii_of_string s) <> None).
  { destruct (list_ascii_of_string s) as [|c l]; simpl;
      destruct (execAt (Seq Bol r) 0 _) eqn:E; try rewrite testFrom_anchored by lia;
        split; congruence. }
  rewrite E, execAt_matches. split.
  - intros (p' & s' & Hm). inversion Hm; subst.
    match goal with H : ms Bol _ _ _ _ |- _ => inversion H; subst end. eauto.
  - intros (p' & s' & Hm). exists p', s'. econstructor; [constructor|eassumption].
Qed.

(** A star over a character class matches the runs of the class. *)
Lemma ms_star_class g p pos s pos' s' :
  ms (Star g (Class p)) pos s pos' s'
  <-> exists a, s = a ++ s' /\ Forall (fun c => p c = true) a
                /\ pos' = pos + List.length a.
Proof.
  split.
  - intros Hm. remember (Star g (Class p)) as sr eqn:Esr.
    induction Hm as [| | | | |g0 r0 p0 s0|g0 r0 p0 s0 p1 s1 p2 s2 Hbody _ Hne Hrest IH];
      try discriminate; inversion Esr; subst.
    + exists []. repeat split; [constructor|simpl; lia].
    + inversion Hbody; subst.
      destruct (IH eq_refl) as (a & -> & Ha & ->).
      exists (c :: a). repeat split; [constructor; assumption|simpl; lia].
  - intros (a & -> & Ha & ->). revert pos.
    induction Ha as [|c a Hc Ha IH]; intros pos; simpl.
    + rewrite Nat.add_0_r. constructor.
    + eapply MStarS.
      * constructor. exact Hc.
      * lia.
      * replace (pos + S (List.length a)) with (S pos + List.length a) by lia.
        apply IH.
Qed.

(** Splitting keeps every character: the pieces and the matches, put
    together again, are the text. *)
Lemma splitLoop_concat r fuel pos s cur :
  List.concat (splitLoop r fuel pos s cur) = rev cur ++ s.
Proof.
  revert pos s cur. induction fuel as [|fuel IH]; intros pos s cur; cbn [splitLoop].
  - simpl. rewrite app_nil_r. reflexivity.
  - destruct s as [|c s].
    + simpl. rewrite !app_nil_r. reflexivity.
    + assert (Hadv : List.concat (splitLoop r fuel (S pos) s (c :: cur))
                     = rev cur ++ c :: s).
      { rewrite IH. simpl. rewrite <- app_assoc. reflexivity. }
      destruct (execAt r pos (c :: s)) as [rest|] eqn:E; [|exact Hadv].
      destruct (execAt_suffix _ _ _ E) as [a Ea].
      assert (Hn : List.length (c :: s) - List.length rest = List.length a).
      { rewrite Ea, length_app. lia. }
      assert (Hcut : firstn (List.length a) (c :: s) ++ rest = c :: s).
      { rewrite Ea at 1. rewrite firstn_app, firstn_all, Nat.sub_diag. simpl.
        rewrite app_nil_r. symmetry. exact Ea. }
      rewrite Hn.
      destruct a as [|x a]; cbn [List.length].
      * destruct cur as [|y cur]; [exact Hadv|].
        cbn [List.concat firstn]. rewrite IH. cbn [rev app].
        simpl in Ea. rewrite <- Ea. reflexivity.
      * cbn [List.concat]. rewrite IH. simpl rev. cbn [app].
        cbn [List.length] in Hcut. rewrite Hcut. reflexivity.
Qed.

Lemma string_of_list_ascii_app a b :
  string_of_list_ascii (a ++ b)
  = (string_of_list_ascii a ++ string_of_list_ascii b)%string.
Proof. induction a as [|c a IH]; simpl; [reflexivity|]. rewrite IH. reflexivity. Qed.

Lemma concat_strings (ls : list (list ascii)) :
  String.concat EmptyString (map string_of_list_ascii ls)
  = string_of_list_ascii (List.concat ls).
Proof.
  induction ls as [|l ls IH]; simpl; [reflexivity|].
  rewrite string_of_list_ascii_app, <- IH.
  destruct ls as [|l' ls]; simpl.
  - destruct (string_of_list_ascii l); simpl; [reflexivity|].
    f_equal. clear. induction s; simpl; [reflexivity|]. rewrite <- IHs. reflexivity.
  - reflexivity.
Qed.

Lemma splitCapture_concat r s : Js.join EmptyString (splitCapture r s) = s.
Proof.
  unfold splitCapture, Js.join.
  destruct (list_ascii_of_string s) as [|c l] eqn:E.
  - assert (s = EmptyString) as ->.
    { rewrite <- (string_of_list_ascii_of_string s), E. reflexivity. }
    destruct (execAt r 0 []); reflexivity.
  - rewrite concat_strings, splitLoop_concat. simpl rev. cbn [app].
    rewrite <- E. apply string_of_list_ascii_of_string.
Qed.

End ReFacts.

(* ================================================================= *)
(** ** The tree walker *)

Module WalkerFacts.
Import UseBlanks Notions.

(** Induction over nodes, the items of an array included. *)
Lemma Node_induction (P : Node -> Prop) :
  (forall s, P (NStr s)) ->
  (forall n, P (NNum n)) ->
  (forall items, Forall P items -> P (NArr items)) ->
  (forall type children, P children -> P (NElem type children)) ->
  P NNull ->
  (forall b, P (NBool b)) ->
  forall node, P node.
Proof.
  intros HStr HNum HArr HElem HNull HBool.
  fix IH 1. intros [s|n|items|type children| |b].
  - apply HStr.
  - apply HNum.
  - apply HArr. induction items as [|x items IHitems]; constructor.
    + apply IH.
    + exact IHitems.
  - apply HElem, IH.
  - exact HNull.
  - apply HBool.
Qed.

Lemma processParts_literal env parts counter :
  List.length (c_blanksData env) <= counter ->
  processParts env parts counter = Ok (map OText parts, counter).
Proof.
  intros H. induction parts as [|part parts IH]; simpl; [reflexivity|].
  rewrite IH.
  destruct (isBlankToken part); [|reflexivity].
  destruct (Nat.leb_spec (List.length (c_blanksData env)) counter); [reflexivity|lia].
Qed.

Lemma processNode_literal env node :
  forall counter,
    List.length (c_blanksData env) <= counter ->
    processNode env node counter = Ok (literal node, counter).
Proof.
  induction node as [s|n|items IH|type children IH| |b] using Node_induction;
    intros counter H; cbn [processNode literal]; try reflexivity.
  - apply processParts_literal. assumption.
  - induction IH as [|x items Hx _ IHitems]; [reflexivity|].
    rewrite (Hx counter H), IHitems. reflexivity.
  - destruct (truthy children); [|reflexivity].
    rewrite (IH counter H). reflexivity.
Qed.

Lemma processParts_total env parts :
  forall counter, processParts env parts counter <> TypeError.
Proof.
  induction parts as [|part parts IH]; intros counter; simpl; [discriminate|].
  destruct (isBlankToken part).
  - destruct (Nat.leb_spec (List.length (c_blanksData env)) counter) as [Hle|Hlt].
    + specialize (IH counter).
      destruct (processParts env parts counter) as [[os c']|]; [discriminate|contradiction].
    + destruct (nth_error (c_blanksData env) counter) eqn:E.
      * specialize (IH (S counter)).
        destruct (processParts env parts (S counter)) as [[os c']|];
          [discriminate|contradiction].
      * apply nth_error_None in E. lia.
  - specialize (IH counter).
    destruct (processParts env parts counter) as [[os c']|]; [discriminate|contradiction].
Qed.

Lemma processNode_total env node :
  forall counter, processNode env node counter <> TypeError.
Proof.
  induction node as [s|n|items IH|type children IH| |b] using Node_induction;
    intros counter; cbn [processNode]; try discriminate.
  - apply processParts_total.
  - revert counter. induction IH as [|x items Hx _ IHitems]; intros counter;
      [discriminate|].
    specialize (Hx counter).
    destruct (processNode env x counter) as [[o1 c1]|]; [|contradiction].
    specialize (IHitems c1).
    match goal with
    | |- match match ?e with _ => _ end with _ => _ end <> _ =>
        destruct e as [[o2 c2]|]; [discriminate|contradiction]
    | |- match ?e with _ => _ end <> _ =>
        destruct e as [[o2 c2]|]; [discriminate|contradiction]
    end.
  - destruct (truthy children); [|discriminate].
    specialize (IH counter).
    destruct (processNode env children counter) as [[cs c']|]; [discriminate|contradiction].
Qed.

(** C6. Once the counter has reached the number of parsed blanks, the walker
    replaces nothing more: it returns the node with every part of every
    string as text (the parts of a string put together are the string, so a
    further bracket token stands in the output as written) and leaves the
    counter where it is; and the walk never throws, whatever the counter. *)
Theorem overrun_is_emitted_verbatim (env : Closure) (node : Node) (counter : nat) :
  List.length (c_blanksData env) <= counter ->
  processNode env node counter = Ok (literal node, counter)
  /\ (forall parts : list string,
        processParts env parts counter = Ok (map OText parts, counter))
  /\ (forall s : string,
        processNode env (NStr s) counter = Ok (map OText (splitBlanks s), counter)
        /\ Js.join EmptyString (splitBlanks s) = s)
  /\ (forall (n : Node) (c : nat), processNode env n c <> TypeError).
Proof.
  intros H. split; [|split; [|split]].
  - apply processNode_literal. assumption.
  - intros parts. apply processParts_literal. assumption.
  - intros s. split.
    + apply (processNode_literal env (NStr s) H).
    + apply ReFacts.splitCapture_concat.
  - intros n c. apply processNode_total.
Qed.

(** A bracket spanning a line break in one text leaf is a token for the
    walker, while the text of the whole children has no blank. *)
Lemma overrun_is_emitted_verbatim_witness :
  let kids := NArr [NStr ("[x" ++ nl ++ "y]")%string; NStr " below"] in
  let env := memo (mount kids) in
  c_blanksData env = []
  /\ rendered kids (mount kids)
     = Ok [OText ("[x" ++ nl ++ "y]")%string; OText " below"].
Proof.
  split; [vm_compute; reflexivity|].
  assert (H : List.length
                (c_blanksData
                   (memo (mount (NArr [NStr ("see [x" ++ nl ++ "y]")%string;
                                       NStr " below"])))) <= 0)
    by (vm_compute; lia).
  unfold rendered, renderContent.
  destruct (overrun_is_emitted_verbatim
              (memo (mount (NArr [NStr ("[x" ++ nl ++ "y]")%string; NStr " below"])))
              (NArr [NStr ("[x" ++ nl ++ "y]")%string; NStr " below"]) H) as [E _].
  rewrite E. vm_compute. reflexivity.
Defined.

End WalkerFacts.

(* ================================================================= *)
(** ** The status [renderContent] derives, across renders *)

Module StatusFacts.
Import UseBlanks.

(** The formula of [isWrong], read off the status object. *)
Lemma isWrong_formula env data index :
  let value := valueAt (c_inputs env) index in
  let isPartialMatch :=
    (0 <? String.length (Js.trim value))
    && Js.startsWith (Js.toLowerCase (answer data)) (Js.toLowerCase (Js.trim value)) in
  let s := deriveStatus env data index in
  Status.isWrong s
  = Status.showValidation s && negb (Status.isCorrect s)
    && (c_submitted env || (negb isPartialMatch || flag (c_blurred env) index)).
Proof. reflexivity. Qed.

Lemma sameDeps_closureOf data st : sameDeps (closureOf data st) st = true.
Proof.
  unfold sameDeps, closureOf. simpl.
  rewrite !Nat.eqb_refl, Bool.eqb_reflx. reflexivity.
Qed.

(** The function [useCallback] holds always has the dependencies of the
    current state. *)
Lemma rerender_in_sync data old st :
  sameDeps (memo (rerender data old st)) (state (rerender data old st)) = true.
Proof.
  unfold rerender. simpl. destruct (sameDeps old st) eqn:E; [exact E|].
  apply sameDeps_closureOf.
Qed.

(** X1. [handleBlur] replaces the array [blurred] only, which is no dependency
    of [renderContent]: the render after a blur runs the function of the
    render before it, and shows what that render showed. *)
Lemma blur_keeps_renderContent children inst e index :
  let before := step children inst e in
  let after := step children before (Blur index) in
  memo after = memo before
  /\ rendered children after = rendered children before
  /\ Arr.get (Arr.elems (blurred (state after))) index = Some true.
Proof.
  simpl.
  assert (Hsync : sameDeps (memo (step children inst e))
                           (state (step children inst e)) = true)
    by apply rerender_in_sync.
  assert (Hmemo : memo (step children (step children inst e) (Blur index))
                  = memo (step children inst e)).
  { unfold step at 1. unfold rerender. cbn [memo dispatch].
    replace (sameDeps (memo (step children inst e))
                      (handleBlur index (state (step children inst e))))
      with (sameDeps (memo (step children inst e)) (state (step children inst e)))
      by reflexivity.
    rewrite Hsync. reflexivity. }
  split; [exact Hmemo|]. split.
  - unfold rendered. rewrite Hmemo. reflexivity.
  - apply ArrFacts.get_set_same.
Qed.

(** C1, on the code. For the answer [Paris]: after typing [Par] the status
    of the blank has [isWrong = false]; after [handleBlur] the state has
    [blurred[0] = true], and a status derived from that state would have
    [isWrong = true], but the render runs the [renderContent] of the render
    before (its dependency list has no [blurred]) and the status handed to
    [renderBlank] still has [isWrong = false]; after the next change the
    flag [blurred[0]] is [false] again and so is [isWrong]. *)
Theorem blur_is_not_seen_by_renderContent :
  let kids := NStr "The capital of France is [Paris]." in
  let data := mkBlank "Paris" [] None in
  let typed := step kids (mount kids) (Change 0 "Par") in
  let left := step kids typed (Blur 0) in
  let retyped := step kids left (Change 0 "Pari") in
  blanksDataOf kids = [data]
  /\ option_map Status.isWrong (renderedStatus kids typed 0) = Some false
  /\ Arr.get (Arr.elems (blurred (state left))) 0 = Some true
  /\ Status.isWrong (deriveStatus (closureOf [data] (state left)) data 0) = true
  /\ memo left = memo typed
  /\ option_map Status.isWrong (renderedStatus kids left 0) = Some false
  /\ Arr.get (Arr.elems (blurred (state retyped))) 0 = Some false
  /\ option_map Status.isWrong (renderedStatus kids retyped 0) = Some false.
Proof. vm_compute. repeat split; reflexivity. Qed.

(** A value that is no prefix of the answer is wrong as soon as it is typed,
    blurred or not. *)
Example wrong_prefix_is_flagged_while_typing :
  let kids := NStr "The capital of France is [Paris]." in
  option_map Status.isWrong
             (renderedStatus kids (step kids (mount kids) (Change 0 "Lyon")) 0)
  = Some true.
Proof. vm_compute. reflexivity. Qed.

End StatusFacts.


(* ================================================================= *)
(** ** Table detection *)

Module TableDetection.
Import UseBlanks InlineBlanks Notions.

Local Abbreviation chars := list_ascii_of_string.

(** *** Strings as lists of characters *)

Lemma chars_app a b : chars (a ++ b) = chars a ++ chars b.
Proof. induction a as [|c a IH]; simpl; [reflexivity|]. rewrite IH. reflexivity. Qed.

Lemma chars_length s : List.length (chars s) = String.length s.
Proof. induction s as [|c s IH]; simpl; [reflexivity|]. rewrite IH. reflexivity. Qed.

Lemma chars_drop n s : chars (Js.drop n s) = skipn n (chars s).
Proof.
  revert s. induction n as [|n IH]; intros [|c s]; simpl; try reflexivity. apply IH.
Qed.

Lemma chars_inj a b : chars a = chars b -> a = b.
Proof.
  intros H. rewrite <- (string_of_list_ascii_of_string a),
              <- (string_of_list_ascii_of_string b), H. reflexivity.
Qed.

Lemma occurs_chars c s : occurs c s = false <-> ~ In c (chars s).
Proof.
  induction s as [|x s IH]; simpl.
  - split; [intros _ []|reflexivity].
  - rewrite orb_false_iff, IH.
    destruct (Ascii.eqb_spec x c); intuition congruence.
Qed.

Lemma bool_eq_iff (a b : bool) : (a = true <-> b = true) -> a = b.
Proof. destruct a, b; intuition congruence. Qed.

(** *** The pattern of a separator row *)

Lemma ms_seq_inv r1 r2 p s p' s' :
  Re.ms (Re.Seq r1 r2) p s p' s'
  <-> exists p1 s1, Re.ms r1 p s p1 s1 /\ Re.ms r2 p1 s1 p' s'.
Proof.
  split.
  - intros H. inversion H; subst. eauto.
  - intros (p1 & s1 & H1 & H2). econstructor; eassumption.
Qed.

Lemma ms_chr_inv c p s p' s' :
  Re.ms (Re.Chr c) p s p' s' <-> s = c :: s' /\ p' = S p.
Proof.
  split.
  - intros H. inversion H; subst. auto.
  - intros [-> ->]. constructor.
Qed.

Lemma ms_class_inv f p s p' s' :
  Re.ms (Re.Class f) p s p' s' <-> exists c, s = c :: s' /\ f c = true /\ p' = S p.
Proof.
  split.
  - intros H. inversion H; subst. eauto.
  - intros (c & -> & Hc & ->). constructor. assumption.
Qed.

Lemma ms_eol_inv p s p' s' :
  Re.ms Re.Eol p s p' s' <-> s = [] /\ s' = [] /\ p' = p.
Proof.
  split.
  - intros H. inversion H; subst. auto.
  - intros (-> & -> & ->). constructor.
Qed.

(** The pattern of [hasSeparator] matches exactly the separator rows. *)
Lemma test_sepRe line : Re.test sepRe line = true <-> sepRow (chars line).
Proof.
  unfold sepRe. rewrite ReFacts.test_anchored. unfold sepRow, Re.Plus, ws. split.
  - intros (pe & se & H).
    apply ms_seq_inv in H. destruct H as (p1 & s1 & Ha & H).
    apply ReFacts.ms_star_class in Ha. destruct Ha as (a & -> & Ha & ->).
    apply ms_seq_inv in H. destruct H as (p2 & s2 & Hp & H).
    apply ms_chr_inv in Hp. destruct Hp as [-> ->].
    apply ms_seq_inv in H. destruct H as (p3 & s3 & Hm & H).
    apply ms_seq_inv in Hm. destruct Hm as (p4 & s4 & Hc & Hm).
    apply ms_class_inv in Hc. destruct Hc as (c & -> & Hc & ->).
    apply ReFacts.ms_star_class in Hm. destruct Hm as (m & -> & Hm & ->).
    apply ms_seq_inv in H. destruct H as (p5 & s5 & Hp & H).
    apply ms_chr_inv in Hp. destruct Hp as [-> ->].
    apply ms_seq_inv in H. destruct H as (p6 & s6 & Hb & H).
    apply ReFacts.ms_star_class in Hb. destruct Hb as (b & -> & Hb & ->).
    apply ms_eol_inv in H. destruct H as (-> & -> & _).
    exists a, (c :: m), b. rewrite app_nil_r. simpl.
    repeat split; try assumption; [discriminate|constructor; assumption].
  - intros (a & m & b & E & Ha & Hne & Hm & Hb).
    destruct m as [|c m]; [contradiction|]. inversion Hm as [|? ? Hc Hm']; subst.
    rewrite E.
    exists (0 + List.length a + 1 + 1 + List.length m + 1 + List.length b), [].
    apply ms_seq_inv. exists (0 + List.length a), ("|"%char :: (c :: m) ++ "|"%char :: b).
    split; [apply ReFacts.ms_star_class; exists a; auto|].
    apply ms_seq_inv. exists (S (0 + List.length a)), ((c :: m) ++ "|"%char :: b).
    split; [apply ms_chr_inv; auto|].
    apply ms_seq_inv.
    exists (S (S (0 + List.length a)) + List.length m), ("|"%char :: b).
    split.
    { apply ms_seq_inv. exists (S (S (0 + List.length a))), (m ++ "|"%char :: b).
      split; [apply ms_class_inv; exists c; auto|].
      apply ReFacts.ms_star_class. exists m. auto. }
    apply ms_seq_inv. exists (S (S (S (0 + List.length a)) + List.length m)), b.
    split; [apply ms_chr_inv; auto|].
    apply ms_seq_inv.
    exists (S (S (S (0 + List.length a)) + List.length m) + List.length b), [].
    split.
    { apply ReFacts.ms_star_class. exists b. rewrite app_nil_r. auto. }
    apply ms_eol_inv. repeat split. lia.
Qed.

Lemma pipe_not_white : ~ white "|"%char.
Proof. unfold white. vm_compute. discriminate. Qed.

(** White space before a row does not change whether it is a separator. *)
Lemma sepRow_indent w l : Forall white w -> sepRow (w ++ l) <-> sepRow l.
Proof.
  intros Hw. split.
  - induction Hw as [|c w Hc Hw IH]; [auto|]. intros (a & m & b & E & Ha & Hr).
    apply IH. destruct a as [|x a]; simpl in E.
    + inversion E; subst. contradiction pipe_not_white.
    + inversion E; subst. inversion Ha; subst. exists a, m, b. auto.
  - intros (a & m & b & -> & Ha & Hr). exists (w ++ a), m, b.
    rewrite <- app_assoc. split; [reflexivity|].
    split; [apply Forall_app; auto|exact Hr].
Qed.

Lemma test_sepRe_indent w l :
  Forall white (chars w) -> Re.test sepRe (w ++ l) = Re.test sepRe l.
Proof.
  intros Hw. apply bool_eq_iff. rewrite !test_sepRe, chars_app.
  apply sepRow_indent. assumption.
Qed.

Lemma includes_pipe_indent w l :
  Forall white (chars w) -> Js.includes (w ++ l) "|" = Js.includes l "|".
Proof.
  induction w as [|c w IH]; intros Hw; [reflexivity|].
  inversion Hw as [|? ? Hc Hw']; subst.
  change (Js.includes (String c w ++ l) "|")
    with (String.prefix "|" (String c (w ++ l)) || Js.includes (w ++ l) "|").
  rewrite (IH Hw'). cbn [String.prefix].
  destruct (ascii_dec "|" c) as [<-|_]; [contradiction pipe_not_white|reflexivity].
Qed.

(** *** Lines *)

Lemma split_one sep l : occurs sep l = false -> Js.split sep l = [l].
Proof.
  induction l as [|c l IH]; simpl; [reflexivity|].
  intros H. apply orb_false_iff in H. destruct H as [Hc Hl].
  rewrite Hc, (IH Hl). reflexivity.
Qed.

Lemma split_app_sep sep l t :
  occurs sep l = false -> Js.split sep (l ++ String sep t) = l :: Js.split sep t.
Proof.
  induction l as [|c l IH]; simpl.
  - intros _. rewrite Ascii.eqb_refl. reflexivity.
  - intros H. apply orb_false_iff in H. destruct H as [Hc Hl].
    rewrite Hc, (IH Hl). reflexivity.
Qed.

Lemma split_occurs sep s : Forall (fun l => occurs sep l = false) (Js.split sep s).
Proof.
  induction s as [|c s IH]; simpl.
  - repeat constructor.
  - destruct (Ascii.eqb c sep) eqn:E.
    + constructor; [reflexivity|assumption].
    + destruct (Js.split sep s) as [|p ps].
      * repeat constructor. simpl. rewrite E. reflexivity.
      * inversion IH; subst. constructor; [|assumption].
        simpl. rewrite E. assumption.
Qed.

Lemma split_not_nil sep s : Js.split sep s <> [].
Proof.
  destruct s as [|c s]; simpl; [discriminate|].
  destruct (Ascii.eqb c sep); [discriminate|].
  destruct (Js.split sep s); discriminate.
Qed.

(** Joining lines that hold no line feed and splitting again gives the
    lines. *)
Lemma split_join sep ls :
  ls <> [] -> Forall (fun l => occurs sep l = false) ls ->
  Js.split sep (Js.join (String sep EmptyString) ls) = ls.
Proof.
  unfold Js.join. induction ls as [|l ls IH]; intros Hne H; [contradiction|].
  inversion H as [|? ? Hl Hls]; subst.
  destruct ls as [|l2 ls].
  - simpl. apply split_one. assumption.
  - change (String.concat (String sep EmptyString) (l :: l2 :: ls))
      with (l ++ String sep (String.concat (String sep EmptyString) (l2 :: ls)))%string.
    rewrite split_app_sep by assumption.
    rewrite IH; [reflexivity|discriminate|assumption].
Qed.

Lemma occurs_app c a b : occurs c (a ++ b) = occurs c a || occurs c b.
Proof.
  induction a as [|x a IH]; simpl; [reflexivity|].
  rewrite IH. apply orb_assoc.
Qed.

Lemma occurs_drop c n s : occurs c s = false -> occurs c (Js.drop n s) = false.
Proof.
  revert s. induction n as [|n IH]; intros [|x s] H; simpl in *; try assumption.
  apply orb_false_iff in H. apply IH, H.
Qed.

Lemma indent_white w :
  Forall (fun c => isIndent c = true) (chars w) ->
  Forall white (chars w) /\ occurs Js.LF w = false.
Proof.
  induction w as [|c w IH]; simpl; intros H; [split; [constructor|reflexivity]|].
  inversion H as [|? ? Hc Hw]; subst. destruct (IH Hw) as [A B].
  unfold isIndent in Hc. apply andb_true_iff in Hc. destruct Hc as [Hws Hlf].
  split; [constructor; assumption|].
  rewrite B, orb_false_r. apply negb_true_iff. assumption.
Qed.

Lemma existsb_map_in (p : string -> bool) (f : string -> string) ls :
  (forall l, In l ls -> p (f l) = p l) -> existsb p (map f ls) = existsb p ls.
Proof.
  induction ls as [|l ls IH]; intros H; simpl; [reflexivity|].
  rewrite H by (left; reflexivity). rewrite IH; [reflexivity|].
  intros l' Hl'. apply H. right. assumption.
Qed.

(** Detection over lines changed one by one in a way that keeps, for each,
    the pipes and the separator test. *)
Lemma tableDetected_lines (f : string -> string) text :
  (forall l, In l (lines text) ->
     occurs Js.LF (f l) = false
     /\ Js.includes (f l) "|" = Js.includes l "|"
     /\ Re.test sepRe (f l) = Re.test sepRe l) ->
  tableDetected (Js.join nl (map f (lines text))) = tableDetected text.
Proof.
  intros H. unfold tableDetected.
  assert (E : lines (Js.join nl (map f (lines text))) = map f (lines text)).
  { unfold lines at 1, nl. apply split_join.
    - intros Hnil. apply map_eq_nil in Hnil. exact (split_not_nil _ _ Hnil).
    - apply Forall_forall. intros x Hx. apply in_map_iff in Hx.
      destruct Hx as (l & <- & Hl). apply H. assumption. }
  rewrite E. unfold hasPipes, hasSeparator.
  rewrite (existsb_map_in (fun line => Js.includes line "|") f (lines text))
    by (intros l Hl; apply H; assumption).
  rewrite (existsb_map_in (fun line => Re.test sepRe line) f (lines text))
    by (intros l Hl; apply H; assumption).
  reflexivity.
Qed.

(** The same indentation before every line does not change detection. *)
Lemma tableDetected_indent w text :
  Forall (fun c => isIndent c = true) (chars w) ->
  tableDetected (indentText w text) = tableDetected text.
Proof.
  intros Hw. destruct (indent_white w Hw) as [Hws Hlf].
  unfold indentText. apply tableDetected_lines. intros l Hl.
  split; [|split].
  - rewrite occurs_app, Hlf. simpl.
    pose proof (split_occurs Js.LF text) as F.
    rewrite Forall_forall in F. apply F. exact Hl.
  - apply includes_pipe_indent. assumption.
  - apply test_sepRe_indent. assumption.
Qed.

Lemma snd_preprocess text : snd (preprocess text) = tableDetected text.
Proof.
  unfold preprocess, tableDetected.
  destruct (hasPipes (lines text) && hasSeparator (lines text)) eqn:E; simpl.
  - destruct (minIndent (lines text)) as [[|n]|]; reflexivity.
  - destruct (Js.includes text nl); [|reflexivity].
    destruct (minIndent (lines text)) as [[|n]|]; reflexivity.
Qed.

(** *** Dedenting *)

Lemma trimEnd_empty s : Js.trimEnd s = EmptyString -> Forall white (chars s).
Proof.
  induction s as [|c s IH]; simpl; intros H; [constructor|].
  destruct (Js.trimEnd s) eqn:E; [|discriminate].
  destruct (Js.isWhiteSpace c) eqn:Ec; [|discriminate].
  constructor; [exact Ec|apply IH; reflexivity].
Qed.

Lemma trimStart_white s :
  Forall white (chars (Js.trimStart s)) -> Forall white (chars s).
Proof.
  induction s as [|c s IH]; simpl; intros H; [constructor|].
  destruct (Js.isWhiteSpace c) eqn:Ec; [|exact H].
  constructor; [exact Ec|apply IH; exact H].
Qed.

(** A blank line is white space throughout. *)
Lemma blank_white l :
  (String.length (Js.trim l) =? 0) = true -> Forall white (chars l).
Proof.
  intros H. apply Nat.eqb_eq in H. apply trimStart_white, trimEnd_empty.
  unfold Js.trim in H. destruct (Js.trimEnd (Js.trimStart l)); [reflexivity|discriminate].
Qed.

(** What the pattern of the indentation matched is white space. *)
Lemma indentOf_white l : Forall white (firstn (indentOf l) (chars l)).
Proof.
  unfold indentOf.
  destruct (Re.execAt indentRe 0 (chars l)) as [rest|] eqn:E; [|constructor].
  unfold Re.execAt in E. apply ReFacts.run_sound in E.
  destruct E as (p' & s' & Hm & Hk). inversion Hk; subst s'.
  unfold indentRe in Hm. apply ms_seq_inv in Hm. destruct Hm as (p1 & s1 & Hb & Hs).
  inversion Hb; subst.
  apply ReFacts.ms_star_class in Hs. destruct Hs as (a & E & Ha & _).
  rewrite E, length_app, Nat.add_sub, firstn_app, firstn_all, Nat.sub_diag. simpl.
  rewrite app_nil_r. exact Ha.
Qed.

Lemma minIndent_le ls :
  forall acc k, fold_left minStep ls acc = Some k ->
    (forall m, acc = Some m -> k <= m)
    /\ (forall l, In l ls -> (String.length (Js.trim l) =? 0) = false -> k <= indentOf l).
Proof.
  induction ls as [|l ls IH]; intros acc k H; simpl in H.
  - split; [intros m E; rewrite E in H; inversion H; lia|intros l []].
  - destruct (IH _ _ H) as [Hacc Hls]. unfold minStep in Hacc.
    destruct (String.length (Js.trim l) =? 0) eqn:Eb.
    + split; [exact Hacc|]. intros l' [<-|Hl'] Hnb; [congruence|auto].
    + split.
      * intros m ->. specialize (Hacc _ eq_refl). lia.
      * intros l' [<-|Hl'] Hnb; [|auto].
        destruct acc as [m|]; specialize (Hacc _ eq_refl); lia.
Qed.

Lemma Forall_firstn_le (P : ascii -> Prop) k n l :
  k <= n -> Forall P (firstn n l) -> Forall P (firstn k l).
Proof.
  intros Hk H. replace k with (Nat.min k n) by lia.
  rewrite <- firstn_firstn. rewrite <- (firstn_skipn k (firstn n l)) in H.
  apply Forall_app in H. apply H.
Qed.

(** What dedenting removes from a line is white space. *)
Lemma dedent_removes_white ls k l :
  minIndent ls = Some k -> In l ls -> Forall white (firstn k (chars l)).
Proof.
  intros Hmin Hl. destruct (String.length (Js.trim l) =? 0) eqn:Eb.
  - apply blank_white in Eb. rewrite <- (firstn_skipn k (chars l)) in Eb.
    apply Forall_app in Eb. apply Eb.
  - destruct (minIndent_le ls None Hmin) as [_ H].
    apply (Forall_firstn_le (n := indentOf l)); [auto|apply indentOf_white].
Qed.

Lemma dedentLine_split k l :
  k <= String.length l ->
  l = (string_of_list_ascii (firstn k (chars l)) ++ Js.drop k l)%string.
Proof.
  intros _. apply chars_inj.
  rewrite chars_app, list_ascii_of_string_of_list_ascii, chars_drop, firstn_skipn.
  reflexivity.
Qed.

Lemma dedentLine_keeps ls k l :
  minIndent ls = Some k -> In l ls -> occurs Js.LF l = false ->
  occurs Js.LF (dedentLine k l) = false
  /\ Js.includes (dedentLine k l) "|" = Js.includes l "|"
  /\ Re.test sepRe (dedentLine k l) = Re.test sepRe l.
Proof.
  intros Hmin Hl Hlf. unfold dedentLine, Js.sliceFrom.
  destruct (Nat.leb_spec k (String.length l)) as [Hk|Hk]; [|auto].
  pose proof (dedent_removes_white ls l Hmin Hl) as Hw.
  split; [apply occurs_drop; assumption|].
  rewrite (dedentLine_split l Hk) at 2 4.
  rewrite includes_pipe_indent, test_sepRe_indent
    by (rewrite list_ascii_of_string_of_list_ascii; assumption).
  split; reflexivity.
Qed.

(** Detection on the dedented text gives what detection on the text gives. *)
Lemma tableDetected_dedent text :
  tableDetected (fst (preprocess text)) = tableDetected text.
Proof.
  unfold preprocess.
  destruct (hasPipes (lines text) && hasSeparator (lines text) || Js.includes text nl);
    [|reflexivity].
  destruct (minIndent (lines text)) as [[|n]|] eqn:Emin; try reflexivity.
  cbn [fst]. apply tableDetected_lines. intros l Hl.
  apply (dedentLine_keeps (lines text)); try assumption.
  pose proof (split_occurs Js.LF text) as F.
  rewrite Forall_forall in F. apply F. exact Hl.
Qed.

Lemma tableDetected_iff text :
  tableDetected text = true
  <-> (exists line, In line (lines text) /\ Js.includes line "|" = true)
      /\ (exists line, In line (lines text) /\ sepRow (chars line)).
Proof.
  unfold tableDetected, hasPipes, hasSeparator.
  rewrite andb_true_iff, !existsb_exists.
  split; intros [A (line & Hl & Hs)]; (split; [exact A|]); exists line;
    (split; [exact Hl|]); apply test_sepRe; exact Hs.
Qed.

(** C5. A text is detected as a table exactly when one of its lines holds a
    pipe and one of its lines is a separator row; [isTable] is this test on
    the text of the children; a text with the lines [|a|b|] and [|---|---|]
    is a table, one with pipes and no separator row is not. Indentation
    does not defeat detection: writing the same white space before every
    line leaves the result as it is, and so does dedenting (the test on the
    dedented [rawText] gives the result of the test the component runs). *)
Theorem table_detection (text w : string) :
  Forall (fun c => isIndent c = true) (list_ascii_of_string w) ->
  (tableDetected text = true
   <-> (exists line, In line (lines text) /\ Js.includes line "|" = true)
       /\ (exists line, In line (lines text) /\ sepRow (list_ascii_of_string line)))
  /\ (forall children : Node,
        isTable children = tableDetected (getTextFromChildren children))
  /\ tableDetected ("|a|b|" ++ nl ++ "|---|---|") = true
  /\ tableDetected ("|a|b|" ++ nl ++ "|c|d|") = false
  /\ tableDetected (indentText w text) = tableDetected text
  /\ tableDetected (fst (preprocess text)) = tableDetected text.
Proof.
  intros Hw. split; [apply tableDetected_iff|].
  split; [intros children; apply snd_preprocess|].
  split; [vm_compute; reflexivity|].
  split; [vm_compute; reflexivity|].
  split; [apply tableDetected_indent; assumption|apply tableDetected_dedent].
Qed.

Lemma table_detection_witness :
  let text := ("|a|b|" ++ nl ++ "|---|---|" ++ nl ++ "|[x]|[y]|")%string in
  let indented :=
    ("    |a|b|" ++ nl ++ "    |---|---|" ++ nl ++ "    |[x]|[y]|")%string in
  indentText "    " text = indented
  /\ tableDetected indented = true
  /\ isTable (NStr indented) = true.
Proof.
  assert (Hw : Forall (fun c => isIndent c = true) (list_ascii_of_string "    "))
    by (repeat constructor).
  destruct (@table_detection
              ("|a|b|" ++ nl ++ "|---|---|" ++ nl ++ "|[x]|[y]|")%string "    " Hw)
    as (_ & Hkids & _ & _ & Hind & _).
  split; [vm_compute; reflexivity|]. split.
  - change (tableDetected
              (indentText "    " ("|a|b|" ++ nl ++ "|---|---|" ++ nl ++ "|[x]|[y]|"))
            = true).
    rewrite Hind. vm_compute. reflexivity.
  - rewrite Hkids. vm_compute. reflexivity.
Defined.

(** The no-break space U+00A0 is white space to the separator pattern, to
    [trim] and to the pattern of the indent: a table indented with it is
    detected and dedented. *)
Example a_table_indented_with_no_break_spaces :
  let nbsp := String (Js.chr 160) EmptyString in
  let text := (nbsp ++ "|a|b|" ++ nl ++ nbsp ++ "|---|---|")%string in
  isIndent (Js.chr 160) = true
  /\ tableDetected text = true
  /\ preprocess text = (("|a|b|" ++ nl ++ "|---|---|")%string, true).
Proof. vm_compute. repeat split; reflexivity. Qed.

End TableDetection.

(* ================================================================= *)
(** ** Dedenting keeps the bracket tokens *)

Module DedentFacts.
Import Re UseBlanks InlineBlanks Notions.

Local Abbreviation chars := list_ascii_of_string.

(** *** The pattern of a blank, computed *)

Lemma starLoop_scan fuel :
  forall pos s,
    List.length s <= fuel ->
    starLoop (run (R:=list ascii) (Class dot)) false
             (fun p' s' => run (Chr "]") p' s' (fun _ rest => Some rest)) fuel pos s
    = scanClose s.
Proof.
  induction fuel as [|fuel IH]; intros pos s H.
  - destruct s; [reflexivity|simpl in H; lia].
  - destruct s as [|c s]; [reflexivity|].
    cbn [starLoop run scanClose].
    destruct (Ascii.eqb c "]"); [reflexivity|].
    destruct (dot c); [|reflexivity].
    destruct (Nat.eqb_spec (S pos) pos); [lia|].
    apply IH. simpl in H. lia.
Qed.

(** The lazy pattern stops at the first closing bracket. *)
Lemma execAt_blankRe pos s : execAt blankRe pos s = scanOpen s.
Proof.
  unfold execAt, blankRe. destruct s as [|c s]; [reflexivity|].
  cbn [run scanOpen]. destruct (Ascii.eqb c "["); [|reflexivity].
  apply starLoop_scan. lia.
Qed.

Lemma scanClose_suffix s :
  forall r, scanClose s = Some r -> exists m, s = m ++ r /\ m <> [].
Proof.
  induction s as [|c s IH]; intros r H; simpl in H; [discriminate|].
  destruct (Ascii.eqb c "]").
  - inversion H; subst. exists [c]. split; [reflexivity|discriminate].
  - destruct (dot c); [|discriminate].
    destruct (IH r H) as (m & -> & _). exists (c :: m). split; [reflexivity|discriminate].
Qed.

Lemma scanOpen_suffix s r :
  scanOpen s = Some r -> exists m, s = m ++ r /\ 2 <= List.length m.
Proof.
  destruct s as [|c s]; simpl; [discriminate|].
  destruct (Ascii.eqb c "["); [|discriminate].
  intros H. destruct (scanClose_suffix s H) as (m & -> & Hm).
  exists (c :: m). split; [reflexivity|]. destruct m; [contradiction|simpl; lia].
Qed.

Lemma firstn_consumed (m r : list ascii) :
  firstn (List.length (m ++ r) - List.length r) (m ++ r) = m.
Proof.
  rewrite length_app, Nat.add_sub, firstn_app, firstn_all, Nat.sub_diag.
  simpl. apply app_nil_r.
Qed.

(** The split the component computes is the one the relation describes. *)
Lemma splitLoop_Split fuel :
  forall pos s cur,
    List.length s < fuel -> Split s cur (splitLoop blankRe fuel pos s cur).
Proof.
  induction fuel as [|fuel IH]; intros pos s cur H; [lia|].
  cbn [splitLoop]. destruct s as [|c s]; [constructor|].
  rewrite execAt_blankRe. destruct (scanOpen (c :: s)) as [rest|] eqn:E.
  - destruct (scanOpen_suffix _ E) as (m & Em & Hm).
    assert (Hlen : List.length (c :: s) - List.length rest = List.length m).
    { rewrite Em, length_app. lia. }
    assert (Hrest : List.length rest < fuel).
    { rewrite Em, length_app in H. lia. }
    destruct (List.length (c :: s) - List.length rest) as [|n] eqn:En; [lia|].
    rewrite <- En. apply SplitMatch; [exact E|]. apply IH. exact Hrest.
  - apply SplitSkip; [exact E|]. apply IH. simpl in H. lia.
Qed.

(** *** Bracket tokens, on lists *)

Lemma firstIs_rev_cons c x cur :
  cur <> [] -> firstIs c (rev (x :: cur)) = firstIs c (rev cur).
Proof.
  intros H. simpl. destruct (rev cur) as [|a l] eqn:E; [|reflexivity].
  apply (f_equal (@rev ascii)) in E. rewrite rev_involutive in E. contradiction.
Qed.

Lemma drop_length_app (a b : string) : Js.drop (String.length a) (a ++ b) = b.
Proof. induction a as [|c a IH]; simpl; [destruct b; reflexivity|exact IH]. Qed.

Lemma endsWith_snoc (s : string) (c x : ascii) :
  Js.endsWith (s ++ String c EmptyString) (String x EmptyString) = Ascii.eqb c x.
Proof.
  unfold Js.endsWith. rewrite ParserFacts.length_append. simpl String.length.
  replace (String.length s + 1 - 1) with (String.length s) by lia.
  rewrite drop_length_app.
  destruct (Nat.leb_spec 1 (String.length s + 1)); [|lia]. simpl.
  destruct (Ascii.eqb c x); reflexivity.
Qed.

Lemma startsWith_char (p : list ascii) (x : ascii) :
  Js.startsWith (string_of_list_ascii p) (String x EmptyString) = firstIs x p.
Proof.
  destruct p as [|c p]; [reflexivity|]. unfold Js.startsWith. cbn [string_of_list_ascii String.prefix firstIs].
  destruct (ascii_dec x c) as [->|N].
  - rewrite Ascii.eqb_refl. destruct (string_of_list_ascii p); reflexivity.
  - destruct (Ascii.eqb_spec c x); [congruence|reflexivity].
Qed.

Lemma endsWith_char (p : list ascii) (x : ascii) :
  Js.endsWith (string_of_list_ascii p) (String x EmptyString) = firstIs x (rev p).
Proof.
  induction p as [|c p _] using rev_ind; [reflexivity|].
  rewrite ReFacts.string_of_list_ascii_app, rev_app_distr. simpl.
  apply endsWith_snoc.
Qed.

Lemma isBlankToken_tokL (p : list ascii) :
  isBlankToken (string_of_list_ascii p) = tokL p.
Proof.
  unfold isBlankToken, tokL. rewrite startsWith_char, endsWith_char. reflexivity.
Qed.

Lemma countTokens_cons p out :
  countTokens (p :: out) = (if tokL p then 1 else 0) + countTokens out.
Proof. unfold countTokens. simpl. destruct (tokL p); reflexivity. Qed.

(** *** Pieces of a text and of its dedented form *)

Lemma indent_not_bracket c :
  isIndent c = true -> Ascii.eqb c "[" = false /\ Ascii.eqb c "]" = false.
Proof.
  intros H. split.
  - destruct (Ascii.eqb_spec c "["); [subst; vm_compute in H; discriminate|reflexivity].
  - destruct (Ascii.eqb_spec c "]"); [subst; vm_compute in H; discriminate|reflexivity].
Qed.

Lemma aligned_tok b cur cur' s s' :
  aligned b cur cur' s s' -> tokL (rev cur) = tokL (rev cur').
Proof.
  intros (A1 & A2 & _). unfold tokL. rewrite !rev_involutive, A1, A2. reflexivity.
Qed.

Lemma aligned_fresh (s s' : list ascii) : aligned false [] [] s s'.
Proof.
  unfold aligned. repeat split; try reflexivity; try discriminate; contradiction.
Qed.

Lemma aligned_keep b b' c cur cur' s s' :
  aligned b cur cur' (c :: s) (c :: s') ->
  (b' = true -> Ascii.eqb c "]" = false) ->
  aligned b' (c :: cur) (c :: cur') s s'.
Proof.
  intros (A1 & A2 & A3 & A4 & A5 & A6) Hc. unfold aligned.
  split; [|split; [reflexivity|split; [exact Hc|repeat split; discriminate]]].
  destruct cur as [|x cur], cur' as [|x' cur'].
  - reflexivity.
  - specialize (A4 eq_refl). discriminate.
  - destruct (A5 eq_refl) as [B1 B2]; [discriminate|].
    rewrite firstIs_rev_cons by discriminate. rewrite B2. simpl in *.
    symmetry. exact B1.
  - rewrite (@firstIs_rev_cons "[" c (x :: cur)) by discriminate.
    rewrite (@firstIs_rev_cons "[" c (x' :: cur')) by discriminate. exact A1.
Qed.

Lemma aligned_skip c cur cur' s s' :
  isIndent c = true ->
  aligned true cur cur' (c :: s) s' ->
  aligned true (c :: cur) cur' s s'.
Proof.
  intros Hc (A1 & A2 & A3 & A4 & A5 & A6).
  destruct (indent_not_bracket c Hc) as [No Nc]. unfold aligned.
  split; [|split; [|split; [exact A3|split; [discriminate|split]]]].
  - destruct cur as [|x cur].
    + rewrite (A4 eq_refl). simpl. exact No.
    + rewrite firstIs_rev_cons by discriminate. exact A1.
  - simpl. rewrite Nc. symmetry. apply A3. reflexivity.
  - intros E _. destruct cur as [|x cur].
    + destruct (A6 E eq_refl eq_refl) as [B|B].
      * split; [exact B|simpl; exact No].
      * simpl in B. congruence.
    + destruct (A5 E) as [B1 B2]; [discriminate|].
      split; [exact B1|]. rewrite firstIs_rev_cons by discriminate. exact B2.
  - intros _ E. discriminate.
Qed.

(** Inside a line, the text and its dedented form close a bracket at the
    same place or not at all. *)
Lemma scanClose_Ded s :
  forall s', Ded false s s' ->
    (scanClose s = None /\ scanClose s' = None)
    \/ (exists m r r',
          scanClose s = Some r /\ scanClose s' = Some r'
          /\ s = m ++ r /\ s' = m ++ r' /\ Ded false r r').
Proof.
  induction s as [|c s IH]; intros s' H; inversion H; subst.
  - left. split; reflexivity.
  - cbn [scanClose]. destruct (Ascii.eqb c "]").
    + right. exists [c], s, s'0. repeat split. assumption.
    + destruct (dot c); [|left; split; reflexivity].
      match goal with D : Ded false s _ |- _ => destruct (IH _ D) as [[E1 E2]|(m & r & r' & E1 & E2 & -> & -> & D')] end.
      * left. split; assumption.
      * right. exists (c :: m), r, r'. repeat split; assumption.
  - left. split; reflexivity.
Qed.

Lemma Split_nil_inv cur out : Split [] cur out -> out = [rev cur].
Proof. intros H. inversion H; subst. reflexivity. Qed.

Lemma Split_skip_inv c s cur out :
  scanOpen (c :: s) = None -> Split (c :: s) cur out -> Split s (c :: cur) out.
Proof. intros E H. inversion H; subst; [assumption|congruence]. Qed.

Lemma Split_match_inv c s cur rest out :
  scanOpen (c :: s) = Some rest -> Split (c :: s) cur out ->
  exists out1,
    out = rev cur :: firstn (List.length (c :: s) - List.length rest) (c :: s) :: out1
    /\ Split rest [] out1.
Proof.
  intros E H. inversion H; subst; [congruence|].
  match goal with E0 : scanOpen _ = Some _ |- _ =>
    rewrite E in E0; inversion E0; subst end.
  eexists. split; [reflexivity|assumption].
Qed.

Lemma scanOpen_Ded c s s' :
  Ded false s s' ->
  (scanOpen (c :: s) = None /\ scanOpen (c :: s') = None)
  \/ (exists m r r',
        scanOpen (c :: s) = Some r /\ scanOpen (c :: s') = Some r'
        /\ c :: s = m ++ r /\ c :: s' = m ++ r' /\ Ded false r r').
Proof.
  intros D. simpl. destruct (Ascii.eqb c "["); [|left; split; reflexivity].
  destruct (scanClose_Ded D) as [H|(m & r & r' & E1 & E2 & -> & -> & D')];
    [left; exact H|].
  right. exists (c :: m), r, r'. repeat split; assumption.
Qed.

(** The parts of a text and those of its dedented form hold the same number
    of bracket tokens. *)
Lemma split_Ded n :
  forall s, List.length s <= n ->
  forall b s' cur cur' out out',
    Ded b s s' -> aligned b cur cur' s s' ->
    Split s cur out -> Split s' cur' out' ->
    countTokens out = countTokens out'.
Proof.
  induction n as [|n IH]; intros s Hn b s' cur cur' out out' HD HA HS HS'.
  - destruct s; [|simpl in Hn; lia]. inversion HD; subst.
    apply Split_nil_inv in HS. apply Split_nil_inv in HS'. subst.
    rewrite !countTokens_cons, (aligned_tok HA). reflexivity.
  - destruct HD as [b|c s s' Hc D|b c s s' Hc D|b s s' D].
    + apply Split_nil_inv in HS. apply Split_nil_inv in HS'. subst.
      rewrite !countTokens_cons, (aligned_tok HA). reflexivity.
    + (* indentation removed *)
      destruct (indent_not_bracket c Hc) as [No _].
      assert (E : scanOpen (c :: s) = None) by (simpl; rewrite No; reflexivity).
      apply (Split_skip_inv E) in HS.
      apply (IH s ltac:(simpl in Hn; lia) true s' (c :: cur) cur' out out' D);
        [apply aligned_skip; assumption|assumption|assumption].
    + (* a character of the line *)
      destruct (scanOpen_Ded c D)
        as [[E E']|(m & r & r' & E & E' & Em & Em' & D')].
      * apply (Split_skip_inv E) in HS. apply (Split_skip_inv E') in HS'.
        apply (IH s ltac:(simpl in Hn; lia) false s' (c :: cur) (c :: cur') out out' D);
          [|assumption|assumption].
        eapply aligned_keep; [exact HA|discriminate].
      * destruct (Split_match_inv E HS) as (out1 & -> & H1).
        destruct (Split_match_inv E' HS') as (out1' & -> & H1').
        rewrite !countTokens_cons, (aligned_tok HA).
        rewrite Em, Em', !firstn_consumed.
        f_equal. f_equal.
        destruct (scanOpen_suffix _ E) as (m0 & Em0 & Hm0).
        apply (IH r) with (b := false) (s' := r') (cur := []) (cur' := []);
          [|assumption|apply aligned_fresh|assumption|assumption].
        rewrite Em0, length_app in Hn. lia.
    + (* a line feed *)
      assert (E : scanOpen (Js.LF :: s) = None) by reflexivity.
      assert (E' : scanOpen (Js.LF :: s') = None) by reflexivity.
      apply (Split_skip_inv E) in HS. apply (Split_skip_inv E') in HS'.
      apply (IH s ltac:(simpl in Hn; lia) true s' (Js.LF :: cur) (Js.LF :: cur') out out' D);
        [|assumption|assumption].
      eapply aligned_keep; [exact HA|reflexivity].
Qed.

(** *** The dedented text *)

Lemma Ded_refl s : forall b, Ded b s s.
Proof.
  induction s as [|c s IH]; intros b; [constructor|].
  destruct (Ascii.eqb_spec c Js.LF) as [->|N]; [apply DLine|apply DKeep]; auto.
Qed.

Lemma Ded_keep x r r' :
  ~ In Js.LF x -> (forall b, Ded b r r') -> forall b, Ded b (x ++ r) (x ++ r').
Proof.
  induction x as [|c x IH]; intros Hx H b; simpl; [apply H|].
  apply DKeep.
  - intros ->. apply Hx. left. reflexivity.
  - apply IH; [|exact H]. intros Hin. apply Hx. right. exact Hin.
Qed.

Lemma Ded_skip w r r' :
  Forall (fun c => isIndent c = true) w -> Ded true r r' -> Ded true (w ++ r) r'.
Proof.
  induction 1 as [|c w Hc _ IH]; intros H; simpl; [exact H|].
  apply DSkip; [exact Hc|apply IH; exact H].
Qed.

Lemma in_firstn (c : ascii) k l : In c (firstn k l) -> In c l.
Proof. intros H. rewrite <- (firstn_skipn k l). apply in_or_app. left. exact H. Qed.

Lemma in_skipn (c : ascii) k l : In c (skipn k l) -> In c l.
Proof. intros H. rewrite <- (firstn_skipn k l). apply in_or_app. right. exact H. Qed.

Lemma Ded_line k l r r' :
  occurs Js.LF l = false ->
  (k <= String.length l -> Forall white (firstn k (chars l))) ->
  (forall b, Ded b r r') ->
  forall b, b = true -> Ded b (chars l ++ r) (chars (dedentLine k l) ++ r').
Proof.
  intros Hlf Hw H b ->. apply TableDetection.occurs_chars in Hlf.
  unfold dedentLine, Js.sliceFrom.
  destruct (Nat.leb_spec k (String.length l)) as [Hk|Hk].
  - rewrite TableDetection.chars_drop.
    rewrite <- (firstn_skipn k (chars l)) at 1. rewrite <- app_assoc.
    apply Ded_skip.
    + specialize (Hw Hk). apply Forall_forall. intros c Hc.
      rewrite Forall_forall in Hw. unfold isIndent. rewrite (Hw c Hc). simpl.
      apply negb_true_iff. destruct (Ascii.eqb_spec c Js.LF) as [->|]; [|reflexivity].
      exfalso. apply Hlf. apply (@in_firstn _ k _ Hc).
    + apply Ded_keep; [|exact H]. intros Hin. apply Hlf.
      apply (@in_skipn _ k _ Hin).
  - apply Ded_keep; [exact Hlf|exact H].
Qed.

Lemma concat_cons_char sep c p ps :
  String.concat sep (String c p :: ps) = String c (String.concat sep (p :: ps)).
Proof. destruct ps; reflexivity. Qed.

(** Joining the lines of a text gives the text. *)
Lemma join_split sep s :
  Js.join (String sep EmptyString) (Js.split sep s) = s.
Proof.
  unfold Js.join. induction s as [|c s IH]; [reflexivity|].
  cbn [Js.split]. destruct (Ascii.eqb_spec c sep) as [->|N].
  - destruct (Js.split sep s) as [|p ps] eqn:E;
      [exfalso; exact (TableDetection.split_not_nil _ _ E)|].
    cbn [String.concat]. simpl. rewrite <- IH. reflexivity.
  - destruct (Js.split sep s) as [|p ps] eqn:E;
      [exfalso; exact (TableDetection.split_not_nil _ _ E)|].
    rewrite concat_cons_char, IH. reflexivity.
Qed.

Lemma Ded_lines k ls :
  ls <> [] ->
  (forall l, In l ls ->
     occurs Js.LF l = false
     /\ (k <= String.length l -> Forall white (firstn k (chars l)))) ->
  Ded true (chars (Js.join nl ls)) (chars (Js.join nl (map (dedentLine k) ls))).
Proof.
  unfold Js.join. induction ls as [|l ls IH]; intros Hne H; [contradiction|].
  destruct (H l (or_introl eq_refl)) as [Hlf Hw].
  destruct ls as [|l2 ls].
  - simpl. rewrite <- (app_nil_r (chars l)), <- (app_nil_r (chars (dedentLine k l))).
    apply Ded_line; auto. intros b. constructor.
  - change (String.concat nl (l :: l2 :: ls))
      with (l ++ String Js.LF (String.concat nl (l2 :: ls)))%string.
    change (String.concat nl (map (dedentLine k) (l :: l2 :: ls)))
      with (dedentLine k l
            ++ String Js.LF (String.concat nl (map (dedentLine k) (l2 :: ls))))%string.
    rewrite !TableDetection.chars_app. simpl.
    apply Ded_line; auto. intros b. apply DLine.
    apply IH; [discriminate|]. intros l' Hl'. apply H. right. exact Hl'.
Qed.

(** The dedented [rawText] is the text without indentation at the start of
    its lines. *)
Lemma preprocess_Ded text : Ded true (chars text) (chars (fst (preprocess text))).
Proof.
  unfold preprocess.
  destruct (hasPipes (lines text) && hasSeparator (lines text) || Js.includes text nl);
    [|apply Ded_refl].
  destruct (minIndent (lines text)) as [[|n]|] eqn:Emin; try apply Ded_refl.
  cbn [fst]. rewrite <- (join_split Js.LF text) at 1.
  apply Ded_lines; [apply TableDetection.split_not_nil|].
  intros l Hl. split.
  - pose proof (TableDetection.split_occurs Js.LF text) as F.
    rewrite Forall_forall in F. apply F. exact Hl.
  - intros _. exact (TableDetection.dedent_removes_white (lines text) l Emin Hl).
Qed.

Lemma splitBlanks_list s :
  splitBlanks s
  = map string_of_list_ascii
        (splitLoop blankRe (2 * List.length (chars s) + 1) 0 (chars s) []).
Proof.
  unfold splitBlanks, splitCapture. destruct (chars s) eqn:E; reflexivity.
Qed.

Lemma tokens_of_split s :
  List.length (filter isBlankToken (splitBlanks s))
  = countTokens (splitLoop blankRe (2 * List.length (chars s) + 1) 0 (chars s) []).
Proof.
  rewrite splitBlanks_list. unfold countTokens.
  induction (splitLoop blankRe _ 0 (chars s) []) as [|p out IH]; [reflexivity|].
  simpl. rewrite isBlankToken_tokL. destruct (tokL p); simpl; rewrite IH; reflexivity.
Qed.

(** Unless dedenting makes the text start with a bracket, the dedented text
    has as many bracket tokens as the text. *)
Lemma dedent_keeps_tokens text :
  firstIs "[" (chars (fst (preprocess text))) = false
  \/ firstIs "[" (chars text) = true ->
  List.length (filter isBlankToken (splitBlanks (fst (preprocess text))))
  = List.length (filter isBlankToken (splitBlanks text)).
Proof.
  intros H. rewrite !tokens_of_split. symmetry.
  eapply (@split_Ded (List.length (chars text)) (chars text)); [lia|apply preprocess_Ded| |apply splitLoop_Split; lia|apply splitLoop_Split; lia].
  unfold aligned. repeat split; try reflexivity; try contradiction.
  intros _ _ _. exact H.
Qed.

Lemma startsWith_chars (s : string) (x : ascii) :
  Js.startsWith s (String x EmptyString) = firstIs x (chars s).
Proof.
  rewrite <- (string_of_list_ascii_of_string s) at 1. apply startsWith_char.
Qed.

(** The same, on the memo of the component. *)
Lemma dedent_keeps_blank_count text :
  Js.startsWith (fst (preprocess text)) "[" = false
  \/ Js.startsWith text "[" = true ->
  List.length (filter isBlankToken (splitBlanks (fst (preprocess text))))
  = List.length (parseBlanks text).
Proof.
  rewrite !startsWith_chars. intros H.
  rewrite (dedent_keeps_tokens text H). unfold parseBlanks.
  symmetry. apply length_map.
Qed.

End DedentFacts.

(* ================================================================= *)
(** ** The table path: placeholders and their resolution *)

Module TableFacts.
Import UseBlanks InlineBlanks Notions.

Lemma markers_seq parts k :
  markers parts k = seq k (List.length (filter isBlankToken parts)).
Proof.
  revert k. induction parts as [|part parts IH]; intros k; simpl; [reflexivity|].
  destruct (isBlankToken part); simpl; rewrite IH; reflexivity.
Qed.

Lemma markup_weave parts k :
  markup parts k = weave parts (map placeholder (markers parts k)).
Proof.
  revert k. induction parts as [|part parts IH]; intros k; simpl; [reflexivity|].
  destruct (isBlankToken part); simpl; rewrite IH; reflexivity.
Qed.

Lemma parseBlanks_length text :
  List.length (parseBlanks text) = List.length (filter isBlankToken (splitBlanks text)).
Proof. unfold parseBlanks. apply length_map. Qed.

(** *** Reading back the index a placeholder carries *)

Lemma parseDigits_digit c s acc d :
  Js.digitValue c = Some d ->
  Js.parseDigits (String c s) acc
  = Js.parseDigits s (Some (10 * match acc with Some a => a | None => 0 end + d)).
Proof. intros H. cbn [Js.parseDigits]. rewrite H. reflexivity. Qed.

Lemma parseDigits_acc d acc :
  Js.parseDigits (DecimalString.NilEmpty.string_of_uint d) (Some acc)
  = Some (Nat.of_uint_acc d acc).
Proof.
  revert acc. induction d; intros acc; cbn [DecimalString.NilEmpty.string_of_uint];
    [reflexivity|..];
    erewrite parseDigits_digit by reflexivity;
    rewrite IHd; cbn [Nat.of_uint_acc]; rewrite Nat.tail_mul_spec;
    digit_value; f_equal; f_equal; lia.
Qed.

Lemma parseDigits_uint d :
  d <> Decimal.Nil ->
  Js.parseDigits (DecimalString.NilEmpty.string_of_uint d) None = Some (Nat.of_uint d).
Proof.
  intros Hd. unfold Nat.of_uint.
  destruct d; [contradiction|..];
    cbn [DecimalString.NilEmpty.string_of_uint];
    erewrite parseDigits_digit by reflexivity;
    rewrite parseDigits_acc; cbn [Nat.of_uint_acc]; rewrite Nat.tail_mul_spec;
    digit_value; f_equal; f_equal; lia.
Qed.

Lemma to_uint_not_nil n : Nat.to_uint n <> Decimal.Nil.
Proof.
  intros H. pose proof (DecimalNat.Unsigned.of_to n) as E. rewrite H in E.
  simpl in E. subst n. discriminate.
Qed.

Lemma parseInt_digits d :
  d <> Decimal.Nil ->
  Js.parseInt (DecimalString.NilEmpty.string_of_uint d)
  = option_map Z.of_nat (Js.parseDigits (DecimalString.NilEmpty.string_of_uint d) None).
Proof.
  intros Hd. destruct d as [|d|d|d|d|d|d|d|d|d|d]; [contradiction|..];
    try reflexivity.
  destruct d; reflexivity.
Qed.

(** [parseInt] reads back the index a placeholder was written with. *)
Lemma parseInt_natToString k : Js.parseInt (Js.natToString k) = Some (Z.of_nat k).
Proof.
  unfold Js.natToString.
  rewrite parseInt_digits by apply to_uint_not_nil.
  rewrite parseDigits_uint by apply to_uint_not_nil.
  rewrite DecimalNat.Unsigned.of_to. reflexivity.
Qed.

Lemma lookupData_index data k :
  lookupData data (Some (Z.of_nat k)) = nth_error data k.
Proof.
  unfold lookupData. destruct (Z.ltb_spec (Z.of_nat k) 0); [lia|].
  rewrite Nat2Z.id. reflexivity.
Qed.




End TableFacts.

(* ================================================================= *)
(** ** The closures held across renders *)

Module ReachFacts.
Import UseBlanks InlineBlanks Notions Component Reach.

Lemma dispatch_bounded children e st :
  boundedRefs st ->
  boundedRefs (dispatch children e st) /\ nextRef st <= nextRef (dispatch children e st).
Proof.
  unfold boundedRefs. intros (A & B & C & D).
  destruct e; simpl; repeat split; lia.
Qed.

(** A dependency that was replaced has a stamp the function held has never
    seen, so the function held is always the one of the present
    dependencies. *)
Lemma step_current children inst e :
  boundedRefs (state inst) -> current children inst ->
  current children (UseBlanks.step children inst e).
Proof.
  unfold boundedRefs, current. intros (A & B & C & D) (E & F & G & H).
  unfold UseBlanks.step, rerender. cbn [memo state].
  destruct (sameDeps (memo inst) (dispatch children e (state inst))) eqn:S;
    [|repeat split; reflexivity].
  unfold sameDeps in S.
  apply andb_prop in S. destruct S as [S S3].
  apply andb_prop in S. destruct S as [S1 S2].
  apply Nat.eqb_eq in S1. apply Nat.eqb_eq in S3. apply Bool.eqb_prop in S2.
  rewrite F in S1. rewrite H in S3.
  destruct e; simpl in *; try lia; repeat split; congruence.
Qed.

Lemma initial_bounded n : boundedRefs (initialState n).
Proof. unfold boundedRefs. simpl. lia. Qed.

Lemma mount_current children : current children (UseBlanks.mount children).
Proof. unfold current. simpl. repeat split; reflexivity. Qed.

Lemma fold_hook_inv children es :
  forall inst,
    boundedRefs (state inst) -> current children inst ->
    boundedRefs (state (fold_left (UseBlanks.step children) es inst))
    /\ current children (fold_left (UseBlanks.step children) es inst).
Proof.
  induction es as [|e es IH]; intros inst B C; [split; assumption|].
  simpl. apply IH.
  - apply (dispatch_bounded children e B).
  - apply step_current; assumption.
Qed.

Lemma runHook_inv children es :
  boundedRefs (state (runHook children es)) /\ current children (runHook children es).
Proof.
  apply fold_hook_inv; [apply initial_bounded|apply mount_current].
Qed.

Lemma hook_fold cfg children es :
  forall inst,
    hook (fold_left (Component.step cfg children) es inst)
    = fold_left (UseBlanks.step children) es (hook inst).
Proof.
  induction es as [|e es IH]; intros inst; [reflexivity|].
  simpl. rewrite IH. reflexivity.
Qed.

Lemma hook_run cfg children es : hook (run cfg children es) = runHook children es.
Proof. apply hook_fold. Qed.

Lemma step_currentBlank cfg children inst e :
  boundedRefs (state (hook inst)) -> currentBlank inst ->
  currentBlank (Component.step cfg children inst e).
Proof.
  unfold boundedRefs, currentBlank. intros (A & B & C & D) (E & F).
  unfold Component.step, UseBlanks.step, rerender. cbn [hook blank state].
  destruct (sameBlankDeps cfg (blank inst) (dispatch children e (state (hook inst))))
    eqn:S; [|split; reflexivity].
  unfold sameBlankDeps in S.
  apply andb_prop in S. destruct S as [S S2].
  apply andb_prop in S. destruct S as [_ S1].
  apply Nat.eqb_eq in S1. apply Nat.eqb_eq in S2.
  rewrite E in S1. rewrite F in S2.
  destruct e; simpl in *; try lia; split; congruence.
Qed.

Lemma fold_blank_inv cfg children es :
  forall inst,
    boundedRefs (state (hook inst)) -> currentBlank inst ->
    currentBlank (fold_left (Component.step cfg children) es inst).
Proof.
  induction es as [|e es IH]; intros inst B C; [assumption|].
  simpl. apply IH.
  - apply (dispatch_bounded children e B).
  - apply step_currentBlank; assumption.
Qed.

Lemma run_currentBlank cfg children es : currentBlank (run cfg children es).
Proof.
  apply fold_blank_inv; [apply initial_bounded|split; reflexivity].
Qed.

(** *** Renders that throw *)

Lemma life_snoc children es e :
  UseBlanks.life children (es ++ [e]) = UseBlanks.next children (UseBlanks.life children es) e.
Proof. unfold UseBlanks.life. rewrite fold_left_app. reflexivity. Qed.

(** An instance that is still there is the one the events lead to, and its
    last render did not throw. *)
Lemma life_runHook children es :
  forall inst,
    UseBlanks.life children es = Ok inst ->
    inst = runHook children es /\ throws children inst = false.
Proof.
  induction es as [|e es IH] using rev_ind; intros inst H.
  - unfold UseBlanks.life, UseBlanks.render in H. cbn [fold_left] in H.
    destruct (throws children (UseBlanks.mount children)) eqn:T; [discriminate|].
    injection H as <-. split; [reflexivity|exact T].
  - rewrite life_snoc in H. unfold UseBlanks.next in H.
    destruct (UseBlanks.life children es) as [inst0|]; [|discriminate].
    destruct (IH inst0 eq_refl) as [E _].
    unfold UseBlanks.render in H.
    destruct (throws children (UseBlanks.step children inst0 e)) eqn:T; [discriminate|].
    injection H as <-. split; [|exact T].
    rewrite E. unfold runHook. rewrite fold_left_app. reflexivity.
Qed.

Lemma life_prefix children es e inst :
  UseBlanks.life children (es ++ [e]) = Ok inst ->
  UseBlanks.life children es = Ok (runHook children es).
Proof.
  rewrite life_snoc. unfold UseBlanks.next.
  destruct (UseBlanks.life children es) as [inst0|] eqn:L; [|discriminate].
  intros _. destruct (life_runHook children es L) as [-> _]. reflexivity.
Qed.

Lemma component_life_snoc cfg children es e :
  Component.life cfg children (es ++ [e])
  = Component.next cfg children (Component.life cfg children es) e.
Proof. unfold Component.life. rewrite fold_left_app. reflexivity. Qed.

Lemma life_run cfg children es :
  forall inst,
    Component.life cfg children es = Ok inst ->
    inst = run cfg children es /\ throws children (hook inst) = false.
Proof.
  induction es as [|e es IH] using rev_ind; intros inst H.
  - unfold Component.life, Component.render in H. cbn [fold_left] in H.
    destruct (throws children (hook (Component.mount children))) eqn:T; [discriminate|].
    injection H as <-. split; [reflexivity|exact T].
  - rewrite component_life_snoc in H. unfold Component.next in H.
    destruct (Component.life cfg children es) as [inst0|]; [|discriminate].
    destruct (IH inst0 eq_refl) as [E _].
    unfold Component.render in H.
    destruct (throws children (hook (Component.step cfg children inst0 e))) eqn:T;
      [discriminate|].
    injection H as <-. split; [|exact T].
    rewrite E. unfold run. rewrite fold_left_app. reflexivity.
Qed.

End ReachFacts.

(* ================================================================= *)
(** ** What the walker does with the tokens *)

Module AccountingFacts.
Import UseBlanks InlineBlanks Notions Component Reach.

Lemma blanksIn_app a b : blanksIn (a ++ b) = blanksIn a ++ blanksIn b.
Proof. apply flat_map_app. Qed.

Lemma literalIn_app a b : literalIn (a ++ b) = literalIn a + literalIn b.
Proof. unfold literalIn. rewrite map_app. apply list_sum_app. Qed.

Lemma literalIn_cons o os : literalIn (o :: os) = literalTokens o + literalIn os.
Proof. reflexivity. Qed.

Lemma tokenCount_cons part parts :
  tokenCount (part :: parts)
  = (if isBlankToken part then 1 else 0) + tokenCount parts.
Proof. unfold tokenCount. simpl. destruct (isBlankToken part); reflexivity. Qed.

Lemma processParts_accounted env parts :
  forall c, accounted env (tokenCount parts) c (processParts env parts c).
Proof.
  induction parts as [|part parts IH]; intros c; unfold accounted, taken in *.
  - exists []. change (tokenCount []) with 0.
    rewrite Nat.min_0_r, Nat.add_0_r. repeat split; constructor.
  - rewrite tokenCount_cons. cbn [processParts].
    destruct (isBlankToken part) eqn:T.
    + destruct (Nat.leb_spec (List.length (c_blanksData env)) c) as [Hle|Hlt].
      * destruct (IH c) as (os & E & I & F & L). rewrite E.
        exists (OText part :: os).
        replace (Nat.min (List.length (c_blanksData env) - c) (1 + tokenCount parts))
          with 0 by lia.
        replace (Nat.min (List.length (c_blanksData env) - c) (tokenCount parts))
          with 0 in * by lia.
        repeat split; try assumption; try reflexivity.
        rewrite literalIn_cons. cbn [literalTokens]. rewrite T. lia.
      * destruct (nth_error (c_blanksData env) c) as [data|] eqn:N;
          [|apply nth_error_None in N; lia].
        destruct (IH (S c)) as (os & E & I & F & L). rewrite E.
        exists (OBlank c data (deriveStatus env data c) :: os).
        replace (Nat.min (List.length (c_blanksData env) - c) (1 + tokenCount parts))
          with (S (Nat.min (List.length (c_blanksData env) - S c) (tokenCount parts)))
          by lia.
        repeat split.
        -- cbn iota beta. f_equal. f_equal. lia.
        -- cbn. f_equal. exact I.
        -- constructor; [split; [exact N|reflexivity]|exact F].
        -- rewrite literalIn_cons. cbn [literalTokens]. lia.
    + destruct (IH c) as (os & E & I & F & L). rewrite E.
      exists (OText part :: os). repeat split; try assumption; try reflexivity.
      rewrite literalIn_cons. cbn [literalTokens]. rewrite T. lia.
Qed.

Lemma accounted_seq env t1 t2 c o1 o2 :
  let c1 := c + taken env t1 c in
  map indexOf (blanksIn o1) = seq c (taken env t1 c) ->
  Forall (derived env) (blanksIn o1) ->
  literalIn o1 = t1 - taken env t1 c ->
  map indexOf (blanksIn o2) = seq c1 (taken env t2 c1) ->
  Forall (derived env) (blanksIn o2) ->
  literalIn o2 = t2 - taken env t2 c1 ->
  c1 + taken env t2 c1 = c + taken env (t1 + t2) c
  /\ map indexOf (blanksIn (o1 ++ o2)) = seq c (taken env (t1 + t2) c)
  /\ Forall (derived env) (blanksIn (o1 ++ o2))
  /\ literalIn (o1 ++ o2) = t1 + t2 - taken env (t1 + t2) c.
Proof.
  intros c1 I1 F1 L1 I2 F2 L2. subst c1. unfold taken in *.
  assert (M : Nat.min (List.length (c_blanksData env) - c) (t1 + t2)
              = Nat.min (List.length (c_blanksData env) - c) t1
                + Nat.min (List.length (c_blanksData env)
                           - (c + Nat.min (List.length (c_blanksData env) - c) t1)) t2)
    by lia.
  rewrite M. repeat split.
  - lia.
  - rewrite blanksIn_app, map_app, I1, I2, seq_app. reflexivity.
  - rewrite blanksIn_app. apply Forall_app. split; assumption.
  - rewrite literalIn_app, L1, L2. lia.
Qed.

Lemma processNode_accounted env node :
  forall c, accounted env (tokensIn node) c (processNode env node c).
Proof.
  induction node as [s|n|items IH|type children IH| |b] using WalkerFacts.Node_induction;
    intros c; cbn [processNode tokensIn].
  - apply processParts_accounted.
  - exists [ONumber n]. unfold taken. rewrite Nat.min_0_r, Nat.add_0_r.
    repeat split; constructor.
  - revert c. induction IH as [|x items Hx _ IHitems]; intros c.
    + exists []. unfold taken. cbn [map list_sum]. rewrite Nat.min_0_r, Nat.add_0_r.
      repeat split; constructor.
    + cbn [map list_sum].
      destruct (Hx c) as (o1 & E1 & I1 & F1 & L1). rewrite E1.
      destruct (IHitems (c + taken env (tokensIn x) c)) as (o2 & E2 & I2 & F2 & L2).
      rewrite E2.
      destruct (@accounted_seq env (tokensIn x) (list_sum (map tokensIn items)) c o1 o2
                  I1 F1 L1 I2 F2 L2) as (A & B & C & D).
      exists (o1 ++ o2). rewrite A. repeat split; assumption.
  - destruct (truthy children).
    + destruct (IH c) as (os & E & I & F & L). rewrite E.
      exists [OClone type os]. repeat split.
      * unfold blanksIn in *. cbn [flat_map blanksOf]. rewrite app_nil_r. exact I.
      * unfold blanksIn in *. cbn [flat_map blanksOf]. rewrite app_nil_r. exact F.
      * rewrite literalIn_cons. cbn [literalTokens]. fold (literalIn os). unfold literalIn at 2. cbn. lia.
    + exists [OSame (NElem type children)]. unfold taken.
      rewrite Nat.min_0_r, Nat.add_0_r. repeat split; constructor.
  - exists []. unfold taken. rewrite Nat.min_0_r, Nat.add_0_r. repeat split; constructor.
  - exists []. unfold taken. rewrite Nat.min_0_r, Nat.add_0_r. repeat split; constructor.
Qed.

(** X3. The walker accounts for every bracket token of the node: started with
    the counter [c], it never throws; of the tokens it meets, in the order
    of the tree, the first [min (blanksData.length - c) tokens] become the
    blanks [c], [c+1], ..., each rendered with the data of its index and the
    status derived for it, and the counter ends after the last of them; the
    other tokens stay in the output as text. *)
Theorem walk_accounts_for_every_token (env : Closure) (node : Node) (c : nat) :
  let m := Nat.min (List.length (c_blanksData env) - c) (tokensIn node) in
  exists os,
    processNode env node c = Ok (os, c + m)
    /\ map indexOf (blanksIn os) = seq c m
    /\ Forall (derived env) (blanksIn os)
    /\ literalIn os = tokensIn node - m.
Proof. exact (processNode_accounted env node c). Qed.

Lemma datas_of_seq env (l : list (nat * BlankData * Status.t)) :
  forall c,
    map indexOf l = seq c (List.length l) ->
    Forall (derived env) l ->
    map dataOf l = firstn (List.length l) (skipn c (c_blanksData env)).
Proof.
  induction l as [|b l IH]; intros c I F; [reflexivity|].
  inversion F as [|? ? [N _] F']; subst.
  cbn [map List.length seq] in I. injection I as I0 I.
  rewrite I0 in N.
  assert (S : skipn c (c_blanksData env) = dataOf b :: skipn (S c) (c_blanksData env)).
  { clear - N. revert N. generalize (c_blanksData env) as d.
    induction c as [|c IHc]; intros [|x d] N; simpl in N; try discriminate.
    - injection N as ->. reflexivity.
    - simpl. apply IHc. exact N. }
  rewrite S. cbn [map List.length firstn]. f_equal. apply IH; assumption.
Qed.

(** X4. When the children are one text, the parser and the walker see the same
    tokens: after any events the component lived through, the content has
    one field for each parsed blank, in the order of the text, with the data
    of that blank, and no bracket token is left as text. *)
Theorem single_text_renders_every_blank
        (s : string) (es : list Event) (inst : UseBlanks.Instance) :
  let kids := NStr s in
  UseBlanks.life kids es = Ok inst ->
  exists os,
    rendered kids inst = Ok os
    /\ map indexOf (blanksIn os) = seq 0 (List.length (blanksDataOf kids))
    /\ map dataOf (blanksIn os) = blanksDataOf kids
    /\ literalIn os = 0.
Proof.
  intros kids H.
  destruct (ReachFacts.life_runHook kids es H) as [-> Alive].
  destruct (ReachFacts.runHook_inv kids es) as [_ (D & _)].
  destruct (processNode_accounted (memo (runHook kids es)) kids 0)
    as (os & E & I & F & L).
  assert (T : taken (memo (runHook kids es)) (tokensIn kids) 0
              = List.length (blanksDataOf kids)).
  { unfold taken. rewrite D. unfold kids, blanksDataOf, parseBlanks.
    cbn [getTextFromChildren tokensIn]. unfold tokenCount.
    rewrite length_map. lia. }
  rewrite T in *.
  exists os. unfold rendered, renderContent. rewrite Alive, E.
  split; [reflexivity|]. split; [exact I|]. split.
  - assert (Len : List.length (blanksIn os) = List.length (blanksDataOf kids)).
    { rewrite <- (length_map indexOf), I. apply length_seq. }
    rewrite <- Len in I.
    rewrite (@datas_of_seq (memo (runHook kids es)) (blanksIn os) 0 I F).
    rewrite D. cbn [skipn]. rewrite Len. apply firstn_all.
  - rewrite L. unfold kids, blanksDataOf, parseBlanks.
    cbn [getTextFromChildren tokensIn]. unfold tokenCount.
    rewrite length_map. lia.
Qed.

Lemma single_text_renders_every_blank_witness :
  let kids := NStr "[Paris] is the capital of [France|Spain]" in
  let es := [Change 1 "Spain"; Blur 1; CheckAnswers; Change 0 "paris"] in
  exists os,
    rendered kids (runHook kids es) = Ok os
    /\ map indexOf (blanksIn os) = seq 0 (List.length (blanksDataOf kids))
    /\ map dataOf (blanksIn os) = blanksDataOf kids
    /\ literalIn os = 0.
Proof.
  apply (@single_text_renders_every_blank
           "[Paris] is the capital of [France|Spain]"
           [Change 1 "Spain"; Blur 1; CheckAnswers; Change 0 "paris"]).
  vm_compute. reflexivity.
Defined.

(** A change at an index that has no blank is lived through as long as an
    earlier value is wrong, and ends the component with the render in which
    every earlier value is right: [allCorrect] then reaches the value
    without answer. *)
Example an_out_of_range_change_ends_the_component :
  let kids := NStr "[a]" in
  UseBlanks.life kids [Change 3 "x"] = Ok (runHook kids [Change 3 "x"])
  /\ UseBlanks.life kids [Change 3 "x"; Change 0 "a"] = TypeError
  /\ rendered kids (runHook kids [Change 3 "x"; Change 0 "a"]) = TypeError
  /\ UseBlanks.life kids [Change 3 "x"; Change 0 "a"; Reset] = TypeError.
Proof. vm_compute. repeat split; reflexivity. Qed.

End AccountingFacts.

(* ================================================================= *)
(** ** The arrays of the state *)

Module ShapeFacts.
Import UseBlanks InlineBlanks Notions Component Reach.

Lemma spread_vals A (l : list (Arr.slot A)) :
  Forall (fun x => exists v, x = Arr.Val v) l -> Arr.spread l = l.
Proof.
  induction 1 as [|x l [v ->] _ IH]; [reflexivity|].
  unfold Arr.spread in *. simpl. rewrite IH. reflexivity.
Qed.

Lemma replace_vals A (l : list (Arr.slot A)) :
  forall i v,
    Forall (fun x => exists w, x = Arr.Val w) l ->
    List.length (Arr.replace i (Arr.Val v) l) = List.length l
    /\ Forall (fun x => exists w, x = Arr.Val w) (Arr.replace i (Arr.Val v) l).
Proof.
  induction l as [|x l IH]; intros i v F;
    [destruct i; split; [reflexivity|constructor|reflexivity|constructor]|].
  inversion F as [|? ? Hx F']; subst.
  destruct i as [|i]; simpl.
  - split; [reflexivity|]. constructor; [eexists; reflexivity|assumption].
  - destruct (IH i v F') as [L G]. split; [lia|]. constructor; assumption.
Qed.

(** A write inside a dense array leaves it dense. *)
Lemma dense_set A n (a : Arr.t A) r i v :
  i < n -> dense n a ->
  dense n (Arr.mk r (Arr.set i v (Arr.spread (Arr.elems a)))).
Proof.
  unfold dense. intros Hi [L F]. cbn [Arr.elems].
  rewrite (spread_vals F). unfold Arr.set.
  destruct (Nat.ltb_spec i (List.length (Arr.elems a))) as [_|H]; [|lia].
  destruct (replace_vals i v F) as [L' F']. split; [lia|exact F'].
Qed.

Lemma dense_fill A n r (v : A) : dense n (Arr.mk r (Arr.fill n v)).
Proof.
  unfold dense, Arr.fill. cbn [Arr.elems]. split; [apply repeat_length|].
  apply Forall_forall. intros x Hx. apply repeat_spec in Hx. eexists; exact Hx.
Qed.

Lemma dense_vals n r (l : list string) :
  List.length l = n -> dense n (Arr.mk r (map (@Arr.Val string) l)).
Proof.
  intros L. unfold dense. cbn [Arr.elems]. split; [rewrite length_map; exact L|].
  apply Forall_forall. intros x Hx. apply in_map_iff in Hx.
  destruct Hx as (v & <- & _). eexists; reflexivity.
Qed.

Lemma initial_wellFormed n : wellFormed n (initialState n).
Proof. unfold wellFormed, initialState. simpl. repeat split; apply dense_fill. Qed.

Lemma dispatch_wellFormed children e st :
  let n := List.length (answersOf (blanksDataOf children)) in
  inRange n e = true -> wellFormed n st -> wellFormed n (dispatch children e st).
Proof.
  intros n R (I & T & B & H). unfold wellFormed.
  destruct e as [i v|i| | |i| ]; cbn [dispatch inRange] in *;
    try (apply Nat.ltb_lt in R);
    unfold handleInputChange, handleBlur, checkAnswers, reset, toggleHint, showAllAnswers;
    cbn [inputs touched blurred showHintFor];
    refine (conj _ (conj _ (conj _ _)));
    try assumption;
    try (apply dense_set; assumption);
    try apply dense_fill.
  apply dense_vals. reflexivity.
Qed.

Lemma fold_wellFormed children es :
  let n := List.length (answersOf (blanksDataOf children)) in
  forall inst,
    forallb (inRange n) es = true -> wellFormed n (state inst) ->
    wellFormed n (state (fold_left (UseBlanks.step children) es inst)).
Proof.
  intros n. induction es as [|e es IH]; intros inst R W; [exact W|].
  cbn [forallb] in R. apply andb_prop in R. destruct R as [Re Res].
  cbn [fold_left]. apply IH; [exact Res|].
  unfold UseBlanks.step, rerender. cbn [state].
  apply dispatch_wellFormed; assumption.
Qed.

Lemma everyCorrect_total answers l :
  Forall (fun x => exists v : string, x = Arr.Val v) l ->
  forall idx, idx + List.length l <= List.length answers ->
    exists b, everyCorrect answers idx l = Ok b.
Proof.
  induction 1 as [|x l [v ->] _ IH]; intros idx L; [exists true; reflexivity|].
  cbn [everyCorrect]. cbn [List.length] in L.
  destruct (nth_error answers idx) as [a|] eqn:N;
    [|apply nth_error_None in N; lia].
  destruct (matchesAnswer v a); [|exists false; reflexivity].
  apply IH. lia.
Qed.

(** X5. As long as the events carry the index of a blank, the four arrays keep
    one entry for each blank, none of them missing, and [allCorrect] is a
    boolean: the [TypeError] of an [undefined] value or answer is not
    reached. *)
Theorem in_range_events_keep_the_state_dense (children : Node) (es : list Event) :
  let n := List.length (answersOf (blanksDataOf children)) in
  forallb (inRange n) es = true ->
  wellFormed n (state (runHook children es))
  /\ exists b,
       allCorrect (answersOf (blanksDataOf children)) (state (runHook children es))
       = Ok b.
Proof.
  intros n R.
  assert (W : wellFormed n (state (runHook children es))).
  { apply fold_wellFormed; [exact R|]. apply initial_wellFormed. }
  split; [exact W|].
  destruct W as ([L F] & _). unfold allCorrect.
  apply everyCorrect_total; [exact F|]. fold n. lia.
Qed.

Lemma in_range_events_keep_the_state_dense_witness :
  let kids := NStr "[Paris] is the capital of [France]" in
  let es := [Change 1 "france"; Blur 1; ToggleHint 0; Change 0 "Paris"; CheckAnswers] in
  List.length (Arr.elems (inputs (state (runHook kids es)))) = 2
  /\ exists b, allCorrect (answersOf (blanksDataOf kids)) (state (runHook kids es)) = Ok b.
Proof.
  intros kids es.
  assert (R : forallb (inRange (List.length (answersOf (blanksDataOf kids)))) es = true)
    by (vm_compute; reflexivity).
  destruct (@in_range_events_keep_the_state_dense kids es R) as [[[L _] _] X].
  split; [exact L|exact X].
Defined.

End ShapeFacts.

(* ================================================================= *)
(** ** Checking the answers *)

Module VerdictFacts.
Import UseBlanks InlineBlanks Notions Component Reach.

Lemma runHook_snoc children es e :
  runHook children (es ++ [e]) = UseBlanks.step children (runHook children es) e.
Proof. unfold runHook. rewrite fold_left_app. reflexivity. Qed.

(** X6. After [checkAnswers], whatever events the component lived through
    before, [submitted] is set and the content shows a verdict for every
    blank it renders: [showValidation] is true and [isWrong] is the negation
    of [isCorrect], touched or not, blurred or not, partial match or not. *)
Theorem check_answers_gives_every_blank_a_verdict
        (children : Node) (es : list Event) (inst : UseBlanks.Instance) :
  UseBlanks.life children (es ++ [CheckAnswers]) = Ok inst ->
  submitted (state inst) = true
  /\ exists os,
       rendered children inst = Ok os
       /\ Forall (fun b =>
                    Status.showValidation (statusOf b) = true
                    /\ Status.isWrong (statusOf b)
                       = negb (Status.isCorrect (statusOf b)))
                 (blanksIn os).
Proof.
  intros H.
  destruct (ReachFacts.life_runHook children (es ++ [CheckAnswers]) H) as [-> Alive].
  rewrite runHook_snoc in *.
  set (inst := UseBlanks.step children (runHook children es) CheckAnswers) in *.
  split; [reflexivity|].
  assert (C : current children inst).
  { unfold inst. rewrite <- runHook_snoc. apply ReachFacts.runHook_inv. }
  destruct C as (_ & _ & S & _).
  assert (S' : c_submitted (memo inst) = true) by (rewrite S; reflexivity).
  destruct (AccountingFacts.processNode_accounted (memo inst) children 0)
    as (os & E & _ & F & _).
  exists os. unfold rendered, renderContent. rewrite Alive, E. split; [reflexivity|].
  eapply Forall_impl; [|exact F].
  intros b [_ D]. rewrite D. unfold deriveStatus. cbn [Status.showValidation
    Status.isWrong Status.isCorrect]. rewrite S'. cbn [orb andb].
  rewrite andb_true_r. split; reflexivity.
Qed.

Lemma check_answers_gives_every_blank_a_verdict_witness :
  let kids := NStr "[Paris] is the capital of [France]" in
  let inst := runHook kids [Change 0 "Par"; CheckAnswers] in
  submitted (state inst) = true
  /\ exists os,
       rendered kids inst = Ok os
       /\ Forall (fun b =>
                    Status.showValidation (statusOf b) = true
                    /\ Status.isWrong (statusOf b)
                       = negb (Status.isCorrect (statusOf b)))
                 (blanksIn os).
Proof.
  apply (@check_answers_gives_every_blank_a_verdict
           (NStr "[Paris] is the capital of [France]") [Change 0 "Par"]).
  vm_compute. reflexivity.
Defined.

End VerdictFacts.

(* ================================================================= *)
(** ** Comparing a value with an answer *)

Module CompareFacts.
Import UseBlanks InlineBlanks Notions Component Reach.

Lemma lowerChar_white c : Js.isWhiteSpace (Js.lowerChar c) = Js.isWhiteSpace c.
Proof. destruct c as [[] [] [] [] [] [] [] []]; reflexivity. Qed.

Lemma lowerChar_idem c : Js.lowerChar (Js.lowerChar c) = Js.lowerChar c.
Proof. destruct c as [[] [] [] [] [] [] [] []]; reflexivity. Qed.

Lemma toLowerCase_idem s : Js.toLowerCase (Js.toLowerCase s) = Js.toLowerCase s.
Proof.
  induction s as [|c s IH]; [reflexivity|].
  simpl. rewrite lowerChar_idem, IH. reflexivity.
Qed.

Lemma toLowerCase_trimStart s :
  Js.toLowerCase (Js.trimStart s) = Js.trimStart (Js.toLowerCase s).
Proof.
  induction s as [|c s IH]; [reflexivity|].
  cbn [Js.trimStart Js.toLowerCase]. rewrite lowerChar_white.
  destruct (Js.isWhiteSpace c); [exact IH|reflexivity].
Qed.

Lemma toLowerCase_trimEnd s :
  Js.toLowerCase (Js.trimEnd s) = Js.trimEnd (Js.toLowerCase s).
Proof.
  induction s as [|c s IH]; [reflexivity|].
  cbn [Js.trimEnd Js.toLowerCase]. rewrite <- IH, lowerChar_white.
  destruct (Js.trimEnd s) as [|x t]; cbn [Js.toLowerCase].
  - destruct (Js.isWhiteSpace c); reflexivity.
  - reflexivity.
Qed.

Lemma toLowerCase_trim s : Js.toLowerCase (Js.trim s) = Js.trim (Js.toLowerCase s).
Proof. unfold Js.trim. rewrite toLowerCase_trimEnd, toLowerCase_trimStart. reflexivity. Qed.

Lemma trimStart_white_app w s :
  allWhite w = true -> Js.trimStart (w ++ s) = Js.trimStart s.
Proof.
  induction w as [|c w IH]; intros H; [reflexivity|].
  cbn [allWhite] in H. apply andb_prop in H. destruct H as [Hc Hw].
  cbn [String.append Js.trimStart]. rewrite Hc. apply IH. exact Hw.
Qed.

Lemma trimEnd_white w : allWhite w = true -> Js.trimEnd w = EmptyString.
Proof.
  induction w as [|c w IH]; intros H; [reflexivity|].
  cbn [allWhite] in H. apply andb_prop in H. destruct H as [Hc Hw].
  cbn [Js.trimEnd]. rewrite (IH Hw), Hc. reflexivity.
Qed.

Lemma trimEnd_app_white s w :
  allWhite w = true -> Js.trimEnd (s ++ w) = Js.trimEnd s.
Proof.
  intros H. induction s as [|c s IH]; [apply trimEnd_white; exact H|].
  cbn [String.append Js.trimEnd]. rewrite IH. reflexivity.
Qed.

Lemma trimStart_all_white w : allWhite w = true -> Js.trimStart w = EmptyString.
Proof.
  induction w as [|c w IH]; intros H; [reflexivity|].
  cbn [allWhite] in H. apply andb_prop in H. destruct H as [Hc Hw].
  cbn [Js.trimStart]. rewrite Hc. apply IH. exact Hw.
Qed.

Lemma trim_app_white v w : allWhite w = true -> Js.trim (v ++ w) = Js.trim v.
Proof.
  intros H. unfold Js.trim. induction v as [|c v IH].
  - cbn [String.append]. rewrite (trimStart_all_white w H). reflexivity.
  - cbn [String.append Js.trimStart].
    destruct (Js.isWhiteSpace c); [exact IH|].
    apply (@trimEnd_app_white (String c v) w H).
Qed.

(** X7. The comparison sees neither the white space around the value nor the
    case of the value or of the answer. *)
Theorem comparison_ignores_case_and_padding (pre v post a : string) :
  allWhite pre = true -> allWhite post = true ->
  matchesAnswer (pre ++ v ++ post) a = matchesAnswer v a
  /\ matchesAnswer (Js.toLowerCase v) a = matchesAnswer v a
  /\ matchesAnswer v (Js.toLowerCase a) = matchesAnswer v a.
Proof.
  intros Hpre Hpost. unfold matchesAnswer. split; [|split].
  - unfold Js.trim at 1. rewrite trimStart_white_app by exact Hpre.
    fold (Js.trim (v ++ post)). rewrite trim_app_white by exact Hpost. reflexivity.
  - rewrite <- toLowerCase_trim, toLowerCase_idem. reflexivity.
  - rewrite toLowerCase_idem. reflexivity.
Qed.

Lemma comparison_ignores_case_and_padding_witness :
  let nbsp := String (Js.chr 160) EmptyString in
  let tab := String (Js.chr 9) EmptyString in
  let typed := ("CAF" ++ String (Js.chr 201) EmptyString)%string in
  let answer := ("Caf" ++ String (Js.chr 233) EmptyString)%string in
  matchesAnswer ((nbsp ++ " ") ++ typed ++ tab) answer = true.
Proof.
  assert (Hpre : allWhite (String (Js.chr 160) EmptyString ++ " ") = true)
    by reflexivity.
  assert (Hpost : allWhite (String (Js.chr 9) EmptyString) = true) by reflexivity.
  destruct (@comparison_ignores_case_and_padding
              (String (Js.chr 160) EmptyString ++ " ")
              ("CAF" ++ String (Js.chr 201) EmptyString)
              (String (Js.chr 9) EmptyString)
              ("Caf" ++ String (Js.chr 233) EmptyString) Hpre Hpost)
    as [E _].
  cbv zeta. rewrite E. vm_compute. reflexivity.
Defined.

End CompareFacts.

(* ================================================================= *)
(** ** The hint of a blank *)

Module HintFacts.
Import UseBlanks InlineBlanks Notions Component Reach.

(** X8. Toggling the hint of a blank twice shows what was shown before, for
    every blank, and touches nothing else of the state. *)
Theorem toggle_hint_twice_restores (st : State) (i j : nat) :
  let st' := toggleHint i (toggleHint i st) in
  flag (showHintFor st') j = flag (showHintFor st) j
  /\ flag (showHintFor (toggleHint i st)) i = negb (flag (showHintFor st) i)
  /\ inputs st' = inputs st /\ touched st' = touched st
  /\ blurred st' = blurred st /\ submitted st' = submitted st
  /\ showAnswers st' = showAnswers st.
Proof.
  cbn zeta. split; [|split; [|repeat split]].
  - unfold flag, toggleHint. cbn [showHintFor Arr.elems].
    destruct (Nat.eq_dec j i) as [->|N].
    + rewrite ArrFacts.get_set_same. unfold notAt.
      rewrite ArrFacts.get_spread, ArrFacts.get_set_same, ArrFacts.get_spread.
      destruct (Arr.get (Arr.elems (showHintFor st)) i) as [b|];
        [apply negb_involutive|reflexivity].
    + rewrite ArrFacts.get_set_spread_other by exact N.
      rewrite ArrFacts.get_set_spread_other by exact N. reflexivity.
  - unfold flag, toggleHint. cbn [showHintFor Arr.elems].
    rewrite ArrFacts.get_set_same. unfold notAt. rewrite ArrFacts.get_spread.
    destruct (Arr.get (Arr.elems (showHintFor st)) i) as [b|]; reflexivity.
Qed.

End HintFacts.

(* ================================================================= *)
(** ** Before any input *)

Module MountFacts.
Import UseBlanks InlineBlanks Notions Component Reach.

Lemma matchesAnswer_empty a : matchesAnswer EmptyString a = isEmpty a.
Proof. destruct a; reflexivity. Qed.

Lemma everyCorrect_fresh (suf pre : list string) :
  everyCorrect (pre ++ suf) (List.length pre)
               (repeat (Arr.Val EmptyString) (List.length suf))
  = Ok (forallb isEmpty suf).
Proof.
  revert pre. induction suf as [|a suf IH]; intros pre; [reflexivity|].
  cbn [List.length repeat everyCorrect forallb].
  rewrite nth_error_app2 by lia. rewrite Nat.sub_diag. cbn [nth_error].
  rewrite matchesAnswer_empty. destruct (isEmpty a); [|reflexivity].
  specialize (IH (pre ++ [a])).
  rewrite <- app_assoc, length_app in IH. cbn [List.length app] in IH.
  rewrite Nat.add_1_r in IH. exact IH.
Qed.

(** X9. Before any input, and again after [reset], [allCorrect] is true exactly
    when every answer is the empty string, so always when there is no blank;
    the first commit of a content with no answer to give then reports the
    exercise complete, whatever the progress store says, provided the
    identifier is not empty. *)
Theorem all_correct_before_any_input
        (children : Node) (pathname exerciseId : string) (complete : bool) :
  let answers := answersOf (blanksDataOf children) in
  allCorrect answers (state (UseBlanks.mount children)) = Ok (forallb isEmpty answers)
  /\ (forall st,
        allCorrect answers (dispatch children Reset st) = Ok (forallb isEmpty answers))
  /\ (forallb isEmpty answers = true -> exerciseId <> EmptyString ->
      exists b,
        firstCommit pathname exerciseId complete children = Ok b
        /\ calls b = [(exerciseId, pathname)]
        /\ isCompleted b = true).
Proof.
  intros answers.
  assert (M : allCorrect answers (state (UseBlanks.mount children))
              = Ok (forallb isEmpty answers)).
  { unfold allCorrect. cbn [UseBlanks.mount state initialState inputs Arr.elems].
    unfold Arr.fill. apply (everyCorrect_fresh answers []). }
  split; [exact M|]. split.
  - intros st. unfold allCorrect. cbn [dispatch reset inputs Arr.elems].
    unfold Arr.fill. apply (everyCorrect_fresh answers []).
  - intros E N. unfold firstCommit. fold answers. rewrite M, E.
    exists (mountBridge pathname exerciseId complete true). split; [reflexivity|].
    unfold mountBridge, commit. cbn.
    apply String.eqb_neq in N. rewrite N. cbn. split; reflexivity.
Qed.

(** X10. Whatever the renders, the callback is only ever invoked with the
    identifier and the path, never when the identifier is empty, and never
    before [allCorrect] has been true in some render. *)
Theorem notification_needs_identifier_and_all_correct
        (pathname exerciseId : string) (complete ac : bool) (rs : list Render) :
  let b := renders pathname exerciseId (mountBridge pathname exerciseId complete ac) rs in
  Forall (fun c => c = (exerciseId, pathname)) (calls b)
  /\ (exerciseId = EmptyString -> calls b = [])
  /\ (ac = false -> forallb (fun r => negb (allCorrectNow r)) rs = true -> calls b = []).
Proof.
  cbn zeta.
  assert (Step : forall b r,
             (idEffect r = None -> exerciseIdRef b = exerciseId) ->
             exerciseIdRef (commit pathname exerciseId b r) = exerciseId
             /\ (Forall (fun c => c = (exerciseId, pathname)) (calls b) ->
                 Forall (fun c => c = (exerciseId, pathname))
                        (calls (commit pathname exerciseId b r)))
             /\ (exerciseId = EmptyString -> calls b = [] ->
                 calls (commit pathname exerciseId b r) = [])
             /\ (allCorrectNow r = false -> calls b = [] ->
                 calls (commit pathname exerciseId b r) = [])).
  { intros b r Hid.
    assert (R1 : match idEffect r with Some _ => exerciseId | None => exerciseIdRef b end
                 = exerciseId) by (destruct (idEffect r); [reflexivity|apply Hid; reflexivity]).
    unfold commit. cbn [exerciseIdRef calls]. rewrite R1.
    split; [reflexivity|]. split; [|split].
    - intros F.
      destruct ((callbackChanged r || depsChanged (lastDeps b) (allCorrectNow r, isCompleted b))
                && allCorrectNow r && negb (exerciseId =? "")%string
                && negb (isCompleted b)); [constructor; [reflexivity|exact F]|exact F].
    - intros -> E. cbn. rewrite !andb_false_r. cbn. exact E.
    - intros A E. rewrite A. rewrite !andb_false_r. cbn. exact E. }
  assert (Fold : forall rs b,
             exerciseIdRef b = exerciseId ->
             (Forall (fun c => c = (exerciseId, pathname)) (calls b) ->
              Forall (fun c => c = (exerciseId, pathname))
                     (calls (renders pathname exerciseId b rs)))
             /\ (exerciseId = EmptyString -> calls b = [] ->
                 calls (renders pathname exerciseId b rs) = [])
             /\ (forallb (fun r => negb (allCorrectNow r)) rs = true -> calls b = [] ->
                 calls (renders pathname exerciseId b rs) = [])).
  { induction rs0 as [|r rs0 IH]; intros b Hid.
    - cbn. repeat split; intros; assumption.
    - destruct (Step b r (fun _ => Hid)) as (I & F & E & A).
      destruct (IH (commit pathname exerciseId b r) I) as (F' & E' & A').
      unfold renders in *. cbn [fold_left]. split; [|split].
      + intros H. apply F', F, H.
      + intros H1 H2. apply E'; [exact H1|]. apply E; assumption.
      + intros H1 H2. cbn [forallb] in H1. apply andb_prop in H1.
        destruct H1 as [H1 H3]. apply negb_true_iff in H1.
        apply A'; [exact H3|]. apply A; assumption. }
  assert (Hid0 : exerciseIdRef (mountBridge pathname exerciseId complete ac) = exerciseId)
    by reflexivity.
  assert (Hm : idEffect (mkRender ac (Some complete) true) = None ->
               exerciseIdRef unmounted = exerciseId) by discriminate.
  destruct (Step unmounted (mkRender ac (Some complete) true) Hm) as (_ & F0 & E0 & A0).
  fold (mountBridge pathname exerciseId complete ac) in F0, E0, A0.
  destruct (Fold rs _ Hid0) as (F & E & A).
  split; [|split].
  - apply F, F0. constructor.
  - intros H. apply E; [exact H|]. apply E0; [exact H|reflexivity].
  - intros H1 H2. apply A; [exact H2|]. apply A0; [exact H1|reflexivity].
Qed.

End MountFacts.

(* ================================================================= *)
(** ** What the parser can produce *)

Module FieldFacts.
Import UseBlanks InlineBlanks Notions Component Reach.

Lemma last_default A B (f : A -> option B) (l : list A) (y : B) :
  forall d, last (map f l) d = Some y ->
    d = Some y \/ exists x, In x l /\ f x = Some y.
Proof.
  induction l as [|a l IH]; intros d H; [left; exact H|].
  cbn [map] in H. rewrite ParserFacts.last_cons_default in H.
  destruct (IH (f a) H) as [E|(x & I & E)].
  - right. exists a. split; [left; reflexivity|exact E].
  - right. exists x. split; [right; exact I|exact E].
Qed.

Lemma last_some A B (f : A -> option B) (l : list A) (y : B) :
  last (map f l) None = Some y -> exists x, In x l /\ f x = Some y.
Proof.
  intros H. destruct (@last_default A B f l y None H) as [E|E]; [discriminate|exact E].
Qed.

Lemma parseBlank_fields (p : string) :
  let d := parseBlank p in
  occurs "|" (answer d) = false
  /\ Forall (fun o => occurs "|" o = false /\ Js.startsWith o "hint:" = false)
            (localOptions d)
  /\ (forall h, hint d = Some h -> occurs "|" h = false).
Proof.
  cbn zeta. unfold parseBlank. rewrite ParserFacts.fold_classify. cbn [answer localOptions hint app].
  pose proof (TableDetection.split_occurs "|" (Js.slice p 1 (-1))) as F.
  destruct (Js.split "|" (Js.slice p 1 (-1))) as [|a items]; cbn [hd tl].
  - repeat split; try constructor. discriminate.
  - inversion F as [|? ? Fa Fi]; subst. split; [exact Fa|]. split.
    + apply Forall_forall. intros o Ho. apply filter_In in Ho. destruct Ho as [Ho N].
      split; [exact (proj1 (Forall_forall _ _) Fi o Ho)|].
      unfold isHint in N. apply negb_true_iff in N. exact N.
    + intros h H. apply last_some in H. destruct H as (x & Hx & E).
      apply filter_In in Hx. destruct Hx as [Hx _]. injection E as <-.
      apply (@TableDetection.occurs_drop "|"%char 5 x).
      exact (proj1 (Forall_forall _ _) Fi x Hx).
Qed.

(** X11. No field of a parsed blank contains the separator [|], and no local
    option starts with [hint:]: such a segment is always taken as the
    hint. *)
Theorem parsed_fields_hold_no_separator (text : string) :
  Forall (fun d =>
            occurs "|" (answer d) = false
            /\ Forall (fun o => occurs "|" o = false /\ Js.startsWith o "hint:" = false)
                      (localOptions d)
            /\ (forall h, hint d = Some h -> occurs "|" h = false))
         (parseBlanks text).
Proof.
  unfold parseBlanks. apply Forall_forall. intros d Hd.
  apply in_map_iff in Hd. destruct Hd as (p & <- & _). apply parseBlank_fields.
Qed.

Lemma occurs_concat c (ps : list string) :
  forall p, In p ps -> occurs c p = true -> occurs c (String.concat EmptyString ps) = true.
Proof.
  induction ps as [|q ps IH]; intros p I O; [destruct I|].
  assert (E : String.concat EmptyString (q :: ps)
              = (q ++ String.concat EmptyString ps)%string).
  { destruct ps as [|q' ps']; cbn [String.concat].
    - clear. induction q as [|x q IHq]; [reflexivity|]. simpl. rewrite <- IHq. reflexivity.
    - reflexivity. }
  rewrite E, TableDetection.occurs_app.
  destruct I as [->|I]; [rewrite O; reflexivity|].
  rewrite (IH p I O). apply orb_true_r.
Qed.

Lemma token_brackets (p : string) :
  isBlankToken p = true -> occurs "[" p = true /\ occurs "]" p = true.
Proof.
  rewrite <- (string_of_list_ascii_of_string p) at 1.
  rewrite DedentFacts.isBlankToken_tokL. unfold tokL. intros H.
  apply andb_prop in H. destruct H as [A B].
  assert (In "["%char (list_ascii_of_string p)).
  { destruct (list_ascii_of_string p) as [|x l]; [discriminate|].
    cbn in A. apply Ascii.eqb_eq in A. left. exact A. }
  assert (In "]"%char (list_ascii_of_string p)).
  { apply in_rev. destruct (rev (list_ascii_of_string p)) as [|x l]; [discriminate|].
    cbn in B. apply Ascii.eqb_eq in B. left. exact B. }
  split.
  - destruct (occurs "[" p) eqn:E; [reflexivity|].
    apply TableDetection.occurs_chars in E. contradiction.
  - destruct (occurs "]" p) eqn:E; [reflexivity|].
    apply TableDetection.occurs_chars in E. contradiction.
Qed.

(** X12. A text in which one of the two brackets never occurs has no blank. *)
Theorem text_without_a_bracket_has_no_blank (text : string) :
  occurs "[" text = false \/ occurs "]" text = false -> parseBlanks text = [].
Proof.
  intros H. unfold parseBlanks.
  assert (E : filter isBlankToken (splitBlanks text) = []); [|rewrite E; reflexivity].
  destruct (filter isBlankToken (splitBlanks text)) as [|p l] eqn:F; [reflexivity|].
  exfalso.
  assert (I : In p (filter isBlankToken (splitBlanks text))) by (rewrite F; left; reflexivity).
  apply filter_In in I. destruct I as [I T].
  destruct (token_brackets p T) as [O C].
  pose proof (ReFacts.splitCapture_concat blankRe text) as J.
  unfold Js.join in J. fold (splitBlanks text) in J.
  pose proof (@occurs_concat "[" (splitBlanks text) p I O) as O'.
  pose proof (@occurs_concat "]" (splitBlanks text) p I C) as C'.
  rewrite J in O', C'. destruct H as [H|H]; congruence.
Qed.

Lemma text_without_a_bracket_has_no_blank_witness :
  blanksDataOf (NStr "a price of 3] and no more") = [].
Proof.
  apply (@text_without_a_bracket_has_no_blank "a price of 3] and no more").
  left. reflexivity.
Defined.

End FieldFacts.

(* ================================================================= *)
(** ** The fields of the content across renders *)

Module FieldViewFacts.
Import UseBlanks InlineBlanks Notions Component Reach.

Lemma run_snoc cfg children es e :
  run cfg children (es ++ [e]) = Component.step cfg children (run cfg children es) e.
Proof. unfold run. rewrite fold_left_app. reflexivity. Qed.

Lemma run_inv cfg children es :
  boundedRefs (state (hook (run cfg children es)))
  /\ current children (hook (run cfg children es))
  /\ currentBlank (run cfg children es).
Proof.
  rewrite ReachFacts.hook_run.
  destruct (ReachFacts.runHook_inv children es) as [B C].
  split; [exact B|]. split; [exact C|]. apply ReachFacts.run_currentBlank.
Qed.

Lemma marker_shape ctx str k d s :
  InlineMarkdownBlank ctx str = Some (k, d, s) ->
  nth_error (ctx_blanksData ctx) k = Some d
  /\ Status.value s = valueAt (ctx_inputs ctx) k.
Proof.
  unfold InlineMarkdownBlank, lookupData.
  destruct (Js.parseInt str) as [z|]; [|discriminate].
  destruct (z <? 0)%Z; [discriminate|].
  destruct (nth_error (ctx_blanksData ctx) (Z.to_nat z)) as [d'|] eqn:N; [|discriminate].
  intros H. injection H as <- <- <-. split; [exact N|reflexivity].
Qed.

(** The tree path returns its fields whenever the body of the hook did not
    throw. *)
Lemma treeControls_total cfg children inst :
  throws children (hook inst) = false ->
  exists cs, treeControls cfg children inst = Ok cs.
Proof.
  intros A. unfold treeControls, rendered, renderContent. rewrite A.
  destruct (AccountingFacts.processNode_accounted (memo (hook inst)) children 0)
    as (os & E & _).
  rewrite E. eexists. reflexivity.
Qed.

(** Every field the content shows is a field of a parsed blank, showing the
    present input of that blank. *)
Lemma shown_fields cfg children inst c :
  current children (hook inst) ->
  shows (content cfg children inst) c -> fieldOf cfg children inst c.
Proof.
  intros (D & I & _). unfold content.
  destruct (throws children (hook inst)) eqn:A; [intros []|].
  destruct (isTable children); cbn [shows].
  - intros [str H]. unfold markerControl in H.
    destruct (InlineMarkdownBlank (contextOf children inst) str) as [[[k d] s]|] eqn:E;
      [|discriminate].
    cbn [option_map] in H. injection H as <-.
    apply marker_shape in E. destruct E as [N V].
    exists k, d, s. split; [reflexivity|]. split; [exact N|exact V].
  - unfold treeControls, rendered, renderContent. rewrite A.
    destruct (AccountingFacts.processNode_accounted (memo (hook inst)) children 0)
      as (os & E & _ & F & _).
    rewrite E. cbn [shows]. intros Hc. apply in_map_iff in Hc.
    destruct Hc as ([[k d] s] & <- & Hb).
    destruct (proj1 (Forall_forall _ _) F _ Hb) as [N S].
    unfold indexOf, dataOf, statusOf in N, S. cbn [fst snd] in N, S.
    exists k, d, s. split; [reflexivity|]. split; [rewrite <- D; exact N|].
    rewrite S. unfold deriveStatus. cbn [Status.value]. rewrite I. reflexivity.
Qed.

(** A change of a value replaces the function [renderBlank] held. *)
Lemma change_refreshes cfg children inst i v :
  boundedRefs (state (hook inst)) -> currentBlank inst ->
  blank (Component.step cfg children inst (Change i v))
  = blankClosureOf (state (hook (Component.step cfg children inst (Change i v)))).
Proof.
  intros (A & _) (I & _).
  unfold Component.step, UseBlanks.step, rerender. cbn [hook blank state dispatch].
  unfold sameBlankDeps. cbn [handleInputChange inputs Arr.ref]. rewrite I.
  destruct (Nat.eqb_spec (Arr.ref (inputs (state (hook inst)))) (nextRef (state (hook inst))));
    [lia|].
  rewrite andb_false_r. reflexivity.
Qed.

(** Without the prop [options], every render replaces the function held. *)
Lemma default_options_refresh cfg children inst e :
  stableOptions cfg = false ->
  blank (Component.step cfg children inst e)
  = blankClosureOf (state (hook (Component.step cfg children inst e))).
Proof.
  intros O. unfold Component.step, sameBlankDeps. cbn [blank hook]. rewrite O.
  reflexivity.
Qed.

(** With the prop [options], a blur keeps the function held. *)
Lemma blur_keeps_renderBlank cfg children inst i :
  stableOptions cfg = true -> currentBlank inst ->
  blank (Component.step cfg children inst (Blur i)) = blank inst.
Proof.
  intros O (I & H).
  unfold Component.step, UseBlanks.step, rerender. cbn [hook blank state dispatch].
  unfold sameBlankDeps. cbn [handleBlur inputs showHintFor].
  rewrite O, I, H, !Nat.eqb_refl. reflexivity.
Qed.

(** X13. A value is typed into a field and the field is left, and the
    component lives through it. When the prop [options] is passed, the field
    keeps the neutral style, whatever the value: the change reset [blurred]
    for it, and the blur does not replace [renderBlank], whose dependency
    list has no [blurred]. When the prop is left out, its default is a new
    array in every render, [renderBlank] is replaced by every render, and
    the field shows the verdict on the value at once. This holds for the
    fields of the tree and for what any marker of the table path renders. *)
Theorem the_verdict_after_a_blur_depends_on_the_options_prop
        (cfg : Settings) (children : Node) (es : list Event) (i : nat) (v : string)
        (left : Component.Instance) :
  Component.life cfg children (es ++ [Change i v; Blur i]) = Ok left ->
  flag (touched (state (hook left))) i = true
  /\ flag (blurred (state (hook left))) i = true
  /\ (exists cs, treeControls cfg children left = Ok cs)
  /\ forall c d,
       shows (content cfg children left) c ->
       ctl_index c = i ->
       nth_error (blanksDataOf children) i = Some d ->
       ctl_validity c
       = match s_options cfg with
         | Some _ => Neutral
         | None => verdict v (answer d)
         end.
Proof.
  intros H.
  destruct (ReachFacts.life_run cfg children (es ++ [Change i v; Blur i]) H)
    as [E Alive].
  change (es ++ [Change i v; Blur i]) with (es ++ [Change i v] ++ [Blur i]) in E.
  rewrite app_assoc, !run_snoc in E.
  set (typed := Component.step cfg children (run cfg children es) (Change i v)) in *.
  assert (T : flag (touched (state (hook left))) i = true).
  { rewrite E. unfold flag. cbn. rewrite ArrFacts.get_set_same. reflexivity. }
  assert (L : flag (blurred (state (hook left))) i = true).
  { rewrite E. unfold flag. cbn. rewrite ArrFacts.get_set_same. reflexivity. }
  split; [exact T|]. split; [exact L|].
  split; [apply treeControls_total; exact Alive|].
  destruct (run_inv cfg children es) as (B0 & _ & K0).
  destruct (run_inv cfg children (es ++ [Change i v])) as (_ & _ & K1).
  rewrite run_snoc in K1. fold typed in K1.
  destruct (run_inv cfg children ((es ++ [Change i v]) ++ [Blur i])) as (_ & C2 & _).
  rewrite !run_snoc in C2. fold typed in C2. rewrite <- E in C2.
  intros c d Hc Hk Hd.
  destruct (@shown_fields cfg children left c C2 Hc) as (k & d' & s & -> & D & V).
  change (k = i) in Hk. subst k. rewrite Hd in D. injection D as <-.
  unfold renderBlank. cbn [ctl_validity].
  destruct (stableOptions cfg) eqn:O.
  - assert (O' : exists l, s_options cfg = Some l).
    { unfold stableOptions in O. destruct (s_options cfg) as [l|]; [|discriminate].
      exists l. reflexivity. }
    destruct O' as [l O']. rewrite O'.
    assert (Kb : blank left = blankClosureOf (state (hook typed))).
    { rewrite E. rewrite (@blur_keeps_renderBlank cfg children typed i O K1).
      exact (@change_refreshes cfg children (run cfg children es) i v B0 K0). }
    rewrite Kb.
    assert (Z : flag (b_blurred (blankClosureOf (state (hook typed)))) i = false).
    { unfold flag. cbn. rewrite ArrFacts.get_set_same. reflexivity. }
    rewrite Z, andb_false_r. reflexivity.
  - assert (O' : s_options cfg = None).
    { unfold stableOptions in O. destruct (s_options cfg); [discriminate|reflexivity]. }
    rewrite O'.
    assert (Kb : blank left = blankClosureOf (state (hook left))).
    { rewrite E. exact (@default_options_refresh cfg children typed (Blur i) O). }
    rewrite Kb. cbn [blankClosureOf b_touched b_blurred].
    assert (X : valueAt (inputs (state (hook left))) i = v).
    { rewrite E. unfold valueAt. cbn. rewrite ArrFacts.get_set_same. reflexivity. }
    rewrite T, L, V, X. unfold verdict. cbn [andb].
    destruct (Js.trim v =? "")%string; cbn [negb andb]; [reflexivity|].
    destruct (matchesAnswer v (answer d)); reflexivity.
Qed.

Lemma the_verdict_after_a_blur_depends_on_the_options_prop_witness :
  let kids := NStr "[Paris] and [Rome]" in
  let passed := mkSettings TypeMode (Some []) true in
  let omitted := mkSettings TypeMode None true in
  let es := [Change 0 "Lyon"; Blur 0] in
  Component.life passed kids es = Ok (run passed kids es)
  /\ (forall c d,
        shows (content passed kids (run passed kids es)) c ->
        ctl_index c = 0 ->
        nth_error (blanksDataOf kids) 0 = Some d ->
        ctl_validity c = Neutral)
  /\ (forall c d,
        shows (content omitted kids (run omitted kids es)) c ->
        ctl_index c = 0 ->
        nth_error (blanksDataOf kids) 0 = Some d ->
        ctl_validity c = verdict "Lyon" (answer d)).
Proof.
  split; [vm_compute; reflexivity|]. split.
  - assert (H : Component.life (mkSettings TypeMode (Some []) true)
                  (NStr "[Paris] and [Rome]") ([] ++ [Change 0 "Lyon"; Blur 0])
                = Ok (run (mkSettings TypeMode (Some []) true)
                          (NStr "[Paris] and [Rome]") [Change 0 "Lyon"; Blur 0]))
      by (vm_compute; reflexivity).
    exact (proj2 (proj2 (proj2
             (@the_verdict_after_a_blur_depends_on_the_options_prop _ _ _ _ _ _ H)))).
  - assert (H : Component.life (mkSettings TypeMode None true)
                  (NStr "[Paris] and [Rome]") ([] ++ [Change 0 "Lyon"; Blur 0])
                = Ok (run (mkSettings TypeMode None true)
                          (NStr "[Paris] and [Rome]") [Change 0 "Lyon"; Blur 0]))
      by (vm_compute; reflexivity).
    exact (proj2 (proj2 (proj2
             (@the_verdict_after_a_blur_depends_on_the_options_prop _ _ _ _ _ _ H)))).
Defined.

(** The two cases on a text with two blanks: the field of the first blank,
    typed in and left, is neutral when [options] is passed and red when it
    is not. *)
Example the_options_prop_decides_the_style :
  let kids := NStr "[Paris] and [Rome]" in
  let es := [Change 0 "Lyon"; Blur 0] in
  let styles cfg :=
    match treeControls cfg kids (run cfg kids es) with
    | Ok cs => Some (map ctl_validity cs)
    | TypeError => None
    end in
  styles (mkSettings TypeMode (Some []) true) = Some [Neutral; Neutral]
  /\ styles (mkSettings TypeMode None true) = Some [Wrong; Neutral].
Proof. vm_compute. split; reflexivity. Qed.

(** X14. The verdict on a field that was typed in and left appears, at the
    latest, with the next change of another field the component lives
    through: that change replaces the function held, which then sees the
    blur. *)
Theorem a_change_elsewhere_shows_the_verdict
        (cfg : Settings) (children : Node) (es : list Event)
        (i j : nat) (v w : string) (later : Component.Instance) :
  i <> j ->
  Component.life cfg children (es ++ [Change i v; Blur i; Change j w]) = Ok later ->
  (exists cs, treeControls cfg children later = Ok cs)
  /\ forall c d,
       shows (content cfg children later) c ->
       ctl_index c = i ->
       nth_error (blanksDataOf children) i = Some d ->
       ctl_validity c = verdict v (answer d).
Proof.
  intros N H.
  destruct (ReachFacts.life_run cfg children _ H) as [E Alive].
  split; [apply treeControls_total; exact Alive|].
  change (es ++ [Change i v; Blur i; Change j w])
    with (es ++ ([Change i v] ++ [Blur i]) ++ [Change j w]) in E.
  rewrite app_assoc, run_snoc in E.
  set (left := run cfg children (es ++ [Change i v] ++ [Blur i])) in *.
  destruct (run_inv cfg children (es ++ [Change i v] ++ [Blur i])) as (B2 & _ & K2).
  fold left in B2, K2.
  destruct (run_inv cfg children ((es ++ [Change i v] ++ [Blur i]) ++ [Change j w]))
    as (_ & C3 & _).
  rewrite run_snoc in C3. fold left in C3. rewrite <- E in C3.
  assert (El : left
               = Component.step cfg children
                   (Component.step cfg children (run cfg children es) (Change i v))
                   (Blur i)).
  { unfold left. rewrite app_assoc, !run_snoc. reflexivity. }
  intros c d Hc Hk Hd.
  destruct (@shown_fields cfg children later c C3 Hc) as (k & d' & s & -> & D & V).
  change (k = i) in Hk. subst k. rewrite Hd in D. injection D as <-.
  unfold renderBlank. cbn [ctl_validity].
  assert (Kb : blank later = blankClosureOf (state (hook later))).
  { rewrite E. exact (@change_refreshes cfg children left j w B2 K2). }
  rewrite Kb. cbn [blankClosureOf b_touched b_blurred].
  assert (T : flag (touched (state (hook later))) i = true).
  { rewrite E, El. cbn [Component.step UseBlanks.step rerender hook state dispatch
      handleInputChange handleBlur touched]. unfold flag. cbn [Arr.elems].
    rewrite ArrFacts.get_set_spread_other by exact N.
    rewrite ArrFacts.get_set_same. reflexivity. }
  assert (L : flag (blurred (state (hook later))) i = true).
  { rewrite E, El. cbn [Component.step UseBlanks.step rerender hook state dispatch
      handleInputChange handleBlur blurred]. unfold flag. cbn [Arr.elems].
    rewrite ArrFacts.get_set_spread_other by exact N.
    rewrite ArrFacts.get_set_same. reflexivity. }
  assert (X : valueAt (inputs (state (hook later))) i = v).
  { rewrite E, El. cbn [Component.step UseBlanks.step rerender hook state dispatch
      handleInputChange handleBlur inputs]. unfold valueAt. cbn [Arr.elems].
    rewrite ArrFacts.get_set_spread_other by exact N.
    rewrite ArrFacts.get_set_same. reflexivity. }
  rewrite T, L, V, X. unfold verdict. cbn [andb].
  destruct (Js.trim v =? "")%string; cbn [negb andb]; [reflexivity|].
  destruct (matchesAnswer v (answer d)); reflexivity.
Qed.

Lemma a_change_elsewhere_shows_the_verdict_witness :
  let kids := NStr "[Paris] and [Rome]" in
  let cfg := mkSettings TypeMode (Some []) true in
  let later := run cfg kids [Change 0 "Lyon"; Blur 0; Change 1 "R"] in
  option_map (map ctl_validity)
             (match treeControls cfg kids later with
              | Ok cs => Some cs
              | TypeError => None
              end)
  = Some [Wrong; Neutral]
  /\ forall c d,
       shows (content cfg kids later) c ->
       ctl_index c = 0 ->
       nth_error (blanksDataOf kids) 0 = Some d ->
       ctl_validity c = verdict "Lyon" (answer d).
Proof.
  split; [vm_compute; reflexivity|].
  assert (N : 0 <> 1) by lia.
  assert (H : Component.life (mkSettings TypeMode (Some []) true)
                (NStr "[Paris] and [Rome]")
                ([] ++ [Change 0 "Lyon"; Blur 0; Change 1 "R"])
              = Ok (run (mkSettings TypeMode (Some []) true)
                        (NStr "[Paris] and [Rome]")
                        [Change 0 "Lyon"; Blur 0; Change 1 "R"]))
    by (vm_compute; reflexivity).
  exact (proj2 (@a_change_elsewhere_shows_the_verdict _ _ _ 0 1 "Lyon" "R" _ N H)).
Defined.

(** X15. A toggle of the hint the component lives through is shown by the
    render that follows it: the hint text of the blank is rendered exactly
    when the blank has a hint that is not empty and the hint was hidden
    before; the button is there when the setting [showHints] is on and the
    hint is not empty. *)
Theorem a_hint_toggle_is_shown_at_once
        (cfg : Settings) (children : Node) (es : list Event) (i : nat)
        (after : Component.Instance) :
  Component.life cfg children (es ++ [ToggleHint i]) = Ok after ->
  let before := run cfg children es in
  (exists cs, treeControls cfg children after = Ok cs)
  /\ forall c d,
       shows (content cfg children after) c ->
       ctl_index c = i ->
       nth_error (blanksDataOf children) i = Some d ->
       ctl_hintText c
       = (if flag (showHintFor (state (hook before))) i then None else hintOf d)
       /\ ctl_hintButton c
          = (if s_showHints cfg
             then option_map
                    (fun _ => negb (flag (showHintFor (state (hook before))) i))
                    (hintOf d)
             else None).
Proof.
  intros H before.
  destruct (ReachFacts.life_run cfg children _ H) as [E Alive].
  split; [apply treeControls_total; exact Alive|].
  rewrite run_snoc in E. fold before in E.
  destruct (run_inv cfg children (es ++ [ToggleHint i])) as (_ & C & (_ & K)).
  rewrite run_snoc in C, K. fold before in C, K. rewrite <- E in C, K.
  intros c d Hc Hk Hd.
  destruct (@shown_fields cfg children after c C Hc) as (k & d' & s & -> & D & _).
  change (k = i) in Hk. subst k. rewrite Hd in D. injection D as <-.
  unfold renderBlank. cbn [ctl_hintText ctl_hintButton]. rewrite K.
  assert (T : flag (showHintFor (state (hook after))) i
              = negb (flag (showHintFor (state (hook before))) i)).
  { rewrite E. cbn [Component.step UseBlanks.step rerender hook state dispatch
      toggleHint showHintFor].
    unfold flag at 1. cbn [Arr.elems]. rewrite ArrFacts.get_set_same.
    unfold notAt, flag. rewrite ArrFacts.get_spread.
    destruct (Arr.get (Arr.elems (showHintFor (state (hook before)))) i); reflexivity. }
  rewrite T.
  destruct (flag (showHintFor (state (hook before))) i), (hintOf d), (s_showHints cfg);
    split; reflexivity.
Qed.

(** The hint of the first blank is shown after its toggle; the second blank
    was given an empty hint, which is never shown. *)
Lemma a_hint_toggle_is_shown_at_once_witness :
  let kids := NStr "[Paris|hint:a capital] and [Rome|hint:]" in
  let cfg := mkSettings TypeMode None true in
  let after := run cfg kids [ToggleHint 1; ToggleHint 0] in
  option_map (map ctl_hintText)
    (match treeControls cfg kids after with Ok cs => Some cs | TypeError => None end)
  = Some [Some "a capital"; None]
  /\ forall c d,
       shows (content cfg kids after) c ->
       ctl_index c = 0 ->
       nth_error (blanksDataOf kids) 0 = Some d ->
       ctl_hintText c = hintOf d.
Proof.
  split; [vm_compute; reflexivity|].
  assert (H : Component.life (mkSettings TypeMode None true)
                (NStr "[Paris|hint:a capital] and [Rome|hint:]")
                ([ToggleHint 1] ++ [ToggleHint 0])
              = Ok (run (mkSettings TypeMode None true)
                        (NStr "[Paris|hint:a capital] and [Rome|hint:]")
                        [ToggleHint 1; ToggleHint 0]))
    by (vm_compute; reflexivity).
  intros c d Hc Hk Hd.
  destruct (proj2 (@a_hint_toggle_is_shown_at_once _ _ _ 0 _ H) c d Hc Hk Hd) as [T _].
  rewrite T. vm_compute. reflexivity.
Defined.

End FieldViewFacts.

(* ================================================================= *)
(** ** The component [Hint] *)

Module HintComponentFacts.
Import UseBlanks HintComponent.

Lemma clicks_parity n : forall b, clicks n b = xorb b (Nat.odd n).
Proof.
  induction n as [|n IH]; intros b.
  - cbn. destruct b; reflexivity.
  - cbn [clicks]. rewrite IH. unfold click.
    rewrite Nat.odd_succ, <- Nat.negb_odd.
    destruct b, (Nat.odd n); reflexivity.
Qed.

(** X16. After [n] clicks on the button of a hint, the children are rendered
    exactly when [n] is odd if the hint started closed, and exactly when [n]
    is even if it started open; a hint whose prop [defaultOpen] is left out
    starts closed. The button reads [Hide] when the children are rendered
    and [Show] when they are not, then a colon, a space and the title; a
    hint whose prop [title] is left out has the title [Hint]. *)
Theorem hint_is_open_after_an_odd_number_of_clicks
        (t : option string) (kids : Node) (d : option bool) (n : nat) :
  let view := Hint (mkProps t kids d) (clicks n (initial (mkProps t kids d))) in
  let startsOpen := match d with Some b => b | None => false end in
  let shownTitle := match t with Some x => x | None => "Hint"%string end in
  opened view = (if startsOpen then Nat.even n else Nat.odd n)
  /\ body view = (if opened view then Some kids else None)
  /\ button view
     = ((if opened view then "Hide: " else "Show: ") ++ shownTitle)%string
  /\ Hint (mkProps None kids None) (clicks n (initial (mkProps None kids None)))
     = if Nat.odd n
       then mkView "Hide: Hint" true (Some kids)
       else mkView "Show: Hint" false None.
Proof.
  cbn zeta. rewrite !clicks_parity. unfold initial, Hint, titleOf.
  cbn [title children defaultOpen opened body button].
  rewrite <- (Nat.negb_odd n).
  destruct d as [[|]|], (Nat.odd n); cbn [xorb negb];
    (split; [reflexivity|]); (split; [reflexivity|]); split; reflexivity.
Qed.

(** The hint without props, and one that starts open with a title of its
    own, after no click, one click and two clicks. *)
Example a_hint_without_props :
  let views p := map (fun n => Hint p (clicks n (initial p))) [0; 1; 2] in
  views (mkProps None (NStr "think") None)
  = [mkView "Show: Hint" false None;
     mkView "Hide: Hint" true (Some (NStr "think"));
     mkView "Show: Hint" false None]
  /\ views (mkProps (Some "Tip") (NStr "think") (Some true))
     = [mkView "Hide: Tip" true (Some (NStr "think"));
        mkView "Show: Tip" false None;
        mkView "Hide: Tip" true (Some (NStr "think"))].
Proof. split; reflexivity. Qed.

End HintComponentFacts.

(* ================================================================= *)
(** ** [isMarkdownContent] *)

Module MarkdownFacts.
Import Re UseBlanks InlineBlanks Notions Markdown.

Local Abbreviation chars := list_ascii_of_string.

Lemma includes_cons c s p :
  Js.includes s p = true -> Js.includes (String c s) p = true.
Proof.
  intros H. change (Js.includes (String c s) p)
    with (String.prefix p (String c s) || Js.includes s p).
  rewrite H. apply orb_true_r.
Qed.

Lemma includes_pair t : Js.includes (String "*" (String "*" t)) "**" = true.
Proof.
  change (Js.includes (String "*" (String "*" t)) "**")
    with (String.prefix "**" (String "*" (String "*" t))
          || Js.includes (String "*" t) "**").
  replace (String.prefix "**" (String "*" (String "*" t))) with true; [reflexivity|].
  symmetry. apply String.prefix_correct. cbn. destruct t; reflexivity.
Qed.

(** An asterisk stands alone or beside another one. *)
Lemma star_found l :
  forall prev,
    In "*"%char l ->
    loneStarFrom prev l = true
    \/ Js.includes (string_of_list_ascii l) "**" = true
    \/ (starAt prev = true /\ firstIs "*" l = true).
Proof.
  induction l as [|c l IH]; intros prev H; [destruct H|].
  destruct (Ascii.eqb_spec c "*") as [->|N].
  - destruct (starAt prev) eqn:P; [right; right; split; reflexivity|].
    destruct (starAt (hd_error l)) eqn:Q.
    + right. left. destruct l as [|x l]; [discriminate|].
      cbn in Q. unfold isStar in Q. apply Ascii.eqb_eq in Q. subst x.
      cbn [string_of_list_ascii]. apply includes_pair.
    + left. cbn [loneStarFrom]. rewrite P, Q. reflexivity.
  - destruct H as [H|H]; [congruence|].
    destruct (IH (Some c) H) as [A|[A|[A _]]].
    + left. cbn [loneStarFrom]. rewrite A. apply orb_true_r.
    + right. left. cbn [string_of_list_ascii]. apply includes_cons. exact A.
    + cbn [starAt] in A. unfold isStar in A. apply Ascii.eqb_eq in A. contradiction.
Qed.

Lemma occurs_in c s : occurs c s = true <-> In c (chars s).
Proof.
  destruct (occurs c s) eqn:E.
  - split; [intros _|reflexivity].
    destruct (in_dec ascii_dec c (chars s)) as [I|I]; [exact I|].
    apply TableDetection.occurs_chars in I. congruence.
  - apply TableDetection.occurs_chars in E. split; [discriminate|contradiction].
Qed.

(** X17. Every text with an asterisk is markdown content: the asterisk is part of
    a pair, which is taken for bold, or stands alone, which is taken for
    italic. *)
Theorem a_text_with_an_asterisk_is_markdown (text : string) :
  occurs "*" text = true -> isMarkdownContent text = true.
Proof.
  intros H. apply occurs_in in H.
  unfold isMarkdownContent. cbn zeta.
  destruct (@star_found (chars text) None H) as [A|[A|[A _]]].
  - unfold hasItalic. rewrite A. rewrite !orb_true_r. reflexivity.
  - rewrite string_of_list_ascii_of_string in A. unfold hasBold. rewrite A.
    rewrite !orb_true_r. reflexivity.
  - discriminate.
Qed.

Lemma a_text_with_an_asterisk_is_markdown_witness :
  isMarkdownContent "2 * 3 = 6" = true /\ isMarkdownContent "a ** b" = true.
Proof.
  split.
  - apply (@a_text_with_an_asterisk_is_markdown "2 * 3 = 6"). reflexivity.
  - apply (@a_text_with_an_asterisk_is_markdown "a ** b"). reflexivity.
Defined.

Lemma includes_occurs c p s : Js.includes s (String c p) = true -> occurs c s = true.
Proof.
  induction s as [|x s IH]; [discriminate|].
  change (Js.includes (String x s) (String c p))
    with (String.prefix (String c p) (String x s) || Js.includes s (String c p)).
  intros H. apply orb_prop in H. cbn [occurs]. destruct H as [H|H].
  - cbn [String.prefix] in H. destruct (ascii_dec c x) as [->|_]; [|discriminate].
    rewrite Ascii.eqb_refl. reflexivity.
  - rewrite (IH H). apply orb_true_r.
Qed.

Lemma loneStar_in l : forall prev, loneStarFrom prev l = true -> In "*"%char l.
Proof.
  induction l as [|c l IH]; intros prev H; [discriminate|].
  cbn [loneStarFrom] in H. apply orb_prop in H. destruct H as [H|H].
  - apply andb_prop in H. destruct H as [H _]. apply andb_prop in H. destruct H as [_ H].
    unfold isStar in H. apply Ascii.eqb_eq in H. left. exact H.
  - right. exact (IH _ H).
Qed.

(** A match from a start of line lies in the text. *)
Lemma testLineStarts_suffix body l :
  forall b pos,
    testLineStarts body b pos l = true ->
    exists a s pos', l = a ++ s /\ execAt body pos' s <> None.
Proof.
  induction l as [|c l IH]; intros b pos H; cbn [testLineStarts] in H;
    apply orb_prop in H; destruct H as [H|H].
  - apply andb_prop in H. destruct H as [_ H].
    exists [], [], pos. split; [reflexivity|].
    destruct (execAt body pos []); [discriminate|discriminate].
  - discriminate.
  - apply andb_prop in H. destruct H as [_ H].
    exists [], (c :: l), pos. split; [reflexivity|].
    destruct (execAt body pos (c :: l)); [discriminate|discriminate].
  - destruct (IH _ _ H) as (a & s & pos' & E & M).
    exists (c :: a), s, pos'. split; [rewrite E; reflexivity|exact M].
Qed.

Lemma bullet_in pos s :
  execAt bulletRe pos s <> None -> In "-"%char s \/ In "*"%char s.
Proof.
  intros H. apply ReFacts.execAt_matches in H. destruct H as (p' & s' & H).
  unfold bulletRe in H.
  apply TableDetection.ms_seq_inv in H. destruct H as (p1 & s1 & H1 & H).
  apply TableDetection.ms_seq_inv in H. destruct H as (p2 & s2 & H2 & _).
  apply ReFacts.ms_consumes in H1. destruct H1 as (a & -> & _).
  apply TableDetection.ms_class_inv in H2. destruct H2 as (c & -> & B & _).
  unfold bullet in B. apply orb_prop in B.
  destruct B as [B|B]; apply Ascii.eqb_eq in B; subst c;
    [left|right]; apply in_or_app; right; left; reflexivity.
Qed.

Lemma numbered_in pos s : execAt numberedRe pos s <> None -> In "."%char s.
Proof.
  intros H. apply ReFacts.execAt_matches in H. destruct H as (p' & s' & H).
  unfold numberedRe in H.
  apply TableDetection.ms_seq_inv in H. destruct H as (p1 & s1 & H1 & H).
  apply TableDetection.ms_seq_inv in H. destruct H as (p2 & s2 & H2 & H).
  apply TableDetection.ms_seq_inv in H. destruct H as (p3 & s3 & H3 & _).
  apply ReFacts.ms_consumes in H1. destruct H1 as (a & -> & _).
  apply ReFacts.ms_consumes in H2. destruct H2 as (b & -> & _).
  apply TableDetection.ms_chr_inv in H3. destruct H3 as [-> _].
  apply in_or_app. right. apply in_or_app. right. left. reflexivity.
Qed.

(** X18. A text with no asterisk, line feed, hyphen, pipe or full stop is never
    markdown content. *)
Theorem a_plain_text_is_not_markdown (text : string) :
  occurs "*" text = false -> occurs Js.LF text = false ->
  occurs "-" text = false -> occurs "|" text = false ->
  occurs "." text = false ->
  isMarkdownContent text = false.
Proof.
  intros Hstar Hlf Hdash Hpipe Hdot.
  assert (B : hasBold text = false).
  { unfold hasBold. destruct (Js.includes text "**") eqn:E; [|reflexivity].
    apply includes_occurs in E. congruence. }
  assert (I : hasItalic text = false).
  { unfold hasItalic. destruct (loneStarFrom None (chars text)) eqn:E; [|reflexivity].
    apply loneStar_in, occurs_in in E. congruence. }
  assert (M : hasMultipleLines text = false).
  { unfold hasMultipleLines, nl. destruct (Js.includes text (String Js.LF "")) eqn:E;
      [|reflexivity].
    apply includes_occurs in E. congruence. }
  assert (L : hasList text = false).
  { unfold hasList, testMultiline. apply orb_false_iff. split.
    - destruct (testLineStarts bulletRe true 0 (chars text)) eqn:E; [|reflexivity].
      apply testLineStarts_suffix in E. destruct E as (a & s & pos' & E & X).
      apply bullet_in in X.
      destruct X as [X|X];
        (assert (In' : In _ (chars text)) by (rewrite E; apply in_or_app; right; exact X));
        apply occurs_in in In'; congruence.
    - destruct (testLineStarts numberedRe true 0 (chars text)) eqn:E; [|reflexivity].
      apply testLineStarts_suffix in E. destruct E as (a & s & pos' & E & X).
      apply numbered_in in X.
      assert (In' : In "."%char (chars text)) by (rewrite E; apply in_or_app; right; exact X).
      apply occurs_in in In'. congruence. }
  assert (P : hasPipes (Js.split Js.LF text) = false).
  { rewrite (TableDetection.split_one Js.LF text Hlf). unfold hasPipes. cbn [existsb].
    destruct (Js.includes text "|") eqn:E; [|reflexivity].
    apply includes_occurs in E. congruence. }
  unfold isMarkdownContent. cbn zeta. rewrite P, B, I, M, L. reflexivity.
Qed.

Lemma a_plain_text_is_not_markdown_witness :
  isMarkdownContent "Fill in [the] blank, please" = false.
Proof.
  apply (@a_plain_text_is_not_markdown "Fill in [the] blank, please"); reflexivity.
Defined.

End MarkdownFacts.

(* ================================================================= *)
(** ** Dedenting twice *)

Module DedentAgainFacts.
Import Re UseBlanks InlineBlanks Notions.

Local Abbreviation chars := list_ascii_of_string.

(** The greedy [\s*] takes all the white space there is. *)
Lemma starLoop_white fuel :
  forall pos (t : string),
    String.length t <= fuel ->
    starLoop (run (R:=list ascii) ws) true (fun _ rest => Some rest) fuel pos (chars t)
    = Some (chars (Js.trimStart t)).
Proof.
  induction fuel as [|fuel IH]; intros pos t L.
  - destruct t; [reflexivity|simpl in L; lia].
  - destruct t as [|c t]; [reflexivity|].
    cbn [starLoop chars list_ascii_of_string run ws Js.trimStart].
    destruct (Js.isWhiteSpace c); [|reflexivity].
    destruct (Nat.eqb_spec (S pos) pos) as [E|_]; [lia|].
    rewrite IH by (simpl in L; lia). reflexivity.
Qed.

(** [indentOf] counts the white space a line starts with. *)
Lemma indentOf_trimStart line :
  indentOf line = String.length line - String.length (Js.trimStart line).
Proof.
  unfold indentOf, execAt, indentRe. cbn [run Nat.eqb].
  rewrite starLoop_white by (rewrite TableDetection.chars_length; lia).
  rewrite !TableDetection.chars_length. reflexivity.
Qed.

Lemma drop_trimStart s :
  Js.drop (String.length s - String.length (Js.trimStart s)) s = Js.trimStart s.
Proof.
  induction s as [|c s IH]; [reflexivity|].
  cbn [Js.trimStart]. destruct (Js.isWhiteSpace c).
  - pose proof (RevealFacts.trimStart_length s) as L.
    replace (String.length (String c s) - String.length (Js.trimStart s))
      with (S (String.length s - String.length (Js.trimStart s)))
      by (cbn [String.length]; lia).
    exact IH.
  - rewrite Nat.sub_diag. reflexivity.
Qed.

Lemma trimStart_idem s : Js.trimStart (Js.trimStart s) = Js.trimStart s.
Proof.
  induction s as [|c s IH]; [reflexivity|].
  cbn [Js.trimStart]. destruct (Js.isWhiteSpace c) eqn:E; [exact IH|].
  cbn [Js.trimStart]. rewrite E. reflexivity.
Qed.

(** A line with the least indentation loses all of it. *)
Lemma dedentLine_least l :
  dedentLine (indentOf l) l = Js.trimStart l.
Proof.
  unfold dedentLine, Js.sliceFrom. rewrite indentOf_trimStart.
  destruct (Nat.leb_spec (String.length l - String.length (Js.trimStart l))
                         (String.length l)) as [_|H]; [|lia].
  apply drop_trimStart.
Qed.

(** The least indentation is the indentation of a line that is not blank. *)
Lemma minIndent_achieved ls :
  forall acc k,
    fold_left minStep ls acc = Some k ->
    acc = Some k
    \/ exists l, In l ls /\ (String.length (Js.trim l) =? 0) = false /\ indentOf l = k.
Proof.
  induction ls as [|l ls IH]; intros acc k H; [left; exact H|].
  cbn [fold_left] in H. destruct (IH _ _ H) as [E|(l' & I & B & X)].
  - unfold minStep in E. destruct (String.length (Js.trim l) =? 0) eqn:Eb.
    + left. exact E.
    + destruct acc as [m|]; injection E as E.
      * destruct (Nat.min_spec m (indentOf l)) as [[_ M]|[_ M]]; rewrite M in E.
        -- left. rewrite E. reflexivity.
        -- right. exists l. split; [left; reflexivity|]. split; [exact Eb|exact E].
      * right. exists l. split; [left; reflexivity|]. split; [exact Eb|exact E].
  - right. exists l'. split; [right; exact I|]. split; assumption.
Qed.

Lemma lines_dedented k text :
  lines (Js.join nl (map (dedentLine k) (lines text))) = map (dedentLine k) (lines text).
Proof.
  unfold lines, nl. apply TableDetection.split_join.
  - pose proof (TableDetection.split_not_nil Js.LF text) as N.
    destruct (Js.split Js.LF text); [contradiction|discriminate].
  - apply Forall_forall. intros l' H. apply in_map_iff in H.
    destruct H as (l & <- & I).
    pose proof (TableDetection.split_occurs Js.LF text) as F.
    rewrite Forall_forall in F. specialize (F l I).
    unfold dedentLine. destruct (k <=? String.length l); [|exact F].
    apply TableDetection.occurs_drop. exact F.
Qed.

(** A dedented text has no indentation left to remove. *)
Lemma minIndent_dedented text k :
  minIndent (lines text) = Some k ->
  forall m, minIndent (map (dedentLine k) (lines text)) <> Some (S m).
Proof.
  intros H m H'. unfold minIndent in *.
  destruct (minIndent_achieved _ _ H) as [E|(l & I & B & X)]; [discriminate|].
  destruct (TableDetection.minIndent_le _ _ H') as [_ Le].
  assert (I' : In (dedentLine k l) (map (dedentLine k) (lines text)))
    by (apply in_map; exact I).
  subst k. rewrite dedentLine_least in I'.
  specialize (Le _ I').
  assert (B' : (String.length (Js.trim (Js.trimStart l)) =? 0) = false).
  { unfold Js.trim in *. rewrite trimStart_idem. exact B. }
  specialize (Le B'). rewrite indentOf_trimStart, trimStart_idem in Le. lia.
Qed.

(** X19. The preprocessing is idempotent: the text it returns is returned as it
    is when it is preprocessed again, with the same answer about the
    table. *)
Theorem preprocessing_twice_is_preprocessing_once (text : string) :
  preprocess (fst (preprocess text)) = preprocess text.
Proof.
  assert (R : fst (preprocess text) = text
              \/ exists n, minIndent (lines text) = Some (S n)
                           /\ fst (preprocess text)
                              = Js.join nl (map (dedentLine (S n)) (lines text))).
  { unfold preprocess.
    destruct (hasPipes (lines text) && hasSeparator (lines text) || Js.includes text nl);
      [|left; reflexivity].
    destruct (minIndent (lines text)) as [[|n]|]; try (left; reflexivity).
    right. exists n. split; reflexivity. }
  assert (F : fst (preprocess (fst (preprocess text))) = fst (preprocess text)).
  { destruct R as [R|(n & M & R)]; rewrite R; [exact R|].
    unfold preprocess. rewrite lines_dedented.
    destruct (hasPipes (map (dedentLine (S n)) (lines text))
              && hasSeparator (map (dedentLine (S n)) (lines text))
              || Js.includes (Js.join nl (map (dedentLine (S n)) (lines text))) nl);
      [|reflexivity].
    pose proof (minIndent_dedented text M) as X.
    destruct (minIndent (map (dedentLine (S n)) (lines text))) as [[|m]|];
      try reflexivity.
    exfalso. exact (X m eq_refl). }
  assert (S : snd (preprocess (fst (preprocess text))) = snd (preprocess text)).
  { rewrite !TableDetection.snd_preprocess. apply TableDetection.tableDetected_dedent. }
  destruct (preprocess (fst (preprocess text))) as [a b], (preprocess text) as [a' b'].
  cbn [fst snd] in F, S. subst. reflexivity.
Qed.

End DedentAgainFacts.

(* ================================================================= *)
(** ** What the content shows of the state *)

Module FreshnessFacts.
Import UseBlanks InlineBlanks Notions Component Reach.

(** X20. After the events the hook lived through, the status handed to
    [renderBlank] for a blank is derived from the present [inputs],
    [touched] and [submitted]: its value, [isCorrect], [touched] and
    [showValidation] are those of the state; only [isWrong] can lag behind,
    through [blurred], and it is never set without [showValidation] or
    together with [isCorrect]. *)
Theorem the_rendered_status_is_up_to_date_but_for_the_blur
        (children : Node) (es : list Event) (inst : UseBlanks.Instance) :
  UseBlanks.life children es = Ok inst ->
  let st := state inst in
  exists os,
    rendered children inst = Ok os
    /\ Forall (fun b =>
                 let k := indexOf b in
                 let s := statusOf b in
                 let value := valueAt (inputs st) k in
                 nth_error (blanksDataOf children) k = Some (dataOf b)
                 /\ Status.value s = value
                 /\ Status.isCorrect s = matchesAnswer value (answer (dataOf b))
                 /\ Status.touched s = flag (touched st) k
                 /\ Status.showValidation s
                    = submitted st
                      || (flag (touched st) k && negb (String.eqb (Js.trim value) ""))
                 /\ (Status.isWrong s = true ->
                     Status.showValidation s = true /\ Status.isCorrect s = false))
              (blanksIn os).
Proof.
  intros H st.
  destruct (ReachFacts.life_runHook children es H) as [R Alive].
  destruct (ReachFacts.runHook_inv children es) as [_ (D & I & S & T)].
  rewrite <- R in D, I, S, T. fold st in I, S, T.
  destruct (AccountingFacts.processNode_accounted (memo inst) children 0)
    as (os & E & _ & F & _).
  exists os. unfold rendered, renderContent. rewrite Alive, E. split; [reflexivity|].
  eapply Forall_impl; [|exact F].
  intros b [N X]. cbn zeta. rewrite X. unfold deriveStatus.
  rewrite I, S, T, <- D.
  split; [exact N|]. split; [reflexivity|]. split; [reflexivity|].
  split; [reflexivity|]. split; [reflexivity|].
  intros W. cbn [Status.isWrong Status.showValidation Status.isCorrect] in *.
  apply andb_prop in W. destruct W as [W _].
  apply andb_prop in W. destruct W as [W1 W2]. apply negb_true_iff in W2.
  split; [exact W1|exact W2].
Qed.

Lemma the_rendered_status_is_up_to_date_but_for_the_blur_witness :
  let kids := NElem "p" (NArr [NStr "[Paris] is in "; NStr "[France]"]) in
  let es := [Change 0 "Lyon"; Blur 0; Change 1 "france"; CheckAnswers] in
  UseBlanks.life kids es = Ok (runHook kids es)
  /\ exists os,
       rendered kids (runHook kids es) = Ok os
       /\ map (fun b => Status.value (statusOf b)) (blanksIn os) = ["Lyon"; "france"]
       /\ map (fun b => Status.isCorrect (statusOf b)) (blanksIn os) = [false; true].
Proof.
  assert (H : UseBlanks.life
                (NElem "p" (NArr [NStr "[Paris] is in "; NStr "[France]"]))
                [Change 0 "Lyon"; Blur 0; Change 1 "france"; CheckAnswers]
              = Ok (runHook (NElem "p" (NArr [NStr "[Paris] is in "; NStr "[France]"]))
                      [Change 0 "Lyon"; Blur 0; Change 1 "france"; CheckAnswers]))
    by (vm_compute; reflexivity).
  split; [exact H|].
  destruct (@the_rendered_status_is_up_to_date_but_for_the_blur _ _ _ H)
    as (os & E & _).
  exists os. split; [exact E|].
  vm_compute in E. injection E as <-. split; reflexivity.
Defined.

End FreshnessFacts.

(* ================================================================= *)
(** ** The two paths of the content *)

Module PathFacts.
Import UseBlanks InlineBlanks Notions Component Reach.

Lemma marker_of_index ctx k d :
  nth_error (ctx_blanksData ctx) k = Some d ->
  exists s,
    InlineMarkdownBlank ctx (Js.natToString k) = Some (k, d, s)
    /\ Status.value s = valueAt (ctx_inputs ctx) k.
Proof.
  intros N. unfold InlineMarkdownBlank.
  rewrite TableFacts.parseInt_natToString, TableFacts.lookupData_index, N.
  rewrite Nat2Z.id. eexists. split; reflexivity.
Qed.

(** X21. For children that are one text, and after the events the component
    lived through, the marker with the index of a blank renders, in the
    table path, the field the tree path renders for that blank: the fields
    of the tree are as many as the blanks, and the one at position [k] is
    the one of the marker [k]. *)
Theorem a_marker_renders_the_field_of_the_tree_path
        (cfg : Settings) (s : string) (es : list Event) (k : nat)
        (inst : Component.Instance) :
  let kids := NStr s in
  k < List.length (blanksDataOf kids) ->
  Component.life cfg kids es = Ok inst ->
  exists cs c,
    treeControls cfg kids inst = Ok cs
    /\ List.length cs = List.length (blanksDataOf kids)
    /\ markerControl cfg kids inst (Js.natToString k) = Some c
    /\ nth_error cs k = Some c
    /\ ctl_index c = k.
Proof.
  intros kids Hk H.
  destruct (ReachFacts.life_run cfg kids es H) as [R Alive].
  destruct (FieldViewFacts.run_inv cfg kids es) as (_ & (D & I & _) & _).
  rewrite <- R in D, I.
  destruct (AccountingFacts.processNode_accounted (memo (hook inst)) kids 0)
    as (os & E & X & F & _).
  assert (T : taken (memo (hook inst)) (tokensIn kids) 0
              = List.length (blanksDataOf kids)).
  { unfold taken. rewrite D. unfold kids, blanksDataOf, parseBlanks.
    cbn [getTextFromChildren tokensIn]. unfold tokenCount.
    rewrite length_map. lia. }
  rewrite T in X.
  assert (Len : List.length (blanksIn os) = List.length (blanksDataOf kids)).
  { rewrite <- (length_map indexOf), X. apply length_seq. }
  destruct (nth_error (blanksIn os) k) as [[[k' d] st]|] eqn:B;
    [|apply nth_error_None in B; lia].
  assert (K : k' = k).
  { pose proof (map_nth_error indexOf k (blanksIn os) B) as M.
    rewrite X, nth_error_seq in M.
    destruct (Nat.ltb_spec k (List.length (blanksDataOf kids))) as [_|?]; [|lia].
    injection M as M. unfold indexOf in M. cbn [fst] in M. lia. }
  subst k'.
  pose proof (proj1 (Forall_forall _ _) F _ (nth_error_In _ _ B)) as [N Hs].
  unfold indexOf, dataOf, statusOf in N, Hs. cbn [fst snd] in N, Hs.
  assert (N' : nth_error (ctx_blanksData (contextOf kids inst)) k = Some d).
  { unfold contextOf. cbn [ctx_blanksData]. rewrite <- D. exact N. }
  destruct (marker_of_index (contextOf kids inst) k N') as (st' & M & V).
  exists (map (call cfg inst) (blanksIn os)), (call cfg inst (k, d, st)).
  unfold treeControls, rendered, renderContent. rewrite Alive, E.
  split; [reflexivity|]. split; [rewrite length_map; exact Len|]. split; [|split].
  - unfold markerControl. rewrite M. cbn [option_map]. f_equal.
    unfold call. cbn [fst snd]. unfold renderBlank. rewrite V, Hs.
    unfold deriveStatus, contextOf. cbn [Status.value ctx_inputs]. rewrite I.
    reflexivity.
  - apply map_nth_error. exact B.
  - reflexivity.
Qed.

Lemma a_marker_renders_the_field_of_the_tree_path_witness :
  let kids := NStr tableText in
  let cfg := mkSettings Picker None true in
  let inst := run cfg kids [Change 1 "Spain"; Blur 1; Change 0 "Paris"] in
  isTable kids = true
  /\ exists cs c,
       treeControls cfg kids inst = Ok cs
       /\ List.length cs = List.length (blanksDataOf kids)
       /\ markerControl cfg kids inst (Js.natToString 1) = Some c
       /\ nth_error cs 1 = Some c
       /\ ctl_index c = 1.
Proof.
  split; [vm_compute; reflexivity|].
  apply (@a_marker_renders_the_field_of_the_tree_path
           (mkSettings Picker None true) tableText
           [Change 1 "Spain"; Blur 1; Change 0 "Paris"] 1).
  - vm_compute. lia.
  - vm_compute. reflexivity.
Defined.

End PathFacts.

(* ================================================================= *)
(** ** Reset and reveal, as the content shows them *)

Module WholeFacts.
Import UseBlanks InlineBlanks Notions Component Reach.





End WholeFacts.

(* ================================================================= *)
(** ** The text of the children and the text of the content *)

Module TextFacts.
Import UseBlanks InlineBlanks Notions Component Reach.

Lemma concat_empty_cons (x : string) (l : list string) :
  String.concat EmptyString (x :: l) = (x ++ String.concat EmptyString l)%string.
Proof.
  destruct l as [|y l]; cbn [String.concat]; [|reflexivity].
  induction x as [|c x IH]; [reflexivity|]. simpl. rewrite <- IH. reflexivity.
Qed.

Lemma append_empty (a : string) : (a ++ "")%string = a.
Proof. induction a as [|x a IH]; [reflexivity|]. simpl. rewrite IH. reflexivity. Qed.

Lemma append_assoc (a b c : string) : ((a ++ b) ++ c = a ++ (b ++ c))%string.
Proof. induction a as [|x a IH]; [reflexivity|]. simpl. rewrite IH. reflexivity. Qed.

Lemma concat_empty_app (a b : list string) :
  String.concat EmptyString (a ++ b)
  = (String.concat EmptyString a ++ String.concat EmptyString b)%string.
Proof.
  induction a as [|x a IH]; [reflexivity|].
  cbn [app]. rewrite !concat_empty_cons, IH, append_assoc. reflexivity.
Qed.

Lemma textOf_app a b : textOf (a ++ b) = (textOf a ++ textOf b)%string.
Proof. unfold textOf. rewrite map_app. apply concat_empty_app. Qed.

Lemma textOf_parts parts : textOf (map OText parts) = String.concat EmptyString parts.
Proof.
  unfold textOf. rewrite map_map. cbn [outText]. rewrite map_id. reflexivity.
Qed.

(** X24. For content without block elements (and without a zero that is the one
    child of an element), the text the parser works on is the
    text of the content as the walker writes it when it replaces nothing:
    inline elements add nothing to the text and every text leaf, split and
    put together again, is itself. *)
Theorem inline_content_reads_back_as_the_parsed_text (node : Node) :
  inline node = true ->
  textOf (literal node) = getTextFromChildren node.
Proof.
  induction node as [s|n|items IH|type children IH| |b] using WalkerFacts.Node_induction;
    intros H; cbn [literal getTextFromChildren inline] in *.
  - rewrite textOf_parts. apply (ReFacts.splitCapture_concat blankRe s).
  - unfold textOf. cbn [map outText]. rewrite concat_empty_cons.
    cbn [String.concat]. apply append_empty.
  - induction IH as [|x items Hx _ IHitems]; [reflexivity|].
    cbn [forallb] in H. apply andb_prop in H. destruct H as [H1 H2].
    cbn [flat_map]. rewrite textOf_app, (Hx H1), (IHitems H2).
    f_equal. destruct x as [| | |type c| |]; try reflexivity.
    cbn [inline] in H1. apply andb_prop in H1. destruct H1 as [H1 _].
    apply andb_prop in H1. destruct H1 as [H1 _].
    apply negb_true_iff in H1. rewrite H1. reflexivity.
  - apply andb_prop in H. destruct H as [H H2].
    apply andb_prop in H. destruct H as [H1 Hz].
    apply negb_true_iff in H1. apply negb_true_iff in Hz.
    assert (Br : (type =? "br")%string = false).
    { unfold isArrayBlock in H1. apply orb_false_iff in H1. destruct H1 as [_ H1].
      exact H1. }
    assert (Tb : isTrailingBlock type = false).
    { unfold isArrayBlock, isTrailingBlock in *.
      apply orb_false_iff in H1. destruct H1 as [H1 _].
      apply orb_false_iff in H1. destruct H1 as [H1 _]. exact H1. }
    rewrite Br, Tb. destruct (truthy children) eqn:Tr.
    + unfold textOf. cbn [map outText]. rewrite concat_empty_cons.
      cbn [String.concat]. fold (textOf (literal children)). rewrite (IH H2).
      apply append_empty.
    + unfold textOf. cbn [map outText].
      destruct children as [| z | | | |]; try reflexivity.
      cbn [truthy zeroChild] in Tr, Hz. rewrite Hz in Tr. discriminate.
  - reflexivity.
  - reflexivity.
Qed.

(** A zero that is the one child of an element is rendered, and the parser
    does not see it. *)
Example a_lone_zero_is_rendered_but_not_parsed :
  let kids := NElem "b" (NNum 0) in
  getTextFromChildren kids = EmptyString /\ textOf (literal kids) = "0".
Proof. vm_compute. split; reflexivity. Qed.

Lemma inline_content_reads_back_as_the_parsed_text_witness :
  let kids := NArr [NStr "The "; NElem "strong" (NStr "[capital|city]"); NStr " of France"] in
  getTextFromChildren kids = "The [capital|city] of France"
  /\ textOf (literal kids) = getTextFromChildren kids.
Proof.
  split; [vm_compute; reflexivity|].
  apply (@inline_content_reads_back_as_the_parsed_text
           (NArr [NStr "The "; NElem "strong" (NStr "[capital|city]"); NStr " of France"])).
  reflexivity.
Defined.

End TextFacts.
